(** * Aqua Park: the deterministic simulation core

    A shallow embedding of the engine ([src/game/engine.ts]), the track
    generator ([src/game/track.ts]), the replay codec
    ([src/game/replayCodec.ts]), the bot controller
    ([src/ai/botController.ts], [src/ai/botProfiles.ts]) and the parts of
    the scene that drive them ([src/game/scenes/GameScene.ts]: the segment
    under a player, the players and their controllers, the collisions and
    the finish of a tick), with the properties of each.

    Conventions of the embedding.
    - A JavaScript [number] that the program uses as an integer (seeds,
      ticks, lane counts and lane indices, lengths, places in the finishing
      order) is a [Z]; the 32-bit wrap-around of the bit operators is
      written out.
    - Every other [number] is a rational [Q]: arithmetic is exact, there is
      no rounding, no NaN and no infinity.  [Math.sqrt (s) < r] is read as
      [s < r * r].  The time bonus of the score, which floors a product,
      hinges on the rounding: [calculateScore] rounds as the doubles do.
    - An object that the program mutates in place is a value that the
      function returns.  Where two owners hold the same object (the
      entries of the table [BOT_PROFILES]) the object lives in an explicit
      store and the owners hold its key.
    - [rng.next ()] and its callers thread the generator through a state
      monad; code that may throw returns a [result].
    - The built-ins the codec calls ([btoa], [atob], [JSON.stringify],
      [JSON.parse], property reads and [ToInt32]) follow the HTML and
      ECMAScript standards, on strings as sequences of code units. *)

From Stdlib Require Import NArith ZArith QArith Qround Qabs Qpower Lia Lqa List Bool.
From Stdlib Require Import String Ascii DecimalString DecimalZ DecimalPos DecimalFacts.
Import ListNotations.

Local Open Scope Z_scope.

(** ** types.ts *)

Inductive GameMode : Type := classic | timeTrial | chaos | custom.

Inductive BotProfileType : Type := casual | aggressive | speedster | trickster | adaptive.

Inductive SegmentType : Type :=
  straight | curve_left | curve_right | ramp | gap | splitter | narrow.

Inductive ObstacleType : Type := barrel | ring | bumper.

Inductive PowerupType : Type := speed_boost | shield | jump_boost.

Definition GameMode_eqb (a b : GameMode) : bool :=
  match a, b with
  | classic, classic | timeTrial, timeTrial | chaos, chaos | custom, custom => true
  | _, _ => false
  end.

Definition BotProfileType_eqb (a b : BotProfileType) : bool :=
  match a, b with
  | casual, casual | aggressive, aggressive | speedster, speedster
  | trickster, trickster | adaptive, adaptive => true
  | _, _ => false
  end.

Definition SegmentType_eqb (a b : SegmentType) : bool :=
  match a, b with
  | straight, straight | curve_left, curve_left | curve_right, curve_right
  | ramp, ramp | gap, gap | splitter, splitter | narrow, narrow => true
  | _, _ => false
  end.

(** An array read past the end gives [undefined]; a field that may hold it
    is an [option], [None] standing for [undefined]. *)

Record ObstacleData : Type := mkObstacle {
  obs_type : option ObstacleType;
  obs_lane : Z;
  obs_position : Q;
  obs_moving : option bool;
  obs_moveRange : option Z
}.

Record PowerupData : Type := mkPowerup {
  pu_type : option PowerupType;
  pu_lane : Z;
  pu_position : Q
}.

Record TrackSegment : Type := mkSegment {
  seg_type : option SegmentType;
  seg_length : Z;
  lanes : Z;
  obstacles : list ObstacleData;
  powerups : list PowerupData;
  friction : Q;
  slope : Q
}.

Record InputState : Type := mkInput { left : bool; right : bool; jump : bool }.

Record ReplayFrame : Type := mkFrame { tick : Z; inputs : InputState }.

(** The settings the simulation reads, and [Partial<GameSettings>]. *)
Record GameSettings : Type := mkSettings { botCount : Z; matchLength : Q }.

Record PartialSettings : Type :=
  mkPartial { opt_botCount : option Z; opt_matchLength : option Q }.

Record ReplayData : Type := mkReplay {
  version : Z;
  seed : Z;
  mode : GameMode;
  settings : PartialSettings;
  frames : list ReplayFrame;
  startTime : Z;
  playerName : string
}.

(** [PlayerState], and one setter per field the engine assigns. *)

Record PlayerState : Type := mkPlayer {
  id : string;
  name : string;
  x : Q;
  y : Q;
  lane : Z;
  forwardSpeed : Q;
  lateralSpeed : Q;
  distanceTraveled : Q;
  isJumping : bool;
  jumpTimer : Q;
  stunTimer : Q;
  hasShield : bool;
  shieldTimer : Q;
  speedBoostTimer : Q;
  jumpBoostTimer : Q;
  isBot : bool;
  botProfile : option BotProfileType;
  skinIndex : Z;
  score : Z;
  finished : bool;
  finishTime : Q;
  finishPosition : Z
}.

Definition set_x (p : PlayerState) (v : Q) : PlayerState :=
  mkPlayer
    (id p) (name p) v (y p) (lane p) (forwardSpeed p) (lateralSpeed p)
    (distanceTraveled p) (isJumping p) (jumpTimer p) (stunTimer p)
    (hasShield p) (shieldTimer p) (speedBoostTimer p) (jumpBoostTimer p)
    (isBot p) (botProfile p) (skinIndex p) (score p) (finished p)
    (finishTime p) (finishPosition p).

Definition set_lane (p : PlayerState) (v : Z) : PlayerState :=
  mkPlayer
    (id p) (name p) (x p) (y p) v (forwardSpeed p) (lateralSpeed p)
    (distanceTraveled p) (isJumping p) (jumpTimer p) (stunTimer p)
    (hasShield p) (shieldTimer p) (speedBoostTimer p) (jumpBoostTimer p)
    (isBot p) (botProfile p) (skinIndex p) (score p) (finished p)
    (finishTime p) (finishPosition p).

Definition set_forwardSpeed (p : PlayerState) (v : Q) : PlayerState :=
  mkPlayer
    (id p) (name p) (x p) (y p) (lane p) v (lateralSpeed p)
    (distanceTraveled p) (isJumping p) (jumpTimer p) (stunTimer p)
    (hasShield p) (shieldTimer p) (speedBoostTimer p) (jumpBoostTimer p)
    (isBot p) (botProfile p) (skinIndex p) (score p) (finished p)
    (finishTime p) (finishPosition p).

Definition set_lateralSpeed (p : PlayerState) (v : Q) : PlayerState :=
  mkPlayer
    (id p) (name p) (x p) (y p) (lane p) (forwardSpeed p) v
    (distanceTraveled p) (isJumping p) (jumpTimer p) (stunTimer p)
    (hasShield p) (shieldTimer p) (speedBoostTimer p) (jumpBoostTimer p)
    (isBot p) (botProfile p) (skinIndex p) (score p) (finished p)
    (finishTime p) (finishPosition p).

Definition set_distanceTraveled (p : PlayerState) (v : Q) : PlayerState :=
  mkPlayer
    (id p) (name p) (x p) (y p) (lane p) (forwardSpeed p) (lateralSpeed p) v
    (isJumping p) (jumpTimer p) (stunTimer p) (hasShield p) (shieldTimer p)
    (speedBoostTimer p) (jumpBoostTimer p) (isBot p) (botProfile p)
    (skinIndex p) (score p) (finished p) (finishTime p) (finishPosition p).

Definition set_isJumping (p : PlayerState) (v : bool) : PlayerState :=
  mkPlayer
    (id p) (name p) (x p) (y p) (lane p) (forwardSpeed p) (lateralSpeed p)
    (distanceTraveled p) v (jumpTimer p) (stunTimer p) (hasShield p)
    (shieldTimer p) (speedBoostTimer p) (jumpBoostTimer p) (isBot p)
    (botProfile p) (skinIndex p) (score p) (finished p) (finishTime p)
    (finishPosition p).

Definition set_jumpTimer (p : PlayerState) (v : Q) : PlayerState :=
  mkPlayer
    (id p) (name p) (x p) (y p) (lane p) (forwardSpeed p) (lateralSpeed p)
    (distanceTraveled p) (isJumping p) v (stunTimer p) (hasShield p)
    (shieldTimer p) (speedBoostTimer p) (jumpBoostTimer p) (isBot p)
    (botProfile p) (skinIndex p) (score p) (finished p) (finishTime p)
    (finishPosition p).

Definition set_stunTimer (p : PlayerState) (v : Q) : PlayerState :=
  mkPlayer
    (id p) (name p) (x p) (y p) (lane p) (forwardSpeed p) (lateralSpeed p)
    (distanceTraveled p) (isJumping p) (jumpTimer p) v (hasShield p)
    (shieldTimer p) (speedBoostTimer p) (jumpBoostTimer p) (isBot p)
    (botProfile p) (skinIndex p) (score p) (finished p) (finishTime p)
    (finishPosition p).

Definition set_hasShield (p : PlayerState) (v : bool) : PlayerState :=
  mkPlayer
    (id p) (name p) (x p) (y p) (lane p) (forwardSpeed p) (lateralSpeed p)
    (distanceTraveled p) (isJumping p) (jumpTimer p) (stunTimer p) v
    (shieldTimer p) (speedBoostTimer p) (jumpBoostTimer p) (isBot p)
    (botProfile p) (skinIndex p) (score p) (finished p) (finishTime p)
    (finishPosition p).

Definition set_shieldTimer (p : PlayerState) (v : Q) : PlayerState :=
  mkPlayer
    (id p) (name p) (x p) (y p) (lane p) (forwardSpeed p) (lateralSpeed p)
    (distanceTraveled p) (isJumping p) (jumpTimer p) (stunTimer p)
    (hasShield p) v (speedBoostTimer p) (jumpBoostTimer p) (isBot p)
    (botProfile p) (skinIndex p) (score p) (finished p) (finishTime p)
    (finishPosition p).

Definition set_speedBoostTimer (p : PlayerState) (v : Q) : PlayerState :=
  mkPlayer
    (id p) (name p) (x p) (y p) (lane p) (forwardSpeed p) (lateralSpeed p)
    (distanceTraveled p) (isJumping p) (jumpTimer p) (stunTimer p)
    (hasShield p) (shieldTimer p) v (jumpBoostTimer p) (isBot p)
    (botProfile p) (skinIndex p) (score p) (finished p) (finishTime p)
    (finishPosition p).

Definition set_jumpBoostTimer (p : PlayerState) (v : Q) : PlayerState :=
  mkPlayer
    (id p) (name p) (x p) (y p) (lane p) (forwardSpeed p) (lateralSpeed p)
    (distanceTraveled p) (isJumping p) (jumpTimer p) (stunTimer p)
    (hasShield p) (shieldTimer p) (speedBoostTimer p) v (isBot p)
    (botProfile p) (skinIndex p) (score p) (finished p) (finishTime p)
    (finishPosition p).

Definition set_finished (p : PlayerState) (v : bool) : PlayerState :=
  mkPlayer
    (id p) (name p) (x p) (y p) (lane p) (forwardSpeed p) (lateralSpeed p)
    (distanceTraveled p) (isJumping p) (jumpTimer p) (stunTimer p)
    (hasShield p) (shieldTimer p) (speedBoostTimer p) (jumpBoostTimer p)
    (isBot p) (botProfile p) (skinIndex p) (score p) v (finishTime p)
    (finishPosition p).

(** ** Numbers *)

(** [ToInt32]: the value modulo 2^32, read as a signed 32-bit integer. *)
Definition ToInt32 (z : Z) : Z :=
  let m := z mod 2 ^ 32 in
  if m <? 2 ^ 31 then m else m - 2 ^ 32.

(** [ToUint32], which is what [z >>> 0] computes. *)
Definition ToUint32 (z : Z) : Z := z mod 2 ^ 32.

(** [a & b] on numbers holding integers. *)
Definition bit_and (a b : Z) : Z := ToInt32 (Z.land (ToInt32 a) (ToInt32 b)).

(** [a | b] on numbers holding integers. *)
Definition bit_or (a b : Z) : Z := ToInt32 (Z.lor (ToInt32 a) (ToInt32 b)).

Definition Qmin (a b : Q) : Q := if Qle_bool a b then a else b.
Definition Qmax (a b : Q) : Q := if Qle_bool a b then b else a.
Definition Qltb (a b : Q) : bool := negb (Qle_bool b a).

(** ** engine.ts: class SeededRNG *)

Module Rng.

Record SeededRNG : Type := mk { seed : Z }.

(** Code that draws from the generator: the generator before, the result
    and the generator after. *)
Definition Rand (A : Type) : Type := SeededRNG -> A * SeededRNG.

Definition ret {A} (a : A) : Rand A := fun g => (a, g).

Definition bind {A B} (m : Rand A) (k : A -> Rand B) : Rand B :=
  fun g => let (a, g') := m g in k a g'.

(** [this.seed = (this.seed * 1664525 + 1013904223) & 0xFFFFFFFF;
     return (this.seed >>> 0) / 0xFFFFFFFF;]
    The product is exact for every state the generator takes after its
    first call (a 32-bit integer) and for every seed below 2^32 in
    magnitude; the rounding of the product of a larger seed is not
    modelled. *)
Definition next : Rand Q :=
  fun g =>
    let s := bit_and (seed g * 1664525 + 1013904223) 0xFFFFFFFF in
    ((inject_Z (ToUint32 s) / inject_Z 0xFFFFFFFF)%Q, mk s).

(** [Math.floor (this.next () * (max - min)) + min] *)
Definition nextInt (min max : Z) : Rand Z :=
  fun g =>
    let (v, g') := next g in
    (Qfloor (v * inject_Z (max - min))%Q + min, g').

(** [this.next () * (max - min) + min] *)
Definition nextFloat (min max : Q) : Rand Q :=
  fun g =>
    let (v, g') := next g in
    ((v * (max - min) + min)%Q, g').

Definition getSeed (g : SeededRNG) : Z := seed g.

End Rng.

Declare Scope rand_scope.
Delimit Scope rand_scope with rand.
Notation "x <- m ;; k" := (Rng.bind m (fun x => k))
  (at level 61, m at next level, right associativity) : rand_scope.
Notation "' ( x , y ) <- m ;; k" := (Rng.bind m (fun '(x, y) => k))
  (at level 61, m at next level, right associativity) : rand_scope.

(** ** Doubles

    Where a result hinges on the rounding of a double, the operation is
    written with [double], the rounding of its real result. *)

(** For a positive [a], the [e] with [2 ^ e <= a < 2 ^ (e + 1)]. *)
Definition exponent (a : Q) : Z :=
  let e := Z.log2 (Qnum a) - Z.log2 (Zpos (Qden a)) in
  if Qle_bool (2 ^ e) a then e else e - 1.

(** The nearest integer, the even one of the two when they are as near. *)
Definition nearest_even (a : Q) : Z :=
  let f := Qfloor a in
  let r := (a - inject_Z f)%Q in
  if Qltb r (1 # 2) then f
  else if Qltb (1 # 2) r then f + 1
  else if Z.even f then f else f + 1.

(** The nearest multiple of [2 ^ k]. *)
Definition to_multiple (k : Z) (a : Q) : Q :=
  (inject_Z (nearest_even (a / 2 ^ k)) * 2 ^ k)%Q.

(** The doubles next to [a] are the multiples of [2 ^ quantum_exponent a]:
    53 bits from the leading bit of [a] on, and no bit under [2 ^ -1074]. *)
Definition quantum_exponent (a : Q) : Z := Z.max (exponent (Qabs a)) (-1022) - 52.

(** The double nearest to [a] (IEEE 754 binary64, round to nearest, ties
    to even), without the overflow to an infinity. *)
Definition double (a : Q) : Q :=
  if Qeq_bool a 0 then 0%Q else to_multiple (quantum_exponent a) a.

(** The unit roundoff of a double, 2^-53. *)
Definition unit_roundoff : Q := Eval vm_compute in 1 # (2 ^ 53).

(** Half the least positive double, 2^-1075. *)
Definition half_least_double : Q := Eval vm_compute in 1 # (2 ^ 1075).

(** What the properties use of the rounding: it keeps the order, and it
    moves a real result by at most the unit roundoff times its size, or
    by half the least double next to 0. *)
Definition roundsToNearest (fl : Q -> Q) : Prop :=
  (forall a b : Q, a <= b -> fl a <= fl b)%Q
  /\ (forall a : Q,
        Qabs (fl a - a) <= unit_roundoff * Qabs a + half_least_double)%Q.

(** ** engine.ts: scoring *)

(** [calculateScore (position, totalPlayers, finishTime, matchLength)];
    the difference and the product of the time bonus are doubles. *)
Definition calculateScore (position totalPlayers : Z) (finishTime matchLength : Q) : Z :=
  let positionScore := Z.max 0 ((totalPlayers - position + 1) * 100) in
  let timeBonus :=
    Z.max 0 (Qfloor (double (double (matchLength - finishTime) * 10)%Q)) in
  positionScore + timeBonus.

(** ** engine.ts: physics *)

Local Open Scope Q_scope.

Module PHYSICS.
Definition FIXED_DT : Q := 1 / 60.
Definition LANE_WIDTH : Q := 50.
Definition MAX_LANES : Z := 5%Z.
Definition FORWARD_ACCEL : Q := 120.
Definition MAX_FORWARD_SPEED : Q := 400.
Definition LATERAL_SPEED : Q := 280.
Definition LATERAL_ACCEL : Q := 1200.
Definition LATERAL_FRICTION : Q := 800.
Definition JUMP_FORCE : Q := -250.
Definition JUMP_DURATION : Q := 0.5.
Definition GRAVITY : Q := 600.
Definition STUN_DURATION : Q := 0.4.
Definition COLLISION_PUSH : Q := 150.
Definition COLLISION_RADIUS : Q := 20.
Definition SPEED_BOOST_MULT : Q := 1.5.
Definition SPEED_BOOST_DURATION : Q := 3.
Definition SHIELD_DURATION : Q := 4.
Definition JUMP_BOOST_MULT : Q := 1.5.
Definition JUMP_BOOST_DURATION : Q := 5.
Definition LANDING_BOOST : Q := 30.
Definition SLIDE_WIDTH : Q := 250.
Definition FRICTION_DEFAULT : Q := 0.98.
End PHYSICS.

(** [Math.sqrt (s) < r], for [s >= 0] and [r > 0]. *)
Definition sqrt_lt (s r : Q) : bool := Qltb s (r * r).

Definition createPlayerState (id name : string) (lane : Z) (isBot : bool)
    (skinIndex : Z) (botProfile : option BotProfileType) : PlayerState :=
  mkPlayer id name
    (inject_Z lane * PHYSICS.LANE_WIDTH + PHYSICS.LANE_WIDTH / 2) 0 lane
    0 0 0 false 0 0 false 0 0 0 isBot botProfile skinIndex 0%Z false 0 0%Z.

(** The timer block at the head of [updatePlayerPhysics]. *)
Definition updateTimers (player : PlayerState) (dt : Q) : PlayerState :=
  let player :=
    if Qltb 0 (stunTimer player) then
      let player := set_stunTimer player (stunTimer player - dt) in
      if Qltb (stunTimer player) 0 then set_stunTimer player 0 else player
    else player in
  let player :=
    if Qltb 0 (shieldTimer player) then
      let player := set_shieldTimer player (shieldTimer player - dt) in
      if Qle_bool (shieldTimer player) 0
      then set_shieldTimer (set_hasShield player false) 0
      else player
    else player in
  let player :=
    if Qltb 0 (speedBoostTimer player) then
      let player := set_speedBoostTimer player (speedBoostTimer player - dt) in
      if Qltb (speedBoostTimer player) 0 then set_speedBoostTimer player 0 else player
    else player in
  if Qltb 0 (jumpBoostTimer player) then
    let player := set_jumpBoostTimer player (jumpBoostTimer player - dt) in
    if Qltb (jumpBoostTimer player) 0 then set_jumpBoostTimer player 0 else player
  else player.

(** What [updatePlayerPhysics] does to a player that is neither finished
    nor stunned, after the timers. *)
Definition movePlayer (player : PlayerState) (input : InputState)
    (segment : TrackSegment) (dt : Q) : PlayerState :=
  (* Forward acceleration (downhill) *)
  let slopeBoost := - slope segment * 50 in
  let speedMult :=
    if Qltb 0 (speedBoostTimer player) then PHYSICS.SPEED_BOOST_MULT else 1 in
  let player :=
    set_forwardSpeed player
      (forwardSpeed player + (PHYSICS.FORWARD_ACCEL + slopeBoost) * dt) in
  let player :=
    set_forwardSpeed player
      (Qmin (forwardSpeed player * speedMult) PHYSICS.MAX_FORWARD_SPEED) in
  let player := set_forwardSpeed player (forwardSpeed player * friction segment) in
  (* Lateral movement *)
  let targetLateral : Q :=
    (if left input then -1 else 0) + (if right input then 1 else 0) in
  let player :=
    if negb (Qeq_bool targetLateral 0) then
      let player :=
        set_lateralSpeed player
          (lateralSpeed player + targetLateral * PHYSICS.LATERAL_ACCEL * dt) in
      set_lateralSpeed player
        (Qmax (- PHYSICS.LATERAL_SPEED)
           (Qmin PHYSICS.LATERAL_SPEED (lateralSpeed player)))
    else if Qltb 0 (lateralSpeed player) then
      let player :=
        set_lateralSpeed player (lateralSpeed player - PHYSICS.LATERAL_FRICTION * dt) in
      if Qltb (lateralSpeed player) 0 then set_lateralSpeed player 0 else player
    else if Qltb (lateralSpeed player) 0 then
      let player :=
        set_lateralSpeed player (lateralSpeed player + PHYSICS.LATERAL_FRICTION * dt) in
      if Qltb 0 (lateralSpeed player) then set_lateralSpeed player 0 else player
    else player in
  (* Jump handling *)
  let player :=
    if jump input && negb (isJumping player) then
      set_jumpTimer (set_isJumping player true)
        (if Qltb 0 (jumpBoostTimer player)
         then PHYSICS.JUMP_DURATION * PHYSICS.JUMP_BOOST_MULT
         else PHYSICS.JUMP_DURATION)
    else player in
  let player :=
    if isJumping player then
      let player := set_jumpTimer player (jumpTimer player - dt) in
      if Qle_bool (jumpTimer player) 0 then
        let player := set_jumpTimer (set_isJumping player false) 0 in
        set_forwardSpeed player (forwardSpeed player + PHYSICS.LANDING_BOOST)
      else player
    else player in
  (* Update position *)
  let player := set_x player (x player + lateralSpeed player * dt) in
  let player :=
    set_distanceTraveled player (distanceTraveled player + forwardSpeed player * dt) in
  (* Clamp to slide bounds *)
  let halfWidth := inject_Z (lanes segment) * PHYSICS.LANE_WIDTH / 2 in
  let centerX := PHYSICS.SLIDE_WIDTH / 2 in
  let player :=
    set_x player
      (Qmax (centerX - halfWidth + 10) (Qmin (centerX + halfWidth - 10) (x player))) in
  (* Update lane based on position *)
  let player := set_lane player (Qfloor (x player / PHYSICS.LANE_WIDTH)) in
  set_lane player (Z.max 0 (Z.min (lanes segment - 1) (lane player))).

(** [updatePlayerPhysics (player, input, segment, dt)]: the player after
    one fixed timestep. *)
Definition updatePlayerPhysics (player : PlayerState) (input : InputState)
    (segment : TrackSegment) (dt : Q) : PlayerState :=
  if finished player then player
  else
    let player := updateTimers player dt in
    (* No movement while stunned *)
    if Qltb 0 (stunTimer player) then player
    else movePlayer player input segment dt.

(** [checkPlayerCollision (a, b)] *)
Definition checkPlayerCollision (a b : PlayerState) : bool :=
  if isJumping a || isJumping b then false
  else if finished a || finished b then false
  else
    let dx := x a - x b in
    let dy := distanceTraveled a - distanceTraveled b in
    sqrt_lt (dx * dx + dy * dy) (PHYSICS.COLLISION_RADIUS * 2).

(** [resolveCollision (a, b)]: both players afterwards. *)
Definition resolveCollision (a b : PlayerState) : PlayerState * PlayerState :=
  if hasShield a && hasShield b then (a, b)
  else
    let dx := x a - x b in
    let pushDir : Q := if Qltb 0 dx then 1 else -1 in
    let a' :=
      if negb (hasShield a) then
        set_stunTimer
          (set_lateralSpeed a (lateralSpeed a + pushDir * PHYSICS.COLLISION_PUSH))
          PHYSICS.STUN_DURATION
      else a in
    let b' :=
      if negb (hasShield b) then
        set_stunTimer
          (set_lateralSpeed b (lateralSpeed b - pushDir * PHYSICS.COLLISION_PUSH))
          PHYSICS.STUN_DURATION
      else b in
    (a', b').

(** [checkObstacleCollision (player, obstacleX, obstacleY, _type)] *)
Definition checkObstacleCollision (player : PlayerState) (obstacleX obstacleY : Q)
    (_type : ObstacleType) : bool :=
  if isJumping player then false
  else
    let dx := x player - obstacleX in
    let dy := distanceTraveled player - obstacleY in
    sqrt_lt (dx * dx + dy * dy) (PHYSICS.COLLISION_RADIUS * 1.5).

(** [applyObstacleEffect (player, type)] *)
Definition applyObstacleEffect (player : PlayerState) (type : ObstacleType) : PlayerState :=
  if hasShield player then player
  else
    match type with
    | barrel =>
        set_stunTimer (set_forwardSpeed player (forwardSpeed player * 0.5))
          (PHYSICS.STUN_DURATION * 1.5)
    | ring =>
        set_lateralSpeed (set_forwardSpeed player (forwardSpeed player * 0.7))
          (lateralSpeed player * -0.5)
    | bumper =>
        set_stunTimer
          (set_lateralSpeed player
             (lateralSpeed player
              + (if Qltb (PHYSICS.SLIDE_WIDTH / 2) (x player) then 1 else -1)
                * PHYSICS.COLLISION_PUSH * 1.5))
          PHYSICS.STUN_DURATION
    end.

(** [applyPowerup (player, type)] *)
Definition applyPowerup (player : PlayerState) (type : PowerupType) : PlayerState :=
  match type with
  | speed_boost => set_speedBoostTimer player PHYSICS.SPEED_BOOST_DURATION
  | shield => set_shieldTimer (set_hasShield player true) PHYSICS.SHIELD_DURATION
  | jump_boost => set_jumpBoostTimer player PHYSICS.JUMP_BOOST_DURATION
  end.

Local Close Scope Q_scope.

(** ** track.ts *)

Local Open Scope Q_scope.

Definition createSegment (type : option SegmentType) (length lanes : Z)
    (friction slope : Q) (obstacles : list ObstacleData)
    (powerups : list PowerupData) : TrackSegment :=
  mkSegment type length lanes obstacles powerups friction slope.

(** An obstacle or powerup literal of the classic track. *)
Definition obs (t : ObstacleType) (l : Z) (p : Q) : ObstacleData :=
  mkObstacle (Some t) l p None None.
Definition obs_moving_by (t : ObstacleType) (l : Z) (p : Q) (r : Z) : ObstacleData :=
  mkObstacle (Some t) l p (Some true) (Some r).
Definition pu (t : PowerupType) (l : Z) (p : Q) : PowerupData :=
  mkPowerup (Some t) l p.

(** [getClassicTrack ()] *)
Definition getClassicTrack : list TrackSegment :=
  [ createSegment (Some straight) 400 5 0.98 (-0.5)
      [obs barrel 1 0.5; obs barrel 3 0.7] [pu speed_boost 2 0.3];
    createSegment (Some curve_left) 300 5 0.97 (-0.6)
      [obs ring 0 0.4; obs_moving_by bumper 4 0.6 30] [];
    createSegment (Some ramp) 200 5 0.99 (-1.0) [] [pu jump_boost 2 0.5];
    createSegment (Some straight) 500 5 0.98 (-0.4)
      [obs barrel 0 0.2; obs barrel 2 0.3; obs barrel 4 0.4;
       obs_moving_by bumper 1 0.6 40; obs ring 3 0.8]
      [pu speed_boost 1 0.15; pu shield 3 0.5];
    createSegment (Some narrow) 200 3 0.96 (-0.7)
      [obs_moving_by bumper 1 0.5 20] [pu speed_boost 0 0.3];
    createSegment (Some curve_right) 350 5 0.97 (-0.5)
      [obs ring 2 0.3; obs barrel 4 0.5; obs barrel 0 0.7] [pu jump_boost 2 0.6];
    createSegment (Some ramp) 250 5 0.99 (-1.2) [] [pu speed_boost 2 0.4];
    createSegment (Some gap) 150 5 0.95 (-0.3) [obs ring 1 0.5; obs ring 3 0.5] [];
    createSegment (Some straight) 600 5 0.98 (-0.8)
      [obs_moving_by bumper 0 0.2 50; obs_moving_by bumper 4 0.3 50;
       obs barrel 2 0.5; obs ring 1 0.7; obs ring 3 0.7; obs barrel 2 0.85]
      [pu speed_boost 2 0.1; pu shield 0 0.6; pu speed_boost 4 0.9];
    createSegment (Some splitter) 300 5 0.97 (-0.6)
      [obs bumper 2 0.4] [pu speed_boost 0 0.5; pu speed_boost 4 0.5];
    createSegment (Some straight) 400 5 0.99 (-1.0)
      [obs barrel 1 0.3; obs barrel 3 0.3] [pu speed_boost 2 0.5] ].

(** [arr[i]] for an index that holds an integer: [undefined] out of range. *)
Definition index {A} (arr : list A) (i : Z) : option A :=
  if (i <? 0)%Z then None else nth_error arr (Z.to_nat i).

Definition length_Z {A} (arr : list A) : Z := Z.of_nat (List.length arr).

Section CreateTrack.

Local Open Scope rand_scope.

Variable mode : GameMode.

(** The body of [for (let i = 0; i < obsCount; i++) obstacles.push ({...})],
    run [n] times; the properties of the literal are drawn in the order
    they are written. *)
Fixpoint pushObstacles (n : nat) (lanes : Z) (obstacles : list ObstacleData)
    : Rng.Rand (list ObstacleData) :=
  match n with
  | O => Rng.ret obstacles
  | S n' =>
      ti <- Rng.nextInt 0 3 ;;
      lane <- Rng.nextInt 0 lanes ;;
      position <- Rng.nextFloat 0.1 0.9 ;;
      r <- Rng.next ;;
      let moving := if GameMode_eqb mode chaos then Qltb 0.5 r else Qltb 0.8 r in
      moveRange <- Rng.nextInt 20 50 ;;
      pushObstacles n' lanes
        (obstacles
         ++ [mkObstacle (index [barrel; ring; bumper] ti) lane position
               (Some moving) (Some moveRange)])
  end.

(** The body of [for (let i = 0; i < puCount; i++) powerups.push ({...})]. *)
Fixpoint pushPowerups (n : nat) (lanes : Z) (powerups : list PowerupData)
    : Rng.Rand (list PowerupData) :=
  match n with
  | O => Rng.ret powerups
  | S n' =>
      ti <- Rng.nextInt 0 3 ;;
      lane <- Rng.nextInt 0 lanes ;;
      position <- Rng.nextFloat 0.1 0.9 ;;
      pushPowerups n' lanes
        (powerups ++ [mkPowerup (index [speed_boost; shield; jump_boost] ti) lane position])
  end.

Definition segmentTypes : list SegmentType :=
  [straight; curve_left; curve_right; ramp; narrow; gap]
  ++ (if GameMode_eqb mode chaos then [splitter; gap; ramp] else []).

(** One turn of the [while] loop: the segment it pushes. *)
Definition generateSegment : Rng.Rand TrackSegment :=
  ti <- Rng.nextInt 0 (length_Z segmentTypes) ;;
  let type := index segmentTypes ti in
  length <- Rng.nextInt 150 500 ;;
  let lanes :=
    match type with Some narrow => 3%Z | _ => 5%Z end in
  friction <- Rng.nextFloat 0.95 0.99 ;;
  slope <- Rng.nextFloat (-1.2) (-0.3) ;;
  obsCount <- (if GameMode_eqb mode chaos then Rng.nextInt 2 6 else Rng.nextInt 0 4) ;;
  obstacles <- pushObstacles (Z.to_nat obsCount) lanes [] ;;
  puCount <- Rng.nextInt 0 3 ;;
  powerups <- pushPowerups (Z.to_nat puCount) lanes [] ;;
  Rng.ret (createSegment type length lanes friction slope obstacles powerups).

(** [while (currentLength < targetLength) { ... }], with a bound on the
    number of turns: [None] when the bound is reached with the loop still
    running. *)
Fixpoint generateLoop (fuel : nat) (targetLength : Q) (currentLength : Z)
    (segments : list TrackSegment) (g : Rng.SeededRNG)
    : option (list TrackSegment * Z * Rng.SeededRNG) :=
  if Qltb (inject_Z currentLength) targetLength then
    match fuel with
    | O => None
    | S fuel' =>
        let (seg, g') := generateSegment g in
        generateLoop fuel' targetLength (currentLength + seg_length seg)%Z
          (segments ++ [seg]) g'
    end
  else Some (segments, currentLength, g).

(** [createTrack (rng, mode, settings)]: the track and the generator
    afterwards. *)
Definition createTrack_fuel (fuel : nat) (rng : Rng.SeededRNG) (settings : GameSettings)
    : option (list TrackSegment * Rng.SeededRNG) :=
  let targetLength := matchLength settings * 80 in
  (* Always start with a straight *)
  let startSeg :=
    createSegment (Some straight) 300 5 0.98 (-0.5) [] [pu speed_boost 2 0.5] in
  match generateLoop fuel targetLength 300 [startSeg] rng with
  | None => None
  | Some (segments, _, g) =>
      (* End with a clear finish straight *)
      Some (segments ++ [createSegment (Some straight) 200 5 0.99 (-0.8) [] []], g)
  end.

(** The number of turns that is always enough: every turn adds at least
    150 to [currentLength]. *)
Definition turns (settings : GameSettings) : nat :=
  Z.to_nat (Qceiling (matchLength settings * 80) / 150 + 1).

Definition createTrack (rng : Rng.SeededRNG) (settings : GameSettings)
    : option (list TrackSegment * Rng.SeededRNG) :=
  createTrack_fuel (turns settings) rng settings.

End CreateTrack.

Definition totalLength (track : list TrackSegment) : Z :=
  fold_right (fun s acc => (seg_length s + acc)%Z) 0%Z track.

Local Close Scope Q_scope.

(** ** botProfiles.ts *)

Module Profiles.

Local Open Scope Q_scope.

Record BotProfile : Type := mk {
  type : BotProfileType;
  name : string;
  targetSpeedFactor : Q;
  boostSeekRange : Q;
  optimalLineWeight : Q;
  collisionAggression : Q;
  collisionAvoidance : Q;
  jumpFrequency : Q;
  jumpTimingPrecision : Q;
  riskTolerance : Q;
  obstacleAvoidRange : Q;
  steeringJitter : Q;
  reactionDelay : Z;
  mistakeChance : Q;
  adaptiveness : Q
}.

Definition set_targetSpeedFactor (p : BotProfile) (v : Q) : BotProfile :=
  mk (type p) (name p) v (boostSeekRange p) (optimalLineWeight p)
    (collisionAggression p) (collisionAvoidance p) (jumpFrequency p)
    (jumpTimingPrecision p) (riskTolerance p) (obstacleAvoidRange p)
    (steeringJitter p) (reactionDelay p) (mistakeChance p) (adaptiveness p).

Definition set_riskTolerance (p : BotProfile) (v : Q) : BotProfile :=
  mk (type p) (name p) (targetSpeedFactor p) (boostSeekRange p) (optimalLineWeight p)
    (collisionAggression p) (collisionAvoidance p) (jumpFrequency p)
    (jumpTimingPrecision p) v (obstacleAvoidRange p)
    (steeringJitter p) (reactionDelay p) (mistakeChance p) (adaptiveness p).

(** The objects of the table [BOT_PROFILES], by key.  The table is built
    once; a controller that reads [BOT_PROFILES[profileType]] holds the
    object itself, so the objects live in a store that the controllers
    share. *)
Definition Store : Type := BotProfileType -> BotProfile.

Definition BOT_PROFILES : Store :=
  fun k =>
    match k with
    | casual =>
        mk casual "Casual" 0.7 100 0.3 0.1 0.7 0.2 0.3 0.2 120 0.15 8 0.1 0.1
    | aggressive =>
        mk aggressive "Aggressive" 0.85 150 0.4 0.8 0.2 0.4 0.5 0.8 80 0.1 4 0.08 0.3
    | speedster =>
        mk speedster "Speedster" 0.95 200 0.8 0.2 0.5 0.3 0.8 0.5 150 0.05 2 0.04 0.2
    | trickster =>
        mk trickster "Trickster" 0.75 120 0.3 0.3 0.3 0.8 0.7 0.7 100 0.12 5 0.06 0.2
    | adaptive =>
        mk adaptive "Adaptive" 0.8 160 0.6 0.4 0.4 0.4 0.6 0.5 130 0.08 3 0.05 0.9
    end.

(** Assignment to the object under key [k]. *)
Definition write (s : Store) (k : BotProfileType) (p : BotProfile) : Store :=
  fun k' => if BotProfileType_eqb k k' then p else s k'.

End Profiles.

(** ** botProfiles.ts: createRandomProfile *)

Module RandomProfile.

Import Profiles.
Local Open Scope Q_scope.

(** [Object.values (BOT_PROFILES)]: the objects of the table, in the
    order of its keys. *)
Definition values (s : Store) : list BotProfile :=
  [s casual; s aggressive; s speedster; s trickster; s adaptive].

(** The closure [mix] of [createRandomProfile], for a member read by
    [key]; [None] is [undefined], an index outside the array. *)
Definition mix {A} (s : Store) (seed : Z) (key : BotProfile -> A) : option A :=
  let values := List.map key (values s) in
  let idx :=
    Qfloor (inject_Z (bit_and (seed * 1664525 + 1013904223) 0xFFFFFFFF)
            / inject_Z 0xFFFFFFFF * inject_Z (Z.of_nat (List.length values))) in
  nth_error values (Z.to_nat (Z.rem (Z.abs idx) (Z.of_nat (List.length values)))).

(** A profile object some of whose members may be [undefined]. *)
Record MixedProfile : Type := mkMixed {
  mixed_type : BotProfileType;
  mixed_name : string;
  mixed_targetSpeedFactor : option Q;
  mixed_boostSeekRange : option Q;
  mixed_optimalLineWeight : option Q;
  mixed_collisionAggression : option Q;
  mixed_collisionAvoidance : option Q;
  mixed_jumpFrequency : option Q;
  mixed_jumpTimingPrecision : option Q;
  mixed_riskTolerance : option Q;
  mixed_obstacleAvoidRange : option Q;
  mixed_steeringJitter : option Q;
  mixed_reactionDelay : option Z;
  mixed_mistakeChance : option Q;
  mixed_adaptiveness : option Q
}.

(** [createRandomProfile (seed)] *)
Definition createRandomProfile (s : Store) (seed : Z) : MixedProfile :=
  mkMixed adaptive "Random"
    (mix s seed targetSpeedFactor)
    (mix s seed boostSeekRange)
    (mix s seed optimalLineWeight)
    (mix s seed collisionAggression)
    (mix s seed collisionAvoidance)
    (mix s seed jumpFrequency)
    (mix s seed jumpTimingPrecision)
    (mix s seed riskTolerance)
    (mix s seed obstacleAvoidRange)
    (mix s seed steeringJitter)
    (mix s seed reactionDelay)
    (mix s seed mistakeChance)
    (mix s seed adaptiveness).

(** A profile object all of whose members are defined. *)
Definition defined (p : BotProfile) : MixedProfile :=
  mkMixed (type p) (name p)
    (Some (targetSpeedFactor p)) (Some (boostSeekRange p)) (Some (optimalLineWeight p))
    (Some (collisionAggression p)) (Some (collisionAvoidance p)) (Some (jumpFrequency p))
    (Some (jumpTimingPrecision p)) (Some (riskTolerance p)) (Some (obstacleAvoidRange p))
    (Some (steeringJitter p)) (Some (reactionDelay p)) (Some (mistakeChance p))
    (Some (adaptiveness p)).

End RandomProfile.

(** ** botController.ts *)

Module BotController.

Import Profiles.
Local Open Scope Q_scope.
Local Open Scope rand_scope.

Inductive BotState : Type := race | avoidObstacle | chase | usePowerup | recover.

Definition BotState_eqb (a b : BotState) : bool :=
  match a, b with
  | race, race | avoidObstacle, avoidObstacle | chase, chase
  | usePowerup, usePowerup | recover, recover => true
  | _, _ => false
  end.

(** The fields of a controller; [profile] is the key of the profile
    object it holds. *)
Record t : Type := mkController {
  profile : BotProfileType;
  state : BotState;
  stateTimer : Z;
  reactionBuffer : list InputState;
  targetLane : Z;
  frameCount : Z
}.

Definition set_state (c : t) (s : BotState) (timer : Z) : t :=
  mkController (profile c) s timer (reactionBuffer c) (targetLane c) (frameCount c).

Definition neutral : InputState := mkInput false false false.

(** [new BotController (profileType, _rng)] *)
Definition new (s : Store) (profileType : BotProfileType) : t :=
  mkController profileType race 0
    (repeat neutral (Z.to_nat (reactionDelay (s profileType)))) 2 0.

(** [Infinity] and [-Infinity] as the start of a running minimum or
    maximum: no value yet. *)
Definition gt_best (s : Q) (best : option Q) : bool :=
  match best with None => true | Some b => Qltb b s end.
Definition lt_min (d : Q) (minimum : option Q) : bool :=
  match minimum with None => true | Some m => Qltb d m end.

(** The body of the [for] loop of [scoreLanes], for the lanes from [i]
    on, [n] of them. *)
Fixpoint laneScores (p : BotProfile) (segment : TrackSegment) (n : nat) (i : Z)
    (scores : list Q) : Rng.Rand (list Q) :=
  match n with
  | O => Rng.ret scores
  | S n' =>
      let lanes := lanes segment in
      let score := 0 in
      (* Center lane bias (optimal line) *)
      let centerDist := Z.abs (i - lanes / 2) in
      let score :=
        score + inject_Z (lanes - centerDist) * optimalLineWeight p * 10 in
      (* Obstacle avoidance *)
      let score :=
        fold_left
          (fun score obs =>
             if (obs_lane obs =? i)%Z then score - 20 * collisionAvoidance p else score)
          (obstacles segment) score in
      (* Powerup seeking *)
      let score :=
        fold_left
          (fun score pu =>
             if (pu_lane pu =? i)%Z then score + 15 * boostSeekRange p / 200 else score)
          (powerups segment) score in
      (* Random variation *)
      r <- Rng.nextFloat (-5) 5 ;;
      laneScores p segment n' (i + 1)%Z (scores ++ [score + r])
  end.

(** [scores.forEach ((s, i) => { if (s > bestScore) ... })] from index [i]. *)
Fixpoint bestOf (scores : list Q) (i : Z) (bestLane : Z) (bestScore : option Q) : Z :=
  match scores with
  | [] => bestLane
  | s :: rest =>
      if gt_best s bestScore then bestOf rest (i + 1)%Z i (Some s)
      else bestOf rest (i + 1)%Z bestLane bestScore
  end.

Definition scoreLanes (p : BotProfile) (bot : PlayerState) (segment : TrackSegment)
    : Rng.Rand Z :=
  scores <- laneScores p segment (Z.to_nat (lanes segment)) 0%Z [] ;;
  Rng.ret (bestOf scores 0%Z 0%Z None).

(** [arr[i] += v] inside the array. *)
Fixpoint addAt (arr : list Q) (i : nat) (v : Q) : list Q :=
  match arr, i with
  | [], _ => []
  | d :: rest, O => (d + v) :: rest
  | d :: rest, S i' => d :: addAt rest i' v
  end.

Fixpoint safestOf (danger : list Q) (i : Z) (safestLane : Z) (minDanger : option Q) : Z :=
  match danger with
  | [] => safestLane
  | d :: rest =>
      if lt_min d minDanger then safestOf rest (i + 1)%Z i (Some d)
      else safestOf rest (i + 1)%Z safestLane minDanger
  end.

Definition findSafestLane (bot : PlayerState) (segment : TrackSegment) : Z :=
  let lanes := lanes segment in
  let dangerPerLane := repeat (0 : Q) (Z.to_nat lanes) in
  let dangerPerLane :=
    fold_left
      (fun danger obs =>
         if ((0 <=? obs_lane obs) && (obs_lane obs <? lanes))%Z
         then addAt danger (Z.to_nat (obs_lane obs)) 10
         else danger)
      (obstacles segment) dangerPerLane in
  safestOf dangerPerLane 0%Z (lane bot) None.

Definition raceInput (c : t) (p : BotProfile) (bot : PlayerState)
    (segment : TrackSegment) : Rng.Rand (InputState * t) :=
  (* Lane scoring: evaluate each lane *)
  best <- scoreLanes p bot segment ;;
  let c :=
    mkController (profile c) (state c) (stateTimer c) (reactionBuffer c) best
      (frameCount c) in
  (* Steer toward target lane *)
  let targetX := inject_Z (targetLane c) * PHYSICS.LANE_WIDTH + PHYSICS.LANE_WIDTH / 2 in
  let diff := targetX - x bot in
  let threshold := 10 in
  let left := Qltb diff (- threshold) in
  let right := negb left && Qltb threshold diff in
  (* Jump decisions *)
  onRamp <-
    (match seg_type segment with
     | Some ramp => r <- Rng.next ;; Rng.ret (Qltb r (jumpTimingPrecision p))
     | _ => Rng.ret false
     end) ;;
  jump <-
    (if onRamp : bool then Rng.ret true
     else r <- Rng.next ;; Rng.ret (Qltb r (jumpFrequency p / 120))) ;;
  Rng.ret (mkInput left right jump, c).

Definition avoidObstacleInput (p : BotProfile) (bot : PlayerState)
    (segment : TrackSegment) : Rng.Rand InputState :=
  (* Move to the lane with fewest obstacles *)
  let safeLane := findSafestLane bot segment in
  let targetX := inject_Z safeLane * PHYSICS.LANE_WIDTH + PHYSICS.LANE_WIDTH / 2 in
  let diff := targetX - x bot in
  let left := Qltb diff (-5) in
  let right := negb left && Qltb 5 diff in
  (* Jump over obstacle if close and risky enough *)
  r <- Rng.next ;;
  Rng.ret (mkInput left right (Qltb r (riskTolerance p * 0.5))).

(** [Array.prototype.sort] with the comparator [(a, b) => key a - key b]:
    a stable sort by [key]. *)
Fixpoint insertBy {A} (key : A -> Q) (a : A) (sorted : list A) : list A :=
  match sorted with
  | [] => [a]
  | b :: rest =>
      if Qltb (key a) (key b) then a :: b :: rest else b :: insertBy key a rest
  end.

Definition sortBy {A} (key : A -> Q) (arr : list A) : list A :=
  fold_left (fun sorted a => insertBy key a sorted) arr [].

Definition chaseInput (p : BotProfile) (bot : PlayerState)
    (allPlayers : list PlayerState) : Rng.Rand InputState :=
  (* Find closest non-finished player *)
  let targets :=
    sortBy
      (fun a =>
         Qabs (distanceTraveled a - distanceTraveled bot) + Qabs (x a - x bot))
      (filter (fun p => negb (String.eqb (id p) (id bot)) && negb (finished p))
         allPlayers) in
  let '(left, right) :=
    match targets with
    | target :: _ =>
        let dx := x target - x bot in
        (* Steer toward target for collision *)
        if Qltb 0.5 (collisionAggression p) then
          (Qltb dx (-5), negb (Qltb dx (-5)) && Qltb 5 dx)
        else
          (* Avoid collision *)
          (negb (Qltb dx (-5)) && Qltb 5 dx, Qltb dx (-5))
    | [] => (false, false)
    end in
  (* Random jump during chase *)
  r <- Rng.next ;;
  Rng.ret (mkInput left right (Qltb r 0.02)).

Definition powerupInput (bot : PlayerState) : Rng.Rand InputState :=
  (* When having jump boost, use it *)
  jump <-
    (if Qltb 0 (jumpBoostTimer bot)
     then r <- Rng.next ;; Rng.ret (Qltb r 0.05)
     else Rng.ret false) ;;
  (* Speed boost - stay in center lane *)
  let centerX := PHYSICS.SLIDE_WIDTH / 2 in
  let right := Qltb 0 (speedBoostTimer bot) && Qltb (x bot) (centerX - 10) in
  let left :=
    Qltb 0 (speedBoostTimer bot) && negb (Qltb (x bot) (centerX - 10))
    && Qltb (centerX + 10) (x bot) in
  Rng.ret (mkInput left right jump).

Definition generateInput (s : Store) (c : t) (bot : PlayerState)
    (allPlayers : list PlayerState) (segment : TrackSegment)
    : Rng.Rand (InputState * t) :=
  match state c with
  | race => raceInput c (s (profile c)) bot segment
  | avoidObstacle =>
      i <- avoidObstacleInput (s (profile c)) bot segment ;; Rng.ret (i, c)
  | chase => i <- chaseInput (s (profile c)) bot allPlayers ;; Rng.ret (i, c)
  | usePowerup => i <- powerupInput bot ;; Rng.ret (i, c)
  | recover => Rng.ret (neutral, c) (* Do nothing while stunned *)
  end.

(** The adaptive adjustment of [updateState]: two assignments to fields
    of the profile object the controller holds. *)
Definition adapt (s : Store) (c : t) (bot : PlayerState)
    (allPlayers : list PlayerState) : Store :=
  if Qltb 0.5 (adaptiveness (s (profile c))) then
    match find (fun p => negb (isBot p)) allPlayers with
    | Some humanPlayer =>
        if Qltb (distanceTraveled bot + 100) (distanceTraveled humanPlayer) then
          (* Behind the player - become more aggressive *)
          let s :=
            write s (profile c)
              (set_targetSpeedFactor (s (profile c))
                 (Qmin 1 (targetSpeedFactor (s (profile c)) + 0.1))) in
          write s (profile c)
            (set_riskTolerance (s (profile c))
               (Qmin 1 (riskTolerance (s (profile c)) + 0.1)))
        else s
    | None => s
    end
  else s.

Definition updateState (s : Store) (c : t) (bot : PlayerState)
    (allPlayers : list PlayerState) (_segment : TrackSegment)
    : Rng.Rand (t * Store) :=
  (* Recovery from stun *)
  if Qltb 0 (stunTimer bot) then Rng.ret (set_state c recover 0, s)
  else
    (* Check for nearby players to chase/avoid *)
    let nearbyPlayers :=
      filter
        (fun p =>
           negb (String.eqb (id p) (id bot)) && negb (finished p)
           && Qltb (Qabs (distanceTraveled p - distanceTraveled bot)) 100
           && Qltb (Qabs (x p - x bot)) PHYSICS.SLIDE_WIDTH)
        allPlayers in
    (* Adaptive behavior adjustment *)
    let s := adapt s c bot allPlayers in
    (* State transitions *)
    let c :=
      if BotState_eqb (state c) recover && Qle_bool (stunTimer bot) 0
      then set_state c race 0 else c in
    attack <-
      (if (0 <? length_Z nearbyPlayers)%Z
       then r <- Rng.next ;; Rng.ret (Qltb r (collisionAggression (s (profile c))))
       else Rng.ret false) ;;
    let c :=
      if attack : bool then set_state c chase 0
      else if BotState_eqb (state c) chase
              && ((length_Z nearbyPlayers =? 0)%Z || (120 <? stateTimer c)%Z)
      then set_state c race 0
      else c in
    (* Check for powerup use *)
    use <-
      (if Qltb 0 (speedBoostTimer bot) || hasShield bot || Qltb 0 (jumpBoostTimer bot)
       then r <- Rng.next ;; Rng.ret (Qltb r 0.1)
       else Rng.ret false) ;;
    let c := if use : bool then set_state c usePowerup 0 else c in
    (* Default back to racing *)
    let c := if (180 <? stateTimer c)%Z then set_state c race 0 else c in
    Rng.ret (c, s).

(** The steering jitter and the random mistakes that [update] applies to
    the input taken from the reaction buffer. *)
Definition humanize (p : BotProfile) (delayedInput : InputState)
    : Rng.Rand InputState :=
  (* Add steering jitter for human-like imprecision *)
  r <- Rng.next ;;
  delayedInput <-
    (if Qltb r (steeringJitter p) then
       r' <- Rng.next ;;
       if Qltb 0.5 r'
       then Rng.ret (mkInput (negb (left delayedInput)) (right delayedInput)
                       (jump delayedInput))
       else Rng.ret (mkInput (left delayedInput) (negb (right delayedInput))
                       (jump delayedInput))
     else Rng.ret delayedInput) ;;
  (* Random mistakes *)
  r <- Rng.next ;;
  if Qltb r (mistakeChance p / 60) then
    r' <- Rng.next ;;
    Rng.ret (mkInput (Qltb 0.5 r') (negb (Qltb 0.5 r')) (jump delayedInput))
  else Rng.ret delayedInput.

(** [update (bot, allPlayers, segment, rng)]: the input for this frame,
    the controller and the profile store afterwards. *)
Definition update (s : Store) (c : t) (bot : PlayerState)
    (allPlayers : list PlayerState) (segment : TrackSegment)
    : Rng.Rand (InputState * t * Store) :=
  let c :=
    mkController (profile c) (state c) (stateTimer c + 1) (reactionBuffer c)
      (targetLane c) (frameCount c + 1) in
  (* Update FSM state *)
  '(c, s) <- updateState s c bot allPlayers segment ;;
  (* Generate raw input based on current state *)
  '(rawInput, c) <- generateInput s c bot allPlayers segment ;;
  (* Add to reaction buffer (simulates reaction delay) *)
  match reactionBuffer c ++ [rawInput] with
  | [] => Rng.ret (rawInput, c, s)
  | delayedInput :: rest =>
      let c :=
        mkController (profile c) (state c) (stateTimer c) rest (targetLane c)
          (frameCount c) in
      out <- humanize (s (profile c)) delayedInput ;;
      Rng.ret (out, c, s)
  end.

Definition getState (c : t) : BotState := state c.

(** [getProfile ()]: a copy of the profile object as it is now. *)
Definition getProfile (s : Store) (c : t) : BotProfile := s (profile c).

End BotController.

(** ** The JavaScript values and built-ins the replay codec runs on *)

(** A string is its sequence of UTF-16 code units. *)
Definition jsstring : Type := list N.

Definition lit (s : string) : jsstring :=
  List.map N_of_ascii (list_ascii_of_string s).

Fixpoint jsstring_eqb (a b : jsstring) : bool :=
  match a, b with
  | [], [] => true
  | c :: a', d :: b' => (c =? d)%N && jsstring_eqb a' b'
  | _, _ => false
  end.

(** A call either returns or throws; [catch] never looks at what was
    thrown, so an exception carries nothing. *)
Inductive result (A : Type) : Type :=
| Ok (a : A)
| Throw.
Arguments Ok {A} a.
Arguments Throw {A}.

Definition and_then {A B} (r : result A) (k : A -> result B) : result B :=
  match r with Ok a => k a | Throw => Throw end.

Declare Scope js_scope.
Delimit Scope js_scope with js.
Notation "x <~ r ;; k" := (and_then r (fun x => k))
  (at level 61, r at next level, right associativity) : js_scope.
Notation "' ( x , y ) <~ r ;; k" := (and_then r (fun '(x, y) => k))
  (at level 61, r at next level, right associativity) : js_scope.

(** [try { body } catch { handler }] *)
Definition try_catch {A} (body : result A) (handler : result A) : result A :=
  match body with Ok a => Ok a | Throw => handler end.

#[warnings="-register-all"]
Inductive value : Type :=
| VUndefined
| VNull
| VBool (b : bool)
| VNum (q : Q)
| VStr (s : jsstring)
| VArr (elements : list value)
| VObj (members : list (jsstring * value)).

Module Base64.

Local Open Scope N_scope.

(** The character of a 6-bit value in the alphabet [A-Za-z0-9+/]. *)
Definition char_of (n : N) : N :=
  if n <? 26 then 65 + n
  else if n <? 52 then 97 + (n - 26)
  else if n <? 62 then 48 + (n - 52)
  else if n =? 62 then 43
  else 47.

Definition value_of (c : N) : option N :=
  if (65 <=? c) && (c <=? 90) then Some (c - 65)
  else if (97 <=? c) && (c <=? 122) then Some (c - 97 + 26)
  else if (48 <=? c) && (c <=? 57) then Some (c - 48 + 52)
  else if c =? 43 then Some 62
  else if c =? 47 then Some 63
  else None.

(** The 6-bit values of a sequence of bytes, three bytes at a time; one or
    two bytes left over give two or three values. *)
Fixpoint sextets (bytes : list N) : list N :=
  match bytes with
  | a :: b :: c :: rest =>
      let n := a * 65536 + b * 256 + c in
      n / 262144 :: (n / 4096) mod 64 :: (n / 64) mod 64 :: n mod 64 :: sextets rest
  | [a; b] =>
      let n := a * 65536 + b * 256 in
      [n / 262144; (n / 4096) mod 64; (n / 64) mod 64]
  | [a] =>
      let n := a * 65536 in
      [n / 262144; (n / 4096) mod 64]
  | [] => []
  end.

Definition padding (bytes : list N) : list N :=
  let r := N.of_nat (List.length bytes) mod 3 in
  if r =? 1 then [61; 61] else if r =? 2 then [61] else [].

(** [btoa (data)]: throws when a code unit is above 255. *)
Definition btoa (data : jsstring) : result jsstring :=
  if forallb (fun c => c <=? 255) data
  then Ok (List.map char_of (sextets data) ++ padding data)
  else Throw.

Definition is_ascii_whitespace (c : N) : bool :=
  (c =? 9) || (c =? 10) || (c =? 12) || (c =? 13) || (c =? 32).

(** One or two [=] at the end are removed. *)
Definition strip_padding (data : list N) : list N :=
  match rev data with
  | c1 :: c2 :: r =>
      if c1 =? 61 then (if c2 =? 61 then rev r else rev (c2 :: r)) else data
  | [c1] => if c1 =? 61 then [] else data
  | [] => data
  end.

Fixpoint values_of (data : list N) : option (list N) :=
  match data with
  | [] => Some []
  | c :: rest =>
      match value_of c, values_of rest with
      | Some v, Some vs => Some (v :: vs)
      | _, _ => None
      end
  end.

(** The bytes of a sequence of 6-bit values, four values at a time; of
    the 12 or 18 bits left over the last 4 or 2 are dropped. *)
Fixpoint bytes (vs : list N) : list N :=
  match vs with
  | a :: b :: c :: d :: rest =>
      let n := ((a * 64 + b) * 64 + c) * 64 + d in
      n / 65536 :: (n / 256) mod 256 :: n mod 256 :: bytes rest
  | [a; b; c] =>
      let n := ((a * 64 + b) * 64 + c) / 4 in
      [n / 256; n mod 256]
  | [a; b] =>
      let n := (a * 64 + b) / 16 in
      [n]
  | _ => []
  end.

(** [atob (data)]: the forgiving-base64 decode of the HTML standard. *)
Definition atob (data : jsstring) : result jsstring :=
  let data := filter (fun c => negb (is_ascii_whitespace c)) data in
  let data :=
    if N.of_nat (List.length data) mod 4 =? 0 then strip_padding data else data in
  if N.of_nat (List.length data) mod 4 =? 1 then Throw
  else
    match values_of data with
    | Some vs => Ok (bytes vs)
    | None => Throw
    end.

End Base64.

Module JSON.

Local Open Scope N_scope.
Local Open Scope js_scope.

(** *** JSON.stringify, for the values the codec gives it *)

Fixpoint chars_of_uint (u : Decimal.uint) : jsstring :=
  match u with
  | Decimal.Nil => []
  | Decimal.D0 u => 48 :: chars_of_uint u
  | Decimal.D1 u => 49 :: chars_of_uint u
  | Decimal.D2 u => 50 :: chars_of_uint u
  | Decimal.D3 u => 51 :: chars_of_uint u
  | Decimal.D4 u => 52 :: chars_of_uint u
  | Decimal.D5 u => 53 :: chars_of_uint u
  | Decimal.D6 u => 54 :: chars_of_uint u
  | Decimal.D7 u => 55 :: chars_of_uint u
  | Decimal.D8 u => 56 :: chars_of_uint u
  | Decimal.D9 u => 57 :: chars_of_uint u
  end.

(** A number that holds an integer is written in decimal digits (the
    exponent form of magnitudes from 10^21 on is not modelled). *)
Definition stringify_number (z : Z) : jsstring :=
  match Z.to_int z with
  | Decimal.Pos u => chars_of_uint u
  | Decimal.Neg u => 45 :: chars_of_uint u
  end.

Definition hex_digit (n : N) : N := if n <? 10 then 48 + n else 97 + (n - 10).

(** [QuoteJSONString], for strings without lone surrogates. *)
Fixpoint quote_chars (s : jsstring) : jsstring :=
  match s with
  | [] => []
  | c :: rest =>
      (if c =? 34 then [92; 34]
       else if c =? 92 then [92; 92]
       else if c =? 8 then [92; 98]
       else if c =? 12 then [92; 102]
       else if c =? 10 then [92; 110]
       else if c =? 13 then [92; 114]
       else if c =? 9 then [92; 116]
       else if c <? 32 then [92; 117; 48; 48; hex_digit (c / 16); hex_digit (c mod 16)]
       else [c])
      ++ quote_chars rest
  end.

Definition stringify_string (s : jsstring) : jsstring :=
  34 :: quote_chars s ++ [34].

Fixpoint join (sep : N) (parts : list jsstring) : jsstring :=
  match parts with
  | [] => []
  | [p] => p
  | p :: rest => p ++ sep :: join sep rest
  end.

(** An array, from the texts of its elements. *)
Definition stringify_array (elements : list jsstring) : jsstring :=
  91 :: join 44 elements ++ [93].

(** An object, from its keys and the texts of their values, in the order
    of the object literal. *)
Definition stringify_object (members : list (jsstring * jsstring)) : jsstring :=
  123 :: join 44 (List.map (fun kv => stringify_string (fst kv) ++ 58 :: snd kv) members)
      ++ [125].

(** *** JSON.parse *)

Definition is_whitespace (c : N) : bool :=
  (c =? 9) || (c =? 10) || (c =? 13) || (c =? 32).

Fixpoint skip_ws (s : jsstring) : jsstring :=
  match s with
  | c :: rest => if is_whitespace c then skip_ws rest else s
  | [] => []
  end.

Definition is_digit (c : N) : bool := (48 <=? c) && (c <=? 57).

Definition digit_cons (c : N) (u : Decimal.uint) : Decimal.uint :=
  match c - 48 with
  | 0 => Decimal.D0 u
  | 1 => Decimal.D1 u
  | 2 => Decimal.D2 u
  | 3 => Decimal.D3 u
  | 4 => Decimal.D4 u
  | 5 => Decimal.D5 u
  | 6 => Decimal.D6 u
  | 7 => Decimal.D7 u
  | 8 => Decimal.D8 u
  | _ => Decimal.D9 u
  end.

(** The longest run of digits at the head of [s], and what follows it. *)
Fixpoint take_digits (s : jsstring) : Decimal.uint * jsstring :=
  match s with
  | c :: rest =>
      if is_digit c
      then let (u, rest') := take_digits rest in (digit_cons c u, rest')
      else (Decimal.Nil, s)
  | [] => (Decimal.Nil, [])
  end.

(** [. digits], if there is a point: the digits. *)
Definition parse_fraction (s : jsstring) : result (option Decimal.uint * jsstring) :=
  match s with
  | c :: rest =>
      if c =? 46 then
        match take_digits rest with
        | (Decimal.Nil, _) => Throw
        | (u, rest') => Ok (Some u, rest')
        end
      else Ok (None, s)
  | [] => Ok (None, s)
  end.

(** A minus sign at the head of [s] (or a plus sign, where one is
    allowed): whether there is a minus, and what follows the sign. *)
Definition take_sign (plus_allowed : bool) (s : jsstring) : bool * jsstring :=
  match s with
  | c :: rest =>
      if c =? 45 then (true, rest)
      else if plus_allowed && (c =? 43) then (false, rest)
      else (false, s)
  | [] => (false, s)
  end.

(** [e sign digits], if there is an [e] or [E]: the exponent. *)
Definition parse_exponent (s : jsstring) : result (option Z * jsstring) :=
  match s with
  | c :: rest =>
      if (c =? 101) || (c =? 69) then
        let '(negative, rest) := take_sign true rest in
        match take_digits rest with
        | (Decimal.Nil, _) => Throw
        | (u, rest') =>
            Ok (Some (if negative then - Z.of_uint u else Z.of_uint u)%Z, rest')
        end
      else Ok (None, s)
  | [] => Ok (None, s)
  end.

Definition parse_number (s : jsstring) : result (Q * jsstring) :=
  let '(negative, s) := take_sign false s in
  let '(int, s) := take_digits s in
  match int with
  | Decimal.Nil => Throw
  | Decimal.D0 (Decimal.D0 _ | Decimal.D1 _ | Decimal.D2 _ | Decimal.D3 _
               | Decimal.D4 _ | Decimal.D5 _ | Decimal.D6 _ | Decimal.D7 _
               | Decimal.D8 _ | Decimal.D9 _) => Throw
  | _ =>
      '(fraction, s) <~ parse_fraction s ;;
      '(exponent, s) <~ parse_exponent s ;;
      let sign (z : Z) : Z := if negative : bool then (- z)%Z else z in
      match fraction, exponent with
      | None, None => Ok (inject_Z (sign (Z.of_uint int)), s)
      | _, _ =>
          let digits := match fraction with Some u => u | None => Decimal.Nil end in
          let mantissa := Z.of_uint (Decimal.app int digits) in
          let e := match exponent with Some e => e | None => 0%Z end in
          Ok (Qred (inject_Z (sign mantissa)
                    * Qpower 10 (e - Z.of_nat (Decimal.nb_digits digits)))%Q, s)
      end
  end.

Definition hex_value (c : N) : option N :=
  if is_digit c then Some (c - 48)
  else if (97 <=? c) && (c <=? 102) then Some (c - 87)
  else if (65 <=? c) && (c <=? 70) then Some (c - 55)
  else None.

(** The characters of a string, after its opening quote. *)
Fixpoint parse_chars (s : jsstring) : result (jsstring * jsstring) :=
  match s with
  | [] => Throw
  | c :: rest =>
      if c =? 34 then Ok ([], rest)
      else if c =? 92 then
        match rest with
        | e :: rest' =>
            if e =? 117 then
              match rest' with
              | h1 :: h2 :: h3 :: h4 :: rest4 =>
                  match hex_value h1, hex_value h2, hex_value h3, hex_value h4 with
                  | Some a, Some b, Some c, Some d =>
                      '(str, rest5) <~ parse_chars rest4 ;;
                      Ok (((a * 16 + b) * 16 + c) * 16 + d :: str, rest5)
                  | _, _, _, _ => Throw
                  end
              | _ => Throw
              end
            else
            let unescaped :=
              if (e =? 34) || (e =? 92) || (e =? 47) then Some e
              else if e =? 98 then Some 8
              else if e =? 102 then Some 12
              else if e =? 110 then Some 10
              else if e =? 114 then Some 13
              else if e =? 116 then Some 9
              else None in
            match unescaped with
            | Some u => '(str, rest'') <~ parse_chars rest' ;; Ok (u :: str, rest'')
            | None => Throw
            end
        | [] => Throw
        end
      else if c <? 32 then Throw
      else '(str, rest') <~ parse_chars rest ;; Ok (c :: str, rest')
  end.

(** [s] without the prefix [word], if it starts with it. *)
Fixpoint expect (word s : jsstring) : option jsstring :=
  match word, s with
  | [], _ => Some s
  | w :: word', c :: s' => if w =? c then expect word' s' else None
  | _ :: _, [] => None
  end.

Section Composite.

(** The parser of values, one level further down. *)
Variable parse_value : jsstring -> result (value * jsstring).

(** The elements of an array after the first, up to the closing
    bracket; [n] bounds their number. *)
Fixpoint parse_elements (n : nat) (s : jsstring) : result (list value * jsstring) :=
  match n with
  | O => Throw
  | S n' =>
      match skip_ws s with
      | c :: rest =>
          if c =? 93 then Ok ([], rest)
          else if c =? 44 then
            '(v, rest') <~ parse_value rest ;;
            '(vs, rest'') <~ parse_elements n' rest' ;;
            Ok (v :: vs, rest'')
          else Throw
      | [] => Throw
      end
  end.

Definition parse_array (n : nat) (s : jsstring) : result (value * jsstring) :=
  match skip_ws s with
  | c :: rest =>
      if c =? 93 then Ok (VArr [], rest)
      else
        '(v, rest') <~ parse_value s ;;
        '(vs, rest'') <~ parse_elements n rest' ;;
        Ok (VArr (v :: vs), rest'')
  | [] => Throw
  end.

(** [key : value], from the quote of the key on. *)
Definition parse_member (s : jsstring) : result (jsstring * value * jsstring) :=
  match skip_ws s with
  | c :: rest =>
      if c =? 34 then
        '(key, rest') <~ parse_chars rest ;;
        match skip_ws rest' with
        | c' :: rest'' =>
            if c' =? 58 then
              '(v, rest''') <~ parse_value rest'' ;; Ok (key, v, rest''')
            else Throw
        | [] => Throw
        end
      else Throw
  | [] => Throw
  end.

(** The members of an object after the first, up to the closing brace. *)
Fixpoint parse_members (n : nat) (s : jsstring)
    : result (list (jsstring * value) * jsstring) :=
  match n with
  | O => Throw
  | S n' =>
      match skip_ws s with
      | c :: rest =>
          if c =? 125 then Ok ([], rest)
          else if c =? 44 then
            '(kv, rest') <~ parse_member rest ;;
            '(kvs, rest'') <~ parse_members n' rest' ;;
            Ok (kv :: kvs, rest'')
          else Throw
      | [] => Throw
      end
  end.

Definition parse_object (n : nat) (s : jsstring) : result (value * jsstring) :=
  match skip_ws s with
  | c :: rest =>
      if c =? 125 then Ok (VObj [], rest)
      else
        '(kv, rest') <~ parse_member s ;;
        '(kvs, rest'') <~ parse_members n rest' ;;
        Ok (VObj (kv :: kvs), rest'')
  | [] => Throw
  end.

End Composite.

(** A value at the head of [s]; [depth] bounds the nesting and the number
    of elements of one array or object, and running out of it throws (as
    running out of stack does). *)
Fixpoint parse_value (depth : nat) (s : jsstring) : result (value * jsstring) :=
  match depth with
  | O => Throw
  | S depth' =>
      match skip_ws s with
      | [] => Throw
      | c :: rest =>
          if c =? 123 then parse_object (parse_value depth') depth' rest
          else if c =? 91 then parse_array (parse_value depth') depth' rest
          else if c =? 34 then
            '(str, rest') <~ parse_chars rest ;; Ok (VStr str, rest')
          else if c =? 116 then
            match expect (lit "rue") rest with
            | Some rest' => Ok (VBool true, rest')
            | None => Throw
            end
          else if c =? 102 then
            match expect (lit "alse") rest with
            | Some rest' => Ok (VBool false, rest')
            | None => Throw
            end
          else if c =? 110 then
            match expect (lit "ull") rest with
            | Some rest' => Ok (VNull, rest')
            | None => Throw
            end
          else
            '(q, rest') <~ parse_number (c :: rest) ;; Ok (VNum q, rest')
      end
  end.

(** [JSON.parse (text)] *)
Definition parse (text : jsstring) : result value :=
  '(v, rest) <~ parse_value (S (List.length text)) text ;;
  match skip_ws rest with
  | [] => Ok v
  | _ :: _ => Throw
  end.

End JSON.

(** ** replayCodec.ts *)

Module ReplayCodec.

Local Open Scope js_scope.

(** The string of a [GameMode]. *)
Definition mode_string (m : GameMode) : jsstring :=
  match m with
  | classic => lit "classic"
  | timeTrial => lit "timeTrial"
  | chaos => lit "chaos"
  | custom => lit "custom"
  end.

(** [(f.inputs.left ? 1 : 0) | (f.inputs.right ? 2 : 0) | (f.inputs.jump ? 4 : 0)] *)
Definition input_bits (i : InputState) : Z :=
  bit_or (bit_or (if left i then 1 else 0) (if right i then 2 else 0))
    (if jump i then 4 else 0).

(** [JSON.stringify (compact)] for
    [compact = { v: replay.version, s: replay.seed, m: replay.mode,
                 f: replay.frames.map (f => ({ t: f.tick, i: ... })) }]. *)
Definition stringify_compact (replay : ReplayData) : jsstring :=
  JSON.stringify_object
    [ (lit "v", JSON.stringify_number (version replay));
      (lit "s", JSON.stringify_number (seed replay));
      (lit "m", JSON.stringify_string (mode_string (mode replay)));
      (lit "f",
       JSON.stringify_array
         (List.map
            (fun f =>
               JSON.stringify_object
                 [ (lit "t", JSON.stringify_number (tick f));
                   (lit "i", JSON.stringify_number (input_bits (inputs f))) ])
            (frames replay))) ].

(** [encodeReplayToUrl (replay)] *)
Definition encodeReplayToUrl (replay : ReplayData) : result jsstring :=
  let json := stringify_compact replay in
  Base64.btoa json.

(** What [decodeReplayFromUrl] builds.  Nothing checks the parsed value
    against [ReplayData]: the fields it copies hold whatever the text
    held. *)
Record DecodedFrame : Type := mkDecodedFrame {
  d_tick : value;
  d_inputs : InputState
}.

Record Decoded : Type := mkDecoded {
  d_version : value;
  d_seed : value;
  d_mode : value;
  d_settings : PartialSettings;
  d_frames : list DecodedFrame;
  d_startTime : Z;
  d_playerName : string
}.

(** The value of the last member of that name. *)
Fixpoint lookup (key : jsstring) (members : list (jsstring * value)) : option value :=
  match members with
  | [] => None
  | (k, v) :: rest =>
      match lookup key rest with
      | Some v' => Some v'
      | None => if jsstring_eqb k key then Some v else None
      end
  end.

(** [o.key] for the keys the codec reads ([v], [s], [m], [f], [t], [i]),
    none of which is a property of a prototype: reading from [null] or
    [undefined] throws, reading from anything but an object that has the
    member gives [undefined]. *)
Definition get (o : value) (key : jsstring) : result value :=
  match o with
  | VUndefined | VNull => Throw
  | VObj members =>
      match lookup key members with
      | Some v => Ok v
      | None => Ok VUndefined
      end
  | _ => Ok VUndefined
  end.

Definition Qtruncate (q : Q) : Z := if Qltb q 0 then Qceiling q else Qfloor q.

Section Decode.

(** [ToInt32] of a string, an array or an object goes through the
    grammar of numeric strings and through [toString] and [valueOf],
    which may throw; that part of the language is a parameter. *)
Variable ToInt32_of_other : value -> result Z.

Definition ToInt32_of (v : value) : result Z :=
  match v with
  | VUndefined | VNull => Ok 0%Z
  | VBool b => Ok (if b then 1 else 0)%Z
  | VNum q => Ok (ToInt32 (Qtruncate q))
  | _ => ToInt32_of_other v
  end.

(** [!!(v & mask)] *)
Definition has_bit (v : value) (mask : Z) : result bool :=
  n <~ ToInt32_of v ;;
  Ok (negb (bit_and n mask =? 0)%Z).

(** [(f) => ({ tick: f.t, inputs: { left: !!(f.i & 1), right: !!(f.i & 2),
                                     jump: !!(f.i & 4) } })] *)
Definition decode_frame (f : value) : result DecodedFrame :=
  t <~ get f (lit "t") ;;
  i <~ get f (lit "i") ;;
  l <~ has_bit i 1 ;;
  i <~ get f (lit "i") ;;
  r <~ has_bit i 2 ;;
  i <~ get f (lit "i") ;;
  j <~ has_bit i 4 ;;
  Ok (mkDecodedFrame t (mkInput l r j)).

Fixpoint map_result {A B} (f : A -> result B) (l : list A) : result (list B) :=
  match l with
  | [] => Ok []
  | a :: rest =>
      b <~ f a ;;
      bs <~ map_result f rest ;;
      Ok (b :: bs)
  end.

(** [o.map (callback)]: only an array has a [map] that can be called. *)
Definition call_map {B} (o : value) (callback : value -> result B) : result (list B) :=
  match o with
  | VArr elements => map_result callback elements
  | _ => Throw
  end.

(** The body of the [try] block. *)
Definition decode_body (encoded : jsstring) : result Decoded :=
  json <~ Base64.atob encoded ;;
  compact <~ JSON.parse json ;;
  v <~ get compact (lit "v") ;;
  s <~ get compact (lit "s") ;;
  m <~ get compact (lit "m") ;;
  f <~ get compact (lit "f") ;;
  frames <~ call_map f decode_frame ;;
  Ok (mkDecoded v s m (mkPartial None None) frames 0 "Replay").

(** [decodeReplayFromUrl (encoded)]: [None] is [null]. *)
Definition decodeReplayFromUrl (encoded : jsstring) : result (option Decoded) :=
  try_catch
    (d <~ decode_body encoded ;; Ok (Some d))
    (Ok None).

End Decode.

(** A number that holds an integer. *)
Definition as_integer (v : value) : option Z :=
  match v with
  | VNum q => if (Zpos (Qden q) =? 1)%Z then Some (Qnum q) else None
  | _ => None
  end.

Definition as_mode (v : value) : option GameMode :=
  match v with
  | VStr s =>
      if jsstring_eqb s (lit "classic") then Some classic
      else if jsstring_eqb s (lit "timeTrial") then Some timeTrial
      else if jsstring_eqb s (lit "chaos") then Some chaos
      else if jsstring_eqb s (lit "custom") then Some custom
      else None
  | _ => None
  end.

Fixpoint as_frames (l : list DecodedFrame) : option (list ReplayFrame) :=
  match l with
  | [] => Some []
  | f :: rest =>
      match as_integer (d_tick f), as_frames rest with
      | Some t, Some fs => Some (mkFrame t (d_inputs f) :: fs)
      | _, _ => None
      end
  end.

(** The decoded object as a [ReplayData], when its fields hold what the
    interface declares: integers for [version], [seed] and the ticks, one
    of the four mode names for [mode]. *)
Definition as_ReplayData (d : Decoded) : option ReplayData :=
  match as_integer (d_version d), as_integer (d_seed d), as_mode (d_mode d),
        as_frames (d_frames d) with
  | Some v, Some s, Some m, Some fs =>
      Some (mkReplay v s m (d_settings d) fs (d_startTime d) (d_playerName d))
  | _, _, _, _ => None
  end.

End ReplayCodec.

(** ** GameScene.ts: what the scene does with the engine *)

Module GameScene.

Local Open Scope Q_scope.

(** The [for] loop of the closure [getSegment] of [update], from the
    segments [track] on, with [acc] so far. *)
Fixpoint segmentFrom (track : list TrackSegment) (acc : Z) (distance : Q)
    : option TrackSegment :=
  match track with
  | [] => None
  | seg :: rest =>
      let acc := (acc + seg_length seg)%Z in
      if Qltb distance (inject_Z acc) then Some seg else segmentFrom rest acc distance
  end.

(** [getSegment (distance)]; [None] is [undefined], the last element of
    an empty track. *)
Definition getSegment (track : list TrackSegment) (distance : Q)
    : option TrackSegment :=
  match segmentFrom track 0 distance with
  | Some seg => Some seg
  | None => index track (length_Z track - 1)
  end.

(** [this.track.reduce ((sum, seg) => sum + seg.length, 0)] *)
Definition totalTrackLength (track : list TrackSegment) : Z :=
  fold_left (fun sum seg => (sum + seg_length seg)%Z) track 0%Z.

(** *** createPlayers *)

(** The text of an integer in a template literal. *)
Definition decimal (i : Z) : string := NilZero.string_of_int (Z.to_int i).

(** [this.botControllers.set (key, c)] on the entries of the map, in the
    order of insertion. *)
Fixpoint map_set {A} (entries : list (string * A)) (key : string) (c : A)
    : list (string * A) :=
  match entries with
  | [] => [(key, c)]
  | (k, v) :: rest =>
      if String.eqb k key then (k, c) :: rest else (k, v) :: map_set rest key c
  end.

(** [this.botControllers.get (key)] *)
Fixpoint map_get {A} (entries : list (string * A)) (key : string) : option A :=
  match entries with
  | [] => None
  | (k, v) :: rest => if String.eqb k key then Some v else map_get rest key
  end.

Definition profiles : list BotProfileType :=
  [casual; aggressive; speedster; trickster; adaptive].

(** The [for] loop of [createPlayers], from [i] on, [n] turns.  For
    [i] from 0 on the profile is one of the five; with none, the
    constructor of the controller would throw. *)
Fixpoint createBots (s : Profiles.Store) (totalLanes : Z) (n : nat) (i : Z)
    (players : list PlayerState) (botControllers : list (string * BotController.t))
    : list PlayerState * list (string * BotController.t) :=
  match n with
  | O => (players, botControllers)
  | S n' =>
      let lane := Z.rem i totalLanes in
      let profile := index profiles (Z.rem i (length_Z profiles)) in
      let bot :=
        createPlayerState (String.append "bot_" (decimal i))
          (String.append "Bot " (decimal (i + 1))) lane true (Z.rem (i + 1) 8) profile in
      let players := players ++ [bot] in
      let botControllers :=
        match profile with
        | Some profile =>
            map_set botControllers (id bot) (BotController.new s profile)
        | None => botControllers
        end in
      createBots s totalLanes n' (i + 1)%Z players botControllers
  end.

(** [createPlayers ()], on a scene without players: the players and the
    controllers of the bots. *)
Definition createPlayers (s : Profiles.Store) (settings : GameSettings)
    (track : list TrackSegment)
    : list PlayerState * list (string * BotController.t) :=
  let botCount := botCount settings in
  let totalLanes :=
    match track with
    | seg :: _ => if (lanes seg =? 0)%Z then 5%Z else lanes seg
    | [] => 5%Z
    end in
  (* Human player *)
  let humanPlayer :=
    createPlayerState "player" "You" (totalLanes / 2)%Z false 0 None in
  (* Bots *)
  createBots s totalLanes (Z.to_nat botCount) 0 [humanPlayer] [].

(** *** Collisions between players *)

(** The inner loop of the collisions of [update]: the player [a] of the
    outer loop against each player after it. *)
Fixpoint collideWithLater (a : PlayerState) (later : list PlayerState)
    : PlayerState * list PlayerState :=
  match later with
  | [] => (a, [])
  | b :: rest =>
      let (a, b) :=
        if checkPlayerCollision a b then resolveCollision a b else (a, b) in
      let (a, rest) := collideWithLater a rest in
      (a, b :: rest)
  end.

(** The outer loop, [n] turns of it from the players [players] on. *)
Fixpoint collideFrom (n : nat) (players : list PlayerState) : list PlayerState :=
  match n, players with
  | S n', a :: later =>
      let (a, later) := collideWithLater a later in
      a :: collideFrom n' later
  | _, _ => players
  end.

(** The collisions between players of [update]: one turn per player. *)
Definition collidePlayers (players : list PlayerState) : list PlayerState :=
  collideFrom (List.length players) players.

(** *** Finishing *)

(** The body of the two loops that finish players. *)
Definition finishPlayer (finishCount totalPlayers : Z) (elapsedTime matchLength : Q)
    (p : PlayerState) : PlayerState :=
  mkPlayer
    (id p) (name p) (x p) (y p) (lane p) (forwardSpeed p) (lateralSpeed p)
    (distanceTraveled p) (isJumping p) (jumpTimer p) (stunTimer p)
    (hasShield p) (shieldTimer p) (speedBoostTimer p) (jumpBoostTimer p)
    (isBot p) (botProfile p) (skinIndex p)
    (calculateScore finishCount totalPlayers elapsedTime matchLength)
    true elapsedTime finishCount.

(** [this.players.forEach (p => { if (!p.finished && due (p)) { ... } })]:
    the counter and the players afterwards. *)
Fixpoint finishLoop (due : PlayerState -> bool) (totalPlayers : Z)
    (elapsedTime matchLength : Q) (finishCount : Z) (players : list PlayerState)
    : Z * list PlayerState :=
  match players with
  | [] => (finishCount, [])
  | p :: rest =>
      if negb (finished p) && due p then
        let finishCount := (finishCount + 1)%Z in
        let p := finishPlayer finishCount totalPlayers elapsedTime matchLength p in
        let (finishCount, rest) :=
          finishLoop due totalPlayers elapsedTime matchLength finishCount rest in
        (finishCount, p :: rest)
      else
        let (finishCount, rest) :=
          finishLoop due totalPlayers elapsedTime matchLength finishCount rest in
        (finishCount, p :: rest)
  end.

(** The fields of the scene that the end of [update] reads and writes. *)
Record Race : Type := mkRace {
  players : list PlayerState;
  finishCount : Z;
  elapsedTime : Q;
  trackLength : Z;
  settings : GameSettings;
  gameOver : bool
}.

(** The finish checks of [update]. *)
Definition finishChecks (r : Race) : Race :=
  let (count, ps) :=
    finishLoop
      (fun p => Qle_bool (inject_Z (trackLength r)) (distanceTraveled p))
      (length_Z (players r)) (elapsedTime r) (matchLength (settings r))
      (finishCount r) (players r) in
  mkRace ps count (elapsedTime r) (trackLength r) (settings r) (gameOver r).

(** The time limit of [update]; of [endGame], the flag it sets. *)
Definition timeLimit (r : Race) : Race :=
  if Qle_bool (matchLength (settings r)) (elapsedTime r)
     || forallb finished (players r)
  then
    let (count, ps) :=
      finishLoop (fun _ => true)
        (length_Z (players r)) (elapsedTime r) (matchLength (settings r))
        (finishCount r) (players r) in
    mkRace ps count (elapsedTime r) (trackLength r) (settings r) true
  else r.

End GameScene.

(** ** Inputs the properties are evaluated at *)

(** The state of the generator from which the next state is 0xFFFFFFFF. *)
Definition seed_before_all_ones : Rng.SeededRNG := Rng.mk 653637408.

Local Open Scope Q_scope.

(** The segment of the engine's tests. *)
Definition defaultSegment : TrackSegment :=
  mkSegment (Some straight) 500 5 [] [] 0.98 (-0.5).

(** The narrow squeeze of the classic track: three lanes. *)
Definition narrowSegment : TrackSegment :=
  createSegment (Some narrow) 200 3 0.96 (-0.7)
    [obs_moving_by bumper 1 0.5 20] [pu speed_boost 0 0.3].

Definition steerLeft : InputState := mkInput true false false.

(** A player in lane 0, just stunned by a collision. *)
Definition stunnedInLane0 : PlayerState :=
  set_stunTimer (createPlayerState "p1" "Test" 0 false 0 None) PHYSICS.STUN_DURATION.

(** A player in lane 2 whose stun has a hundredth of a second left. *)
Definition stunEnding : PlayerState :=
  set_stunTimer (createPlayerState "p1" "Test" 2 false 0 None) 0.01.

(** Two players side by side at the same [x]. *)
Definition playerA : PlayerState := createPlayerState "a" "A" 2 false 0 None.
Definition playerB : PlayerState := createPlayerState "b" "B" 2 false 1 None.

(** ** What the driver does to one player *)

(** The lane bounds of [updatePlayerPhysics] for a lane count. *)
Definition lowerBound (lanes : Z) : Q :=
  PHYSICS.SLIDE_WIDTH / 2 - inject_Z lanes * PHYSICS.LANE_WIDTH / 2 + 10.
Definition upperBound (lanes : Z) : Q :=
  PHYSICS.SLIDE_WIDTH / 2 + inject_Z lanes * PHYSICS.LANE_WIDTH / 2 - 10.
Definition inLaneBounds (lanes : Z) (x : Q) : Prop :=
  lowerBound lanes <= x /\ x <= upperBound lanes.

(** The calls of the engine that the driver makes on a player, tick after
    tick: the physics update, the resolution of a collision with the
    player as first or as second argument, an obstacle, a powerup. *)
Inductive Event : Type :=
| Tick (input : InputState) (segment : TrackSegment) (dt : Q)
| CollideWith (other : PlayerState)
| CollidedBy (other : PlayerState)
| Obstacle (type : ObstacleType)
| Powerup (type : PowerupType).

Definition applyEvent (player : PlayerState) (e : Event) : PlayerState :=
  match e with
  | Tick input segment dt => updatePlayerPhysics player input segment dt
  | CollideWith other => fst (resolveCollision player other)
  | CollidedBy other => snd (resolveCollision other player)
  | Obstacle type => applyObstacleEffect player type
  | Powerup type => applyPowerup player type
  end.

Definition run (player : PlayerState) (events : list Event) : PlayerState :=
  fold_left applyEvent events player.

(** Every tick of the events is on a segment of [n] lanes. *)
Definition onLanes (n : Z) (e : Event) : Prop :=
  match e with
  | Tick _ segment _ => lanes segment = n
  | _ => True
  end.

Local Close Scope Q_scope.

(** ** A controller driven tick after tick *)

(** What one call of [update] is given. *)
Record Scene : Type := mkScene {
  scene_bot : PlayerState;
  scene_players : list PlayerState;
  scene_segment : TrackSegment
}.

(** The inputs that successive calls of [update] return, the controller,
    the profile store and the generator being carried from call to call. *)
Fixpoint drive (s : Profiles.Store) (c : BotController.t) (scenes : list Scene)
    (g : Rng.SeededRNG) : list InputState :=
  match scenes with
  | [] => []
  | sc :: rest =>
      let '(input, c', s', g') :=
        BotController.update s c (scene_bot sc) (scene_players sc) (scene_segment sc) g in
      input :: drive s' c' rest g'
  end.

Local Open Scope Q_scope.

(** The scenario of the controller's tests: a bot and the human player side
    by side on a straight with a barrel and a speed boost. *)
Definition testSegment : TrackSegment :=
  mkSegment (Some straight) 500 5 [obs barrel 2 0.5] [pu speed_boost 0 0.3] 0.98 (-0.5).

Definition testBot (profile : BotProfileType) : PlayerState :=
  createPlayerState "b1" "Bot" 2 true 1 (Some profile).

Definition testHuman : PlayerState := createPlayerState "p1" "Player" 2 false 0 None.

Definition testScene (profile : BotProfileType) : Scene :=
  mkScene (testBot profile) [testHuman; testBot profile] testSegment.

(** The same, with the human player 200 ahead of the bot. *)
Definition humanAhead : PlayerState := set_distanceTraveled testHuman 200.

Definition behindScene : Scene :=
  mkScene (testBot adaptive) [humanAhead; testBot adaptive] testSegment.

Local Close Scope Q_scope.

(** The profile store after the same calls. *)
Fixpoint driveStore (s : Profiles.Store) (c : BotController.t) (scenes : list Scene)
    (g : Rng.SeededRNG) : Profiles.Store :=
  match scenes with
  | [] => s
  | sc :: rest =>
      let '(_, c', s', g') :=
        BotController.update s c (scene_bot sc) (scene_players sc) (scene_segment sc) g in
      driveStore s' c' rest g'
  end.

(** A profile with the two fields that [updateState] tunes blanked out, and
    the stores that differ in those two fields only. *)
Definition untuned (p : Profiles.BotProfile) : Profiles.BotProfile :=
  Profiles.set_riskTolerance (Profiles.set_targetSpeedFactor p 0) 0.

Definition sameButTuning (s1 s2 : Profiles.Store) : Prop :=
  forall k, untuned (s1 k) = untuned (s2 k).

(** ** The value the codec writes *)

(** The object [compact] of [encodeReplayToUrl], as [JSON.parse] returns it
    from its text. *)
Definition frame_value (f : ReplayFrame) : value :=
  VObj [ (lit "t", VNum (inject_Z (tick f)));
         (lit "i", VNum (inject_Z (ReplayCodec.input_bits (inputs f)))) ].

Definition compact_value (replay : ReplayData) : value :=
  VObj [ (lit "v", VNum (inject_Z (version replay)));
         (lit "s", VNum (inject_Z (seed replay)));
         (lit "m", VStr (ReplayCodec.mode_string (mode replay)));
         (lit "f", VArr (List.map frame_value (frames replay))) ].

(** What [decodeReplayFromUrl] builds from it. *)
Definition decoded_frame (f : ReplayFrame) : ReplayCodec.DecodedFrame :=
  ReplayCodec.mkDecodedFrame (VNum (inject_Z (tick f))) (inputs f).

Definition decoded (replay : ReplayData) : ReplayCodec.Decoded :=
  ReplayCodec.mkDecoded
    (VNum (inject_Z (version replay))) (VNum (inject_Z (seed replay)))
    (VStr (ReplayCodec.mode_string (mode replay))) (mkPartial None None)
    (List.map decoded_frame (frames replay)) 0 "Replay".

(** The replay of the codec's tests. *)
Definition sampleReplay : ReplayData :=
  mkReplay 1 12345 classic (mkPartial None None)
    [ mkFrame 1 (mkInput false false false);
      mkFrame 2 (mkInput true false false);
      mkFrame 3 (mkInput false true false);
      mkFrame 4 (mkInput false false true);
      mkFrame 5 (mkInput true false true) ]
    1700000000000 "TestPlayer".

(** ** Notions and tactics of the proofs *)

(** *** Texts that parse to a value *)

Section ParserNotions.

Import JSON.
Local Open Scope N_scope.

(** What may follow a value inside a text: nothing, a comma, a closing
    bracket or a closing brace. *)
Definition delimited (rest : jsstring) : Prop :=
  match rest with
  | [] => True
  | c :: _ => c = 44 \/ c = 93 \/ c = 125
  end.

(** A character that a JSON string holds as it is. *)
Definition is_plain (c : N) : bool :=
  negb (c =? 34) && negb (c =? 92) && negb (c <? 32).

(** [text], followed by anything that may follow a value, parses to [v]
    and leaves what follows. *)
Definition ParsesBy (parse_value : jsstring -> result (value * jsstring))
    (text : jsstring) (v : value) : Prop :=
  forall rest, delimited rest -> parse_value (text ++ rest) = Ok (v, rest).

(** The same for [parse_value] at every depth from [need] on. *)
Definition Parses (need : nat) (text : jsstring) (v : value) : Prop :=
  forall depth, (need <= depth)%nat -> ParsesBy (parse_value depth) text v.

(** A member, as the functions below take it: its key, the text of its
    value and the value. *)
Definition member_text (m : jsstring * jsstring * value) : jsstring :=
  stringify_string (fst (fst m)) ++ 58 :: snd (fst m).
Definition member_value (m : jsstring * jsstring * value) : jsstring * value :=
  (fst (fst m), snd m).

Definition member_ok (pv : jsstring -> result (value * jsstring))
    (m : jsstring * jsstring * value) : Prop :=
  forallb is_plain (fst (fst m)) = true /\ ParsesBy pv (snd (fst m)) (snd m).

(** An element of an array: its text, which starts with an opening brace,
    and its value. *)
Definition element_ok (pv : jsstring -> result (value * jsstring))
    (e : jsstring * value) : Prop :=
  (exists tail, fst e = 123 :: tail) /\ ParsesBy pv (fst e) (snd e).

(** The text of one frame of [compact]. *)
Definition frame_text (f : ReplayFrame) : jsstring :=
  JSON.stringify_object
    [ (lit "t", JSON.stringify_number (tick f));
      (lit "i", JSON.stringify_number (ReplayCodec.input_bits (inputs f))) ].

(** A code unit that [btoa] accepts. *)
Definition byte (c : N) : bool := c <=? 255.

End ParserNotions.

(** *** Tactics *)

(** The cases of what may follow a value. *)
Ltac delimiter rest H :=
  destruct rest as [|? ?]; [|destruct H as [-> | [-> | ->]]].

(** Taking apart the draws and the branches of the controller's code. *)
Ltac atomic d :=
  lazymatch d with
  | context [if _ then _ else _] => fail
  | context [let (_, _) := _ in _] => fail
  | context [match _ with Some _ => _ | None => _ end] => fail
  | _ => idtac
  end.

Ltac branches :=
  repeat (match goal with
          | |- context [let (_, _) := ?d in _] => atomic d; destruct d
          | |- context [if ?b then _ else _] => atomic b; destruct b
          | |- context [match ?d with Some _ => _ | None => _ end] =>
              atomic d; destruct d
          end; cbv beta iota).

(** Arithmetic with division and remainder by constants. *)
Ltac div_mod_lia := zify; Z.to_euclidean_division_equations; lia.

(** Reading a field of a player through the assignments made to it. *)
Ltac player_fields :=
  cbn [id name x y lane forwardSpeed lateralSpeed distanceTraveled isJumping
       jumpTimer stunTimer hasShield shieldTimer speedBoostTimer jumpBoostTimer
       isBot botProfile skinIndex score finished finishTime finishPosition
       set_x set_lane set_forwardSpeed set_lateralSpeed set_distanceTraveled
       set_isJumping set_jumpTimer set_stunTimer set_hasShield set_shieldTimer
       set_speedBoostTimer set_jumpBoostTimer set_finished] in *.

(** Every test of the goal, from the outside in. *)
Ltac tests :=
  repeat (match goal with
          | |- context [if ?b then _ else _] => atomic b; destruct b eqn:?
          end; player_fields).


(** The tests on rationals among the hypotheses, as order relations. *)
Ltac order_of H :=
  lazymatch type of H with
  | Qltb ?a ?b = true =>
      let Hle := fresh "Hle" in
      assert (a < b)%Q
        by (apply Qnot_le_lt; intro Hle; apply Qle_bool_iff in Hle;
            unfold Qltb in H; rewrite Hle in H; discriminate H);
      clear H
  | Qltb ?a ?b = false =>
      assert (b <= a)%Q
        by (apply Qle_bool_iff; unfold Qltb in H;
            destruct (Qle_bool b a); [reflexivity|discriminate H]);
      clear H
  | Qle_bool _ _ = true => apply Qle_bool_iff in H
  | Qle_bool ?a ?b = false =>
      let Hle := fresh "Hle" in
      assert (b < a)%Q
        by (apply Qnot_le_lt; intro Hle; apply Qle_bool_iff in Hle;
            rewrite Hle in H; discriminate H);
      clear H
  end.

Ltac orders :=
  repeat match goal with
         | H : Qltb _ _ = _ |- _ => order_of H
         | H : Qle_bool _ _ = _ |- _ => order_of H
         end.

(** The constants of the engine, as numbers. *)
Ltac constants :=
  unfold PHYSICS.FIXED_DT, PHYSICS.LANE_WIDTH, PHYSICS.FORWARD_ACCEL,
    PHYSICS.MAX_FORWARD_SPEED, PHYSICS.LATERAL_SPEED, PHYSICS.LATERAL_ACCEL,
    PHYSICS.LATERAL_FRICTION, PHYSICS.JUMP_DURATION, PHYSICS.STUN_DURATION,
    PHYSICS.COLLISION_PUSH, PHYSICS.COLLISION_RADIUS, PHYSICS.SPEED_BOOST_MULT,
    PHYSICS.SPEED_BOOST_DURATION, PHYSICS.SHIELD_DURATION, PHYSICS.JUMP_BOOST_MULT,
    PHYSICS.JUMP_BOOST_DURATION, PHYSICS.LANDING_BOOST, PHYSICS.SLIDE_WIDTH in *.
(** ** The stages of [movePlayer]

    The blocks of [updatePlayerPhysics] after the stun test, one function
    each, in the order of the source. *)

Section Stages.

Local Open Scope Q_scope.

(** Forward acceleration (downhill). *)
Definition accelerateStage (player : PlayerState) (segment : TrackSegment) (dt : Q)
    : PlayerState :=
  let slopeBoost := - slope segment * 50 in
  let speedMult :=
    if Qltb 0 (speedBoostTimer player) then PHYSICS.SPEED_BOOST_MULT else 1 in
  let player :=
    set_forwardSpeed player
      (forwardSpeed player + (PHYSICS.FORWARD_ACCEL + slopeBoost) * dt) in
  let player :=
    set_forwardSpeed player
      (Qmin (forwardSpeed player * speedMult) PHYSICS.MAX_FORWARD_SPEED) in
  set_forwardSpeed player (forwardSpeed player * friction segment).

(** Lateral movement. *)
Definition steerStage (player : PlayerState) (input : InputState) (dt : Q)
    : PlayerState :=
  let targetLateral : Q :=
    (if left input then -1 else 0) + (if right input then 1 else 0) in
  if negb (Qeq_bool targetLateral 0) then
    let player :=
      set_lateralSpeed player
        (lateralSpeed player + targetLateral * PHYSICS.LATERAL_ACCEL * dt) in
    set_lateralSpeed player
      (Qmax (- PHYSICS.LATERAL_SPEED)
         (Qmin PHYSICS.LATERAL_SPEED (lateralSpeed player)))
  else if Qltb 0 (lateralSpeed player) then
    let player :=
      set_lateralSpeed player (lateralSpeed player - PHYSICS.LATERAL_FRICTION * dt) in
    if Qltb (lateralSpeed player) 0 then set_lateralSpeed player 0 else player
  else if Qltb (lateralSpeed player) 0 then
    let player :=
      set_lateralSpeed player (lateralSpeed player + PHYSICS.LATERAL_FRICTION * dt) in
    if Qltb 0 (lateralSpeed player) then set_lateralSpeed player 0 else player
  else player.

(** Jump handling: the start of a jump. *)
Definition takeOffStage (player : PlayerState) (input : InputState) : PlayerState :=
  if jump input && negb (isJumping player) then
    set_jumpTimer (set_isJumping player true)
      (if Qltb 0 (jumpBoostTimer player)
       then PHYSICS.JUMP_DURATION * PHYSICS.JUMP_BOOST_MULT
       else PHYSICS.JUMP_DURATION)
  else player.

(** Jump handling: the jump timer and the landing. *)
Definition airStage (player : PlayerState) (dt : Q) : PlayerState :=
  if isJumping player then
    let player := set_jumpTimer player (jumpTimer player - dt) in
    if Qle_bool (jumpTimer player) 0 then
      let player := set_jumpTimer (set_isJumping player false) 0 in
      set_forwardSpeed player (forwardSpeed player + PHYSICS.LANDING_BOOST)
    else player
  else player.

(** Update position. *)
Definition positionStage (player : PlayerState) (dt : Q) : PlayerState :=
  let player := set_x player (x player + lateralSpeed player * dt) in
  set_distanceTraveled player (distanceTraveled player + forwardSpeed player * dt).

(** Clamp to slide bounds, and update lane based on position. *)
Definition clampStage (player : PlayerState) (segment : TrackSegment) : PlayerState :=
  let halfWidth := inject_Z (lanes segment) * PHYSICS.LANE_WIDTH / 2 in
  let centerX := PHYSICS.SLIDE_WIDTH / 2 in
  let player :=
    set_x player
      (Qmax (centerX - halfWidth + 10) (Qmin (centerX + halfWidth - 10) (x player))) in
  let player := set_lane player (Qfloor (x player / PHYSICS.LANE_WIDTH)) in
  set_lane player (Z.max 0 (Z.min (lanes segment - 1) (lane player))).

End Stages.

(** ** Notions of the engine's properties *)

Section EngineNotions.

Local Open Scope Q_scope.

(** The fields that no stage of [movePlayer] assigns. *)
Definition restOf (p : PlayerState) :=
  (id p, name p, y p, stunTimer p, hasShield p, shieldTimer p, speedBoostTimer p,
   jumpBoostTimer p, isBot p, botProfile p, skinIndex p, score p, finished p,
   finishTime p, finishPosition p).

(** The time that the ticks of the events take. *)
Fixpoint elapsed (events : list Event) : Q :=
  match events with
  | [] => 0
  | Tick _ _ dt :: rest => dt + elapsed rest
  | _ :: rest => elapsed rest
  end.

(** A tick that does not go back in time. *)
Definition forward (e : Event) : Prop :=
  match e with
  | Tick _ _ dt => 0 <= dt
  | _ => True
  end.

(** A tick forward in time on a segment whose slope does not outweigh the
    forward acceleration ([FORWARD_ACCEL - slope * 50 >= 0]) and whose
    friction factor is between 0 and 1. *)
Definition sliding (e : Event) : Prop :=
  match e with
  | Tick _ segment dt =>
      0 <= dt /\ slope segment <= 12 # 5 /\ 0 <= friction segment <= 1
  | _ => True
  end.

(** An event other than picking up a shield. *)
Definition noShieldPickup (e : Event) : Prop :=
  match e with
  | Powerup shield => False
  | _ => True
  end.

(** A collision with another player or with an obstacle. *)
Definition isContact (e : Event) : Prop :=
  match e with
  | CollideWith _ | CollidedBy _ | Obstacle _ => True
  | _ => False
  end.

(** The shield flag says whether the shield timer runs, and no timer is
    negative. *)
Definition timersSound (p : PlayerState) : Prop :=
  (hasShield p = true <-> 0 < shieldTimer p)
  /\ 0 <= stunTimer p /\ 0 <= shieldTimer p
  /\ 0 <= speedBoostTimer p /\ 0 <= jumpBoostTimer p.

(** [n] ticks of [dt] each. *)
Definition ticks (input : InputState) (segment : TrackSegment) (dt : Q) (n : nat)
    : list Event :=
  repeat (Tick input segment dt) n.

(** The number of ticks among the events. *)
Fixpoint tickCount (events : list Event) : nat :=
  match events with
  | [] => 0%nat
  | Tick _ _ _ :: rest => S (tickCount rest)
  | _ :: rest => tickCount rest
  end.

(** A tick of the scene, which steps the players by [FIXED_DT]. *)
Definition fixedStep (e : Event) : Prop :=
  match e with
  | Tick _ _ dt => dt = PHYSICS.FIXED_DT
  | _ => True
  end.

End EngineNotions.

(** ** Notions of the track's and the scene's properties *)

Section TrackNotions.

Local Open Scope Q_scope.

(** A lane and a position as [createTrack] draws them for a segment of
    [lanes] lanes. *)
Definition placed (lanes lane : Z) (position : Q) : Prop :=
  (0 <= lane <= lanes)%Z /\ 0.1 <= position <= 0.9.

Definition generatedObstacle (lanes : Z) (o : ObstacleData) : Prop :=
  placed lanes (obs_lane o) (obs_position o)
  /\ (exists m, obs_moving o = Some m)
  /\ (exists r, obs_moveRange o = Some r /\ (20 <= r <= 50)%Z).

Definition generatedPowerup (lanes : Z) (u : PowerupData) : Prop :=
  placed lanes (pu_lane u) (pu_position u).

(** What holds of every segment of a generated track. *)
Definition wellFormed (s : TrackSegment) : Prop :=
  (150 <= seg_length s <= 500)%Z
  /\ (lanes s = 3%Z \/ lanes s = 5%Z)
  /\ (lanes s = 3%Z <-> seg_type s = Some narrow)
  /\ 0.95 <= friction s <= 0.99
  /\ -1.2 <= slope s <= -0.3
  /\ (List.length (obstacles s) <= 6)%nat
  /\ (List.length (powerups s) <= 3)%nat
  /\ Forall (generatedObstacle (lanes s)) (obstacles s)
  /\ Forall (generatedPowerup (lanes s)) (powerups s).

(** The straight that [createTrack] starts with. *)
Definition startSegment : TrackSegment :=
  createSegment (Some straight) 300 5 0.98 (-0.5) [] [pu speed_boost 2 0.5].

End TrackNotions.

Section SceneNotions.

(** The finishing positions that have been given out. *)
Definition positions (players : list PlayerState) : list Z :=
  List.map finishPosition (List.filter finished players).

(** The positions given out are 1 to [count], each once. *)
Definition ranked (count : Z) (players : list PlayerState) : Prop :=
  (0 <= count)%Z
  /\ NoDup (positions players)
  /\ forall z, In z (positions players) <-> (1 <= z <= count)%Z.

(** A player that has finished is left as it is. *)
Definition keepsFinished (before after : list PlayerState) : Prop :=
  Forall2 (fun p q => finished p = true -> q = p) before after.

(** What a collision may make of a player: it is where it was, as it
    was but for its lateral speed and its stun; and it is unchanged if it
    has a shield, is in the air or has finished. *)
Definition pushedOnly (p q : PlayerState) : Prop :=
  (id q = id p /\ x q = x p /\ distanceTraveled q = distanceTraveled p
   /\ forwardSpeed q = forwardSpeed p /\ isJumping q = isJumping p
   /\ hasShield q = hasShield p /\ finished q = finished p
   /\ finishPosition q = finishPosition p)
  /\ (hasShield p = true \/ isJumping p = true \/ finished p = true -> q = p).

End SceneNotions.

Section BotNotions.

(** The controller after the calls of [drive]. *)
Fixpoint driveController (s : Profiles.Store) (c : BotController.t)
    (scenes : list Scene) (g : Rng.SeededRNG) : BotController.t :=
  match scenes with
  | [] => c
  | sc :: rest =>
      let '(_, c', s', g') :=
        BotController.update s c (scene_bot sc) (scene_players sc) (scene_segment sc) g in
      driveController s' c' rest g'
  end.

(** The generator after the calls of [drive]. *)
Fixpoint driveRng (s : Profiles.Store) (c : BotController.t)
    (scenes : list Scene) (g : Rng.SeededRNG) : Rng.SeededRNG :=
  match scenes with
  | [] => g
  | sc :: rest =>
      let '(_, c', s', g') :=
        BotController.update s c (scene_bot sc) (scene_players sc) (scene_segment sc) g in
      driveRng s' c' rest g'
  end.

(** The profile object of the controller and the generator as a call of
    [update] has them when it takes the input from the reaction buffer:
    after [updateState] and [generateInput], before the draw of the
    steering jitter. *)
Definition atJitter (s : Profiles.Store) (c : BotController.t) (sc : Scene)
    (g : Rng.SeededRNG) : Profiles.BotProfile * Rng.SeededRNG :=
  let c :=
    BotController.mkController (BotController.profile c) (BotController.state c)
      (BotController.stateTimer c + 1) (BotController.reactionBuffer c)
      (BotController.targetLane c) (BotController.frameCount c + 1) in
  let '(c, s, g) :=
    BotController.updateState s c (scene_bot sc) (scene_players sc) (scene_segment sc) g in
  let '(_, c, g) :=
    BotController.generateInput s c (scene_bot sc) (scene_players sc) (scene_segment sc) g in
  (s (BotController.profile c), g).

(** The table [BOT_PROFILES] after adaptive adjustments: the entry
    [adaptive] with its two tuned fields raised, to 1 at most. *)
Definition tunedTable (s : Profiles.Store) : Prop :=
  (forall k, k <> adaptive -> s k = Profiles.BOT_PROFILES k)
  /\ untuned (s adaptive) = untuned (Profiles.BOT_PROFILES adaptive)
  /\ (0.8 <= Profiles.targetSpeedFactor (s adaptive) <= 1)%Q
  /\ (0.5 <= Profiles.riskTolerance (s adaptive) <= 1)%Q.

End BotNotions.

Section ProfileNotions.

Import Profiles.

(** A profile under the type and the name that [createRandomProfile]
    gives. *)
Definition asRandom (p : BotProfile) : BotProfile :=
  mk adaptive "Random" (targetSpeedFactor p) (boostSeekRange p) (optimalLineWeight p)
    (collisionAggression p) (collisionAvoidance p) (jumpFrequency p)
    (jumpTimingPrecision p) (riskTolerance p) (obstacleAvoidRange p)
    (steeringJitter p) (reactionDelay p) (mistakeChance p) (adaptiveness p).

End ProfileNotions.

Section CodecNotions.

Local Open Scope N_scope.

(** A character of base64 text: a letter, a digit, [+], [/] or [=]. *)
Definition base64_char (c : N) : bool :=
  ((65 <=? c) && (c <=? 90)) || ((97 <=? c) && (c <=? 122))
  || ((48 <=? c) && (c <=? 57)) || (c =? 43) || (c =? 47) || (c =? 61).

(** A frame as [JSON.parse] gives it, with any integer as its [i]. *)
Definition frame_with_code (t i : Z) : value :=
  VObj [ (lit "t", VNum (inject_Z t)); (lit "i", VNum (inject_Z i)) ].



End CodecNotions.

(** * Properties *)

(** ** The generator *)

Section RngFacts.

Local Open Scope Q_scope.

Lemma Qltb_lt (a b : Q) : Qltb a b = true <-> a < b.
Proof.
  unfold Qltb. rewrite negb_true_iff. split; intro H.
  - apply Qnot_le_lt. intro Hle. apply Qle_bool_iff in Hle. congruence.
  - destruct (Qle_bool b a) eqn:E; [|reflexivity].
    apply Qle_bool_iff in E. exfalso. exact (Qlt_not_le _ _ H E).
Qed.

Lemma Qltb_ge (a b : Q) : Qltb a b = false <-> b <= a.
Proof.
  unfold Qltb. rewrite negb_false_iff. apply Qle_bool_iff.
Qed.

Lemma Qmin_spec (a b : Q) : Qmin a b <= a /\ Qmin a b <= b /\ (Qmin a b = a \/ Qmin a b = b).
Proof.
  unfold Qmin. destruct (Qle_bool a b) eqn:E.
  - apply Qle_bool_iff in E. repeat split; auto; lra.
  - assert (b < a) by (apply Qltb_lt; unfold Qltb; rewrite E; reflexivity).
    repeat split; auto; lra.
Qed.

Lemma Qmax_spec (a b : Q) : a <= Qmax a b /\ b <= Qmax a b /\ (Qmax a b = a \/ Qmax a b = b).
Proof.
  unfold Qmax. destruct (Qle_bool a b) eqn:E.
  - apply Qle_bool_iff in E. repeat split; auto; lra.
  - assert (b < a) by (apply Qltb_lt; unfold Qltb; rewrite E; reflexivity).
    repeat split; auto; lra.
Qed.

Lemma ToUint32_range (z : Z) : (0 <= ToUint32 z < 4294967296)%Z.
Proof. unfold ToUint32. change (2 ^ 32)%Z with 4294967296%Z. apply Z.mod_pos_bound. lia. Qed.

(** The value [next] returns is the new state, read as unsigned, over
    2^32 - 1. *)
Lemma next_value (g : Rng.SeededRNG) :
  fst (Rng.next g) == ToUint32 (Rng.seed (snd (Rng.next g))) # 4294967295.
Proof.
  unfold Rng.next. cbn [fst snd Rng.seed].
  unfold Qdiv, Qmult, Qinv, inject_Z, Qeq. cbn. lia.
Qed.

(** [next] is in [0, 1], both ends included. *)
Lemma next_range (g : Rng.SeededRNG) : 0 <= fst (Rng.next g) <= 1.
Proof.
  rewrite next_value.
  pose proof (ToUint32_range (Rng.seed (snd (Rng.next g)))) as H.
  generalize dependent (ToUint32 (Rng.seed (snd (Rng.next g)))).
  intros u Hu. unfold Qle. cbn [Qnum Qden]. lia.
Qed.

(** [nextInt (min, max)] is in [min, max], both ends included. *)
Lemma nextInt_range (min max : Z) (g : Rng.SeededRNG) :
  (min <= max)%Z -> (min <= fst (Rng.nextInt min max g) <= max)%Z.
Proof.
  intro Hle. unfold Rng.nextInt.
  pose proof (next_range g) as [H0 H1].
  destruct (Rng.next g) as [v g']. cbn [fst] in *.
  assert (Hd : 0 <= inject_Z (max - min)).
  { change 0 with (inject_Z 0). rewrite <- Zle_Qle. lia. }
  assert (Hlo : inject_Z 0 <= v * inject_Z (max - min)).
  { change (inject_Z 0) with 0. apply Qmult_le_0_compat; assumption. }
  assert (Hhi : v * inject_Z (max - min) <= inject_Z (max - min)).
  { rewrite <- (Qmult_1_l (inject_Z (max - min))) at 2.
    apply Qmult_le_compat_r; assumption. }
  apply Qfloor_resp_le in Hlo, Hhi. rewrite Qfloor_Z in Hlo, Hhi. lia.
Qed.

(** [nextFloat (min, max)] is in [min, max]. *)
Lemma nextFloat_range (min max : Q) (g : Rng.SeededRNG) :
  min <= max -> min <= fst (Rng.nextFloat min max g) <= max.
Proof.
  intro Hle. unfold Rng.nextFloat.
  pose proof (next_range g) as [H0 H1].
  destruct (Rng.next g) as [v g']. cbn [fst] in *.
  split; nra.
Qed.

(** C5 (the code at the failing state): from the state 653637408 the new
    state is 0xFFFFFFFF, so [next ()] returns 0xFFFFFFFF / 0xFFFFFFFF = 1,
    which is not below 1, and [nextInt (min, max)] returns [max] itself
    for all integers [min] and [max]; [nextFloat (min, max)] returns
    [max]. *)
Theorem next_returns_one_nextInt_returns_max :
  fst (Rng.next seed_before_all_ones) == 1
  /\ ~ fst (Rng.next seed_before_all_ones) < 1
  /\ (forall min max : Z, fst (Rng.nextInt min max seed_before_all_ones) = max)
  /\ fst (Rng.nextInt 0 10 seed_before_all_ones) = 10%Z
  /\ (forall min max : Q, fst (Rng.nextFloat min max seed_before_all_ones) == max).
Proof.
  assert (E : Rng.next seed_before_all_ones = (4294967295 # 4294967295, Rng.mk (-1))).
  { vm_compute. reflexivity. }
  split; [|split; [|split; [|split]]].
  - rewrite E. reflexivity.
  - rewrite E. cbn [fst]. intro H. vm_compute in H. discriminate H.
  - intros min max. unfold Rng.nextInt. rewrite E. cbn [fst].
    assert (Q1 : (4294967295 # 4294967295) * inject_Z (max - min) == inject_Z (max - min)).
    { setoid_replace (4294967295 # 4294967295) with 1 by reflexivity. ring. }
    rewrite Q1, Qfloor_Z. lia.
  - vm_compute. reflexivity.
  - intros min max. unfold Rng.nextFloat. rewrite E. cbn [fst].
    assert (Q1 : (4294967295 # 4294967295) == 1) by reflexivity.
    rewrite Q1. ring.
Qed.

(** That state is the one the generator takes after one draw from the seed
    2480864133. *)
Lemma state_before_all_ones_is_reached :
  snd (Rng.next (Rng.mk 2480864133)) = seed_before_all_ones.
Proof. vm_compute. reflexivity. Qed.

End RngFacts.

(** ** Doubles *)

Section DoubleFacts.

Local Open Scope Q_scope.

Lemma pow2_pos (k : Z) : 0 < 2 ^ k.
Proof. apply Qpower_0_lt. reflexivity. Qed.

Lemma pow2_le (k m : Z) : (k <= m)%Z -> 2 ^ k <= 2 ^ m.
Proof. intro H. apply Qpower_le_compat_l; [exact H|discriminate]. Qed.

Lemma pow2_lt (k m : Z) : (k < m)%Z -> 2 ^ k < 2 ^ m.
Proof. intro H. apply Qpower_lt_compat_l; [exact H|reflexivity]. Qed.

Lemma pow2_Z (n : Z) : (0 <= n)%Z -> 2 ^ n == inject_Z (2 ^ n).
Proof. intro H. rewrite (Zpower_Qpower 2 n H). reflexivity. Qed.

Lemma pow2_split (k m : Z) : 2 ^ m == 2 ^ (m - k) * 2 ^ k.
Proof.
  rewrite <- Qpower_plus by discriminate.
  replace (m - k + k)%Z with m by lia. reflexivity.
Qed.

(** The exponent of a positive number. *)
Lemma exponent_spec (a : Q) :
  0 < a -> 2 ^ exponent a <= a /\ a < 2 ^ (exponent a + 1).
Proof.
  intro Ha. destruct a as [p q].
  assert (Hp : (0 < p)%Z) by (unfold Qlt in Ha; cbn in Ha; lia).
  unfold exponent. cbn [Qnum Qden].
  pose proof (Z.log2_spec p Hp) as (Lp & Up).
  pose proof (Z.log2_spec (Z.pos q) ltac:(lia)) as (Lq & Uq).
  pose proof (Z.log2_nonneg p) as Np.
  pose proof (Z.log2_nonneg (Z.pos q)) as Nq.
  set (lp := Z.log2 p) in *. set (lq := Z.log2 (Z.pos q)) in *.
  assert (Hlow : 2 ^ (lp - lq - 1) <= p # q).
  { replace (lp - lq - 1)%Z with (lp - (lq + 1))%Z by lia.
    rewrite Qpower_minus by discriminate.
    apply Qle_shift_div_r; [apply pow2_pos|].
    rewrite (pow2_Z lp), (pow2_Z (lq + 1)) by lia.
    replace (Z.succ lq) with (lq + 1)%Z in Uq by lia.
    unfold Qle, Qmult, inject_Z. cbn [Qnum Qden]. nia. }
  assert (Hup : p # q < 2 ^ (lp - lq + 1)).
  { replace (lp - lq + 1)%Z with (lp + 1 - lq)%Z by lia.
    rewrite Qpower_minus by discriminate.
    apply Qlt_shift_div_l; [apply pow2_pos|].
    rewrite (pow2_Z lq), (pow2_Z (lp + 1)) by lia.
    replace (Z.succ lp) with (lp + 1)%Z in Up by lia.
    unfold Qlt, Qmult, inject_Z. cbn [Qnum Qden]. nia. }
  destruct (Qle_bool (2 ^ (lp - lq)) (p # q)) eqn:E.
  - apply Qle_bool_iff in E. split; assumption.
  - split; [exact Hlow|].
    replace (lp - lq - 1 + 1)%Z with (lp - lq)%Z by lia.
    apply Qnot_le_lt. intro H. apply Qle_bool_iff in H. congruence.
Qed.

Lemma exponent_mono (a b : Q) : 0 < a -> a <= b -> (exponent a <= exponent b)%Z.
Proof.
  intros Ha Hab.
  destruct (exponent_spec a Ha) as (La & _).
  destruct (exponent_spec b) as (_ & Ub); [lra|].
  assert (H : 2 ^ exponent a < 2 ^ (exponent b + 1)) by lra.
  apply Qpower_lt_compat_l_inv in H; [lia|reflexivity].
Qed.

(** Rounding to the nearest integer. *)
Lemma nearest_even_near (a : Q) :
  inject_Z (nearest_even a) - a <= 1 # 2 /\ a - inject_Z (nearest_even a) <= 1 # 2.
Proof.
  unfold nearest_even. cbv zeta.
  pose proof (Qfloor_le a) as Hl. pose proof (Qlt_floor a) as Hu.
  rewrite inject_Z_plus in Hu. change (inject_Z 1) with 1 in Hu.
  destruct (Qltb (a - inject_Z (Qfloor a)) (1 # 2)) eqn:E1.
  - apply Qltb_lt in E1. split; lra.
  - apply Qltb_ge in E1.
    assert (K : inject_Z (Qfloor a + 1) == inject_Z (Qfloor a) + 1).
    { rewrite inject_Z_plus. reflexivity. }
    destruct (Qltb (1 # 2) (a - inject_Z (Qfloor a))) eqn:E2.
    + rewrite K. split; lra.
    + apply Qltb_ge in E2. destruct (Z.even (Qfloor a)); [split; lra|].
      rewrite K. split; lra.
Qed.

Lemma nearest_even_Z (n : Z) : nearest_even (inject_Z n) = n.
Proof.
  unfold nearest_even. cbv zeta. rewrite Qfloor_Z.
  assert (E : Qltb (inject_Z n - inject_Z n) (1 # 2) = true).
  { apply Qltb_lt. lra. }
  rewrite E. reflexivity.
Qed.

Lemma nearest_even_mono (a b : Q) : a <= b -> (nearest_even a <= nearest_even b)%Z.
Proof.
  intro Hab. pose proof (Qfloor_resp_le a b Hab) as Hf.
  assert (Ha : (Qfloor a <= nearest_even a <= Qfloor a + 1)%Z).
  { unfold nearest_even. cbv zeta.
    destruct (Qltb _ _); [lia|]. destruct (Qltb _ _); [lia|].
    destruct (Z.even _); lia. }
  assert (Hb : (Qfloor b <= nearest_even b <= Qfloor b + 1)%Z).
  { unfold nearest_even. cbv zeta.
    destruct (Qltb _ _); [lia|]. destruct (Qltb _ _); [lia|].
    destruct (Z.even _); lia. }
  destruct (Z.eq_dec (Qfloor a) (Qfloor b)) as [E|E]; [|lia].
  clear Ha Hb. unfold nearest_even. cbv zeta. rewrite <- E.
  destruct (Qltb (a - inject_Z (Qfloor a)) (1 # 2)) eqn:A1.
  - destruct (Qltb (b - inject_Z (Qfloor a)) (1 # 2)); [lia|].
    destruct (Qltb (1 # 2) (b - inject_Z (Qfloor a))); [lia|].
    destruct (Z.even (Qfloor a)); lia.
  - apply Qltb_ge in A1.
    assert (B1 : Qltb (b - inject_Z (Qfloor a)) (1 # 2) = false).
    { apply Qltb_ge. lra. }
    rewrite B1.
    destruct (Qltb (1 # 2) (a - inject_Z (Qfloor a))) eqn:A2.
    + apply Qltb_lt in A2.
      assert (B2 : Qltb (1 # 2) (b - inject_Z (Qfloor a)) = true).
      { apply Qltb_lt. lra. }
      rewrite B2. lia.
    + destruct (Qltb (1 # 2) (b - inject_Z (Qfloor a))); [destruct (Z.even _); lia|].
      lia.
Qed.

Lemma nearest_even_comp (a b : Q) : a == b -> nearest_even a = nearest_even b.
Proof.
  intro H. apply Z.le_antisymm; apply nearest_even_mono; rewrite H; apply Qle_refl.
Qed.

Lemma to_multiple_mono (k : Z) (a b : Q) :
  a <= b -> to_multiple k a <= to_multiple k b.
Proof.
  intro H. unfold to_multiple. pose proof (pow2_pos k) as Hk.
  apply Qmult_le_compat_r; [|lra].
  rewrite <- Zle_Qle. apply nearest_even_mono.
  unfold Qdiv. apply Qmult_le_compat_r; [exact H|].
  apply Qlt_le_weak, Qinv_lt_0_compat, Hk.
Qed.

Lemma to_multiple_pow2 (k m : Z) :
  (k <= m)%Z -> to_multiple k (2 ^ m) == 2 ^ m /\ to_multiple k (- 2 ^ m) == - 2 ^ m.
Proof.
  intro H. unfold to_multiple. pose proof (pow2_pos k) as Hk.
  assert (E : 2 ^ m / 2 ^ k == inject_Z (2 ^ (m - k))).
  { rewrite <- pow2_Z by lia. rewrite Qpower_minus by discriminate. reflexivity. }
  assert (E' : - 2 ^ m / 2 ^ k == inject_Z (- 2 ^ (m - k))).
  { rewrite inject_Z_opp, <- E. field. lra. }
  rewrite (nearest_even_comp _ _ E), (nearest_even_comp _ _ E'), !nearest_even_Z.
  rewrite inject_Z_opp, <- !pow2_Z by lia.
  pose proof (pow2_split k m) as S.
  split; [rewrite S; reflexivity|rewrite S; ring].
Qed.

Lemma to_multiple_0 (k : Z) : to_multiple k 0 == 0.
Proof.
  unfold to_multiple.
  assert (E : 0 / 2 ^ k == inject_Z 0).
  { unfold Qdiv. change (inject_Z 0) with 0. ring. }
  rewrite (nearest_even_comp _ _ E), nearest_even_Z. change (inject_Z 0) with 0. ring.
Qed.

Lemma to_multiple_near (k : Z) (a : Q) :
  Qabs (to_multiple k a - a) <= 2 ^ (k - 1).
Proof.
  unfold to_multiple. pose proof (pow2_pos k) as Hk.
  destruct (nearest_even_near (a / 2 ^ k)) as (H1 & H2).
  set (n := inject_Z (nearest_even (a / 2 ^ k))) in *.
  assert (Ea : a == a / 2 ^ k * 2 ^ k) by (field; lra).
  assert (Eh : 2 ^ (k - 1) == (1 # 2) * 2 ^ k).
  { rewrite Qpower_minus by discriminate. change (2 ^ 1) with 2. field. }
  rewrite Eh. apply Qabs_Qle_condition.
  set (x := a / 2 ^ k) in *. rewrite Ea at 1 2. clearbody n x. split; nra.
Qed.

Lemma double_eq (a : Q) :
  ~ a == 0 -> double a = to_multiple (quantum_exponent a) a.
Proof.
  intro H. unfold double.
  destruct (Qeq_bool a 0) eqn:E; [apply Qeq_bool_iff in E; contradiction|reflexivity].
Qed.

Lemma double_0 (a : Q) : a == 0 -> double a = 0.
Proof.
  intro H. unfold double. apply Qeq_bool_iff in H. rewrite H. reflexivity.
Qed.

Lemma double_sign (a : Q) : (0 <= a -> 0 <= double a) /\ (a <= 0 -> double a <= 0).
Proof.
  destruct (Qeq_dec a 0) as [E|E]; [rewrite (double_0 a E); split; intro; apply Qle_refl|].
  rewrite (double_eq a E). split; intro H.
  - rewrite <- (to_multiple_0 (quantum_exponent a)). apply to_multiple_mono, H.
  - rewrite <- (to_multiple_0 (quantum_exponent a)). apply to_multiple_mono, H.
Qed.

Lemma double_mono_pos (a b : Q) : 0 < a -> a <= b -> double a <= double b.
Proof.
  intros Ha Hab.
  rewrite (double_eq a), (double_eq b) by lra.
  unfold quantum_exponent.
  assert (Ea : Qabs a == a) by (apply Qabs_pos; lra).
  assert (Eb : Qabs b == b) by (apply Qabs_pos; lra).
  pose proof (exponent_mono (Qabs a) (Qabs b) ltac:(lra) ltac:(lra)) as He.
  destruct (exponent_spec (Qabs a)) as (_ & Ua); [lra|].
  destruct (exponent_spec (Qabs b)) as (Lb & _); [lra|].
  set (ea := exponent (Qabs a)) in *. set (eb := exponent (Qabs b)) in *.
  destruct (Z.eq_dec (Z.max ea (-1022)) (Z.max eb (-1022))) as [E|E].
  - rewrite E. apply to_multiple_mono, Hab.
  - assert (Hlt : (ea < eb)%Z) by lia.
    assert (Hb : Z.max eb (-1022) = eb) by lia.
    rewrite Hb.
    assert (H1 : a <= 2 ^ eb).
    { pose proof (pow2_le (ea + 1) eb ltac:(lia)). lra. }
    apply Qle_trans with (2 ^ eb).
    + rewrite <- (proj1 (to_multiple_pow2 (Z.max ea (-1022) - 52) eb ltac:(lia))).
      apply to_multiple_mono, H1.
    + rewrite <- (proj1 (to_multiple_pow2 (eb - 52) eb ltac:(lia))) at 1.
      apply to_multiple_mono. lra.
Qed.

Lemma double_mono_neg (a b : Q) : b < 0 -> a <= b -> double a <= double b.
Proof.
  intros Hb Hab.
  rewrite (double_eq a), (double_eq b) by lra.
  unfold quantum_exponent.
  assert (Ea : Qabs a == - a) by (apply Qabs_neg; lra).
  assert (Eb : Qabs b == - b) by (apply Qabs_neg; lra).
  pose proof (exponent_mono (Qabs b) (Qabs a) ltac:(lra) ltac:(lra)) as He.
  destruct (exponent_spec (Qabs b)) as (_ & Ub); [lra|].
  destruct (exponent_spec (Qabs a)) as (La & _); [lra|].
  set (ea := exponent (Qabs a)) in *. set (eb := exponent (Qabs b)) in *.
  destruct (Z.eq_dec (Z.max ea (-1022)) (Z.max eb (-1022))) as [E|E].
  - rewrite E. apply to_multiple_mono, Hab.
  - assert (Hlt : (eb < ea)%Z) by lia.
    assert (Hm : Z.max ea (-1022) = ea) by lia.
    rewrite Hm.
    assert (H1 : - 2 ^ ea <= b).
    { pose proof (pow2_le (eb + 1) ea ltac:(lia)). lra. }
    apply Qle_trans with (- 2 ^ ea).
    + rewrite <- (proj2 (to_multiple_pow2 (ea - 52) ea ltac:(lia))).
      apply to_multiple_mono. lra.
    + rewrite <- (proj2 (to_multiple_pow2 (Z.max eb (-1022) - 52) ea ltac:(lia))) at 1.
      apply to_multiple_mono, H1.
Qed.

(** [double] rounds to nearest. *)
Lemma roundsToNearest_double : roundsToNearest double.
Proof.
  split.
  - intros a b Hab.
    destruct (Qlt_le_dec 0 a) as [Ha|Ha]; [apply double_mono_pos; assumption|].
    destruct (Qlt_le_dec b 0) as [Hb|Hb]; [apply double_mono_neg; assumption|].
    apply Qle_trans with 0; [apply double_sign, Ha|apply double_sign, Hb].
  - intro a.
    destruct (Qeq_dec a 0) as [E|E].
    + rewrite (double_0 a E).
      assert (E0 : 0 - a == 0) by lra. rewrite E0. change (Qabs 0) with 0.
      pose proof (Qabs_nonneg a).
      assert (0 <= unit_roundoff * Qabs a).
      { apply Qmult_le_0_compat; [discriminate|assumption]. }
      assert (0 <= half_least_double) by discriminate. lra.
    + rewrite (double_eq a E).
      eapply Qle_trans; [apply to_multiple_near|].
      unfold quantum_exponent.
      assert (Hpos : 0 < Qabs a).
      { destruct (Qlt_le_dec 0 a) as [H|H].
        - rewrite Qabs_pos; lra.
        - assert (Hneg : a < 0).
          { apply Qle_lteq in H. destruct H as [H|H]; [exact H|contradiction]. }
          rewrite Qabs_neg; lra. }
      destruct (exponent_spec (Qabs a) Hpos) as (L & _).
      destruct (Z.max_spec (exponent (Qabs a)) (-1022)) as [(Hc & ->)|(Hc & ->)].
      * assert (Eh : 2 ^ (-1022 - 52 - 1) == half_least_double) by reflexivity.
        rewrite Eh.
        assert (0 <= unit_roundoff * Qabs a).
        { apply Qmult_le_0_compat; [discriminate|lra]. }
        lra.
      * replace (exponent (Qabs a) - 52 - 1)%Z with (exponent (Qabs a) + - 53)%Z by lia.
        rewrite Qpower_plus by discriminate.
        assert (Eu : 2 ^ (- 53) == unit_roundoff) by reflexivity.
        rewrite Eu.
        assert (0 <= half_least_double) by discriminate.
        assert (2 ^ exponent (Qabs a) * unit_roundoff <= unit_roundoff * Qabs a); [|lra].
        rewrite (Qmult_comm unit_roundoff). apply Qmult_le_compat_r; [exact L|discriminate].
Qed.

End DoubleFacts.

(** ** Scoring *)

Section ScoreFacts.

Local Open Scope Q_scope.

(** A rounded result of size at most [M] is within [unit_roundoff * M],
    and half the least double, of the real one. *)
Lemma rounded_near (fl : Q -> Q) (a M : Q) :
  roundsToNearest fl -> - M <= a -> a <= M ->
  a - (unit_roundoff * M + half_least_double) <= fl a
  /\ fl a <= a + (unit_roundoff * M + half_least_double).
Proof.
  intros (_ & Hnear) Hlo Hhi.
  assert (Ha : Qabs a <= M) by (apply Qabs_Qle_condition; split; assumption).
  specialize (Hnear a). apply Qabs_Qle_condition in Hnear.
  assert (Hu : unit_roundoff * Qabs a <= unit_roundoff * M).
  { apply Qmult_le_l; [reflexivity|exact Ha]. }
  lra.
Qed.

(** The rounded tenths of a second left, [double (double (m - t) * 10)]:
    they keep the order, and are within a hundredth of the real ones. *)
Lemma tenths_monotone (a b : Q) :
  a <= b -> double (double a * 10) <= double (double b * 10).
Proof.
  intro Hab. destruct roundsToNearest_double as (Hmono & _).
  apply Hmono. pose proof (Hmono a b Hab). lra.
Qed.

Lemma tenths_near (a : Q) :
  0 <= a -> a <= inject_Z (2 ^ 40) ->
  a * 10 - (1 # 100) <= double (double a * 10)
  /\ double (double a * 10) <= a * 10 + (1 # 100).
Proof.
  intros H0 Hmax.
  change (inject_Z (2 ^ 40)) with (1099511627776 # 1) in Hmax.
  destruct (rounded_near double a (1099511627776 # 1) roundsToNearest_double)
    as (L1 & U1); [lra|exact Hmax|].
  destruct (rounded_near double (double a * 10) (17592186044416 # 1)
              roundsToNearest_double) as (L2 & U2);
    [unfold unit_roundoff, half_least_double in *; lra
    |unfold unit_roundoff, half_least_double in *; lra|].
  unfold unit_roundoff, half_least_double in *. split; lra.
Qed.

Lemma calculateScore_nonneg (position totalPlayers : Z) (finishTime matchLength : Q) :
  (0 <= calculateScore position totalPlayers finishTime matchLength)%Z.
Proof. unfold calculateScore. lia. Qed.

(** C7 (the claim fails): with the place fixed, finishing in 50 s
    instead of 60 s of a 45 s match gives the same score, 800, since the
    time bonus is 0 for both.  Under the match length a tenth of a second
    is not enough either: the doubles 0.800000000000001 and
    0.9000000000000011 are more than 0.1 apart and give the same score in
    a 45 s match, 1241, since both differences round to 441 tenths. *)
Lemma faster_finish_same_score :
  (50 < 60
   /\ calculateScore 1 8 50 45 = 800%Z
   /\ calculateScore 1 8 60 45 = 800%Z
   /\ ~ (calculateScore 1 8 60 45 < calculateScore 1 8 50 45)%Z)
  /\ (double 0.800000000000001 + 0.1 <= double 0.9000000000000011
      /\ double 0.9000000000000011 <= 45
      /\ calculateScore 1 8 (double 0.800000000000001) 45 = 1241%Z
      /\ calculateScore 1 8 (double 0.9000000000000011) 45 = 1241%Z).
Proof.
  split.
  - split; [reflexivity|]. split; [vm_compute; reflexivity|].
    split; [vm_compute; reflexivity|]. vm_compute. discriminate.
  - split; [vm_compute; discriminate|]. split; [vm_compute; discriminate|].
    split; vm_compute; reflexivity.
Qed.

(** C7 (amended): with the rounding of the doubles, the score is never
    negative; among the places 1 to [totalPlayers] a better place gives a
    strictly higher score; a faster finish never gives a lower score, and
    gives a strictly higher one when it is faster by at least 0.11 s and
    at least 0.11 s, and at most 2^40 s, under the match length. *)
Theorem calculateScore_order (p1 p2 totalPlayers : Z) (t1 t2 matchLength : Q) :
  (0 <= calculateScore p1 totalPlayers t1 matchLength)%Z
  /\ ((1 <= p1)%Z -> (p1 < p2)%Z -> (p2 <= totalPlayers)%Z ->
      (calculateScore p2 totalPlayers t1 matchLength
       < calculateScore p1 totalPlayers t1 matchLength)%Z)
  /\ (t1 <= t2 ->
      (calculateScore p1 totalPlayers t2 matchLength
       <= calculateScore p1 totalPlayers t1 matchLength)%Z)
  /\ (t1 + 0.11 <= t2 -> t1 + 0.11 <= matchLength ->
      matchLength - t1 <= inject_Z (2 ^ 40) ->
      (calculateScore p1 totalPlayers t2 matchLength
       < calculateScore p1 totalPlayers t1 matchLength)%Z).
Proof.
  split; [apply calculateScore_nonneg|]. split; [|split].
  - intros H1 H2 H3. unfold calculateScore. nia.
  - intro Hle. unfold calculateScore.
    assert (H : (Qfloor (double (double (matchLength - t2) * 10)%Q)
                 <= Qfloor (double (double (matchLength - t1) * 10)%Q))%Z).
    { apply Qfloor_resp_le. apply tenths_monotone. lra. }
    lia.
  - intros Hstep Hunder Hmax. unfold calculateScore.
    set (c1 := double (double (matchLength - t1) * 10)).
    set (c2 := double (double (matchLength - t2) * 10)).
    set (c := double (double (matchLength - t1 - 0.11) * 10)).
    assert (H2 : c2 <= c).
    { apply tenths_monotone. lra. }
    destruct (tenths_near (matchLength - t1)) as (L1 & _); [lra|exact Hmax|].
    destruct (tenths_near (matchLength - t1 - 0.11)) as (_ & U); [lra|lra|].
    fold c1 in L1. fold c in U.
    assert (H : (Qfloor c2 + 1 <= Qfloor c1)%Z).
    { rewrite <- (Qfloor_Z (Qfloor c2 + 1)).
      apply Qfloor_resp_le. rewrite inject_Z_plus.
      pose proof (Qfloor_le c2) as Hf.
      change (inject_Z 1) with 1. lra. }
    assert (H1 : (1 <= Qfloor c1)%Z).
    { rewrite <- (Qfloor_Z 1). apply Qfloor_resp_le. change (inject_Z 1) with 1. lra. }
    lia.
Qed.

Lemma calculateScore_order_witness :
  (calculateScore 2 8 30 45 < calculateScore 1 8 30 45)%Z
  /\ (calculateScore 1 8 31 45 < calculateScore 1 8 30 45)%Z.
Proof.
  destruct (calculateScore_order 1 2 8 30 31 45) as (_ & Hplace & _ & Htime).
  split.
  - apply Hplace; lia.
  - apply Htime; unfold Qle; simpl; lia.
Defined.

End ScoreFacts.

(** ** Physics *)

Section EngineFacts.

Local Open Scope Q_scope.

(** The timers leave position and speed alone. *)
Lemma updateTimers_kinematics (p : PlayerState) (dt : Q) :
  x (updateTimers p dt) = x p
  /\ lateralSpeed (updateTimers p dt) = lateralSpeed p
  /\ forwardSpeed (updateTimers p dt) = forwardSpeed p
  /\ distanceTraveled (updateTimers p dt) = distanceTraveled p
  /\ finished (updateTimers p dt) = finished p.
Proof.
  unfold updateTimers.
  repeat match goal with
         | |- context [if ?b then _ else _] => destruct b
         end; cbn; auto.
Qed.

Lemma updateTimers_stunTimer (p : PlayerState) (dt : Q) :
  stunTimer (updateTimers p dt) =
  if Qltb 0 (stunTimer p)
  then (if Qltb (stunTimer p - dt) 0 then 0 else stunTimer p - dt)
  else stunTimer p.
Proof.
  unfold updateTimers.
  destruct (Qltb 0 (stunTimer p)) eqn:E0; cbn [stunTimer set_stunTimer];
    [destruct (Qltb (stunTimer p - dt) 0) eqn:E1|];
    repeat match goal with
           | |- context [if ?b then _ else _] => destruct b
           end; cbn; auto.
Qed.

(** C4 (the claim fails): a stun with 0.01 s left ends within the tick of
    1/60 s, and the player steers left in that same tick: [x] goes from
    125 to 374/3. *)
Lemma stun_ending_moves :
  finished stunEnding = false
  /\ 0 < stunTimer stunEnding
  /\ x stunEnding == 125
  /\ x (updatePlayerPhysics stunEnding steerLeft defaultSegment PHYSICS.FIXED_DT) == 374 # 3
  /\ ~ x (updatePlayerPhysics stunEnding steerLeft defaultSegment PHYSICS.FIXED_DT)
       == x stunEnding.
Proof.
  split; [reflexivity|]. split; [reflexivity|]. split; [reflexivity|].
  split; [vm_compute; reflexivity|].
  intro H. vm_compute in H. discriminate H.
Qed.

(** C4 (amended): a player that is not finished and whose stun outlasts
    the tick ([stunTimer > dt], with [stunTimer > 0]) is not moved by the
    tick, whatever the input, the segment and its lateral speed: [x],
    the speeds and the distance are unchanged, and the stun timer has
    gone down by [dt]. *)
Theorem stun_freezes_player (player : PlayerState) (input : InputState)
    (segment : TrackSegment) (dt : Q) :
  finished player = false ->
  0 < stunTimer player ->
  dt < stunTimer player ->
  let player' := updatePlayerPhysics player input segment dt in
  x player' = x player
  /\ lateralSpeed player' = lateralSpeed player
  /\ forwardSpeed player' = forwardSpeed player
  /\ distanceTraveled player' = distanceTraveled player
  /\ stunTimer player' = stunTimer player - dt.
Proof.
  intros Hfin Hpos Hdt. unfold updatePlayerPhysics. rewrite Hfin.
  pose proof (updateTimers_stunTimer player dt) as Hs.
  pose proof (updateTimers_kinematics player dt) as (Hx & Hl & Hf & Hd & _).
  assert (E0 : Qltb 0 (stunTimer player) = true) by (apply Qltb_lt; assumption).
  assert (E1 : Qltb (stunTimer player - dt) 0 = false) by (apply Qltb_ge; lra).
  rewrite E0, E1 in Hs.
  assert (E2 : Qltb 0 (stunTimer (updateTimers player dt)) = true).
  { rewrite Hs. apply Qltb_lt. lra. }
  cbv zeta. rewrite E2. auto.
Qed.

Lemma stun_freezes_player_witness :
  x (updatePlayerPhysics stunnedInLane0 steerLeft defaultSegment PHYSICS.FIXED_DT)
  = x stunnedInLane0.
Proof.
  apply (stun_freezes_player stunnedInLane0 steerLeft defaultSegment PHYSICS.FIXED_DT);
    reflexivity.
Defined.

(** *** Lane bounds *)

Lemma bounds_ordered (n : Z) : (1 <= n)%Z -> lowerBound n <= upperBound n.
Proof.
  intro H. unfold lowerBound, upperBound, PHYSICS.SLIDE_WIDTH, PHYSICS.LANE_WIDTH.
  assert (1 <= inject_Z n) by (change 1 with (inject_Z 1); rewrite <- Zle_Qle; lia).
  unfold Qdiv. change (/ 2) with (1 # 2). lra.
Qed.

(** The clamp of [updatePlayerPhysics] puts [x] within the bounds. *)
Lemma clamp_inLaneBounds (n : Z) (v : Q) :
  (1 <= n)%Z -> inLaneBounds n (Qmax (lowerBound n) (Qmin (upperBound n) v)).
Proof.
  intro H. pose proof (bounds_ordered n H) as Hord.
  destruct (Qmin_spec (upperBound n) v) as (Hm1 & Hm2 & Hm3).
  destruct (Qmax_spec (lowerBound n) (Qmin (upperBound n) v)) as (HM1 & HM2 & HM3).
  split; [assumption|]. destruct HM3 as [E|E]; rewrite E; assumption.
Qed.

(** A player that the tick moves ends within the bounds of the segment of
    that tick. *)
Lemma movePlayer_inLaneBounds (p : PlayerState) (input : InputState)
    (segment : TrackSegment) (dt : Q) :
  (1 <= lanes segment)%Z ->
  inLaneBounds (lanes segment) (x (movePlayer p input segment dt)).
Proof.
  intro H. unfold movePlayer. cbv zeta. cbn [x set_lane].
  match goal with
  | |- inLaneBounds _ (x (set_x _ ?v)) => change (x (set_x _ v)) with v
  end.
  apply (clamp_inLaneBounds (lanes segment)). assumption.
Qed.

(** One tick either moves the player, and [x] is within the bounds of the
    segment, or leaves [x] as it was. *)
Lemma updatePlayerPhysics_x (p : PlayerState) (input : InputState)
    (segment : TrackSegment) (dt : Q) :
  (1 <= lanes segment)%Z ->
  inLaneBounds (lanes segment) (x (updatePlayerPhysics p input segment dt))
  \/ x (updatePlayerPhysics p input segment dt) = x p.
Proof.
  intro H. unfold updatePlayerPhysics.
  destruct (finished p); [right; reflexivity|].
  destruct (Qltb 0 (stunTimer (updateTimers p dt))).
  - right. apply updateTimers_kinematics.
  - left. apply movePlayer_inLaneBounds. assumption.
Qed.

Lemma applyEvent_x (p : PlayerState) (e : Event) (n : Z) :
  (1 <= n)%Z -> onLanes n e ->
  inLaneBounds n (x (applyEvent p e)) \/ x (applyEvent p e) = x p.
Proof.
  intros Hn He. destruct e as [input segment dt|other|other|type|type]; cbn [applyEvent].
  - cbn in He. subst n. apply updatePlayerPhysics_x. assumption.
  - right. unfold resolveCollision.
    destruct (hasShield p && hasShield other); [reflexivity|].
    cbn [fst]. destruct (negb (hasShield p)); reflexivity.
  - right. unfold resolveCollision.
    destruct (hasShield other && hasShield p); [reflexivity|].
    cbn [snd]. destruct (negb (hasShield p)); reflexivity.
  - right. unfold applyObstacleEffect.
    destruct (hasShield p); [reflexivity|]. destruct type; reflexivity.
  - right. destruct type; reflexivity.
Qed.

(** C3 (the claim fails): a player at [x = 25], stunned by a collision,
    whose tick is on the three-lane segment: the stun returns before the
    clamp, and [x] stays at 25, below the bound 60 of three lanes. *)
Lemma stunned_player_outside_narrow_bounds :
  inLaneBounds 5 (x stunnedInLane0)
  /\ lanes narrowSegment = 3%Z
  /\ lowerBound 3 == 60
  /\ x (updatePlayerPhysics stunnedInLane0 steerLeft narrowSegment PHYSICS.FIXED_DT) == 25
  /\ ~ inLaneBounds (lanes narrowSegment)
         (x (updatePlayerPhysics stunnedInLane0 steerLeft narrowSegment PHYSICS.FIXED_DT)).
Proof.
  split; [split; vm_compute; discriminate|].
  split; [reflexivity|]. split; [reflexivity|]. split; [reflexivity|].
  intros [H _]. vm_compute in H. apply H. reflexivity.
Qed.

(** C3 (amended): on segments of [n] lanes, [n] at least 1: a tick that
    moves the player (not finished, not stunned once the timers are
    updated) leaves [x] within the bounds for [n] lanes, wherever [x] was;
    a tick that does not move the player, a collision, an obstacle and a
    powerup leave [x] as it is.  So a player whose [x] is within the
    bounds for [n] lanes stays within them through any sequence of ticks,
    with any inputs, on segments of [n] lanes, with collisions, obstacles
    and powerups in between. *)
Theorem lane_bounds_invariant (n : Z) (player : PlayerState) (events : list Event) :
  (1 <= n)%Z ->
  (forall input segment dt,
      lanes segment = n ->
      finished player = false ->
      stunTimer (updateTimers player dt) <= 0 ->
      inLaneBounds n (x (updatePlayerPhysics player input segment dt)))
  /\ (inLaneBounds n (x player) ->
      Forall (onLanes n) events ->
      inLaneBounds n (x (run player events))).
Proof.
  intro Hn. split.
  - intros input segment dt Hl Hfin Hstun. unfold updatePlayerPhysics.
    rewrite Hfin. apply Qltb_ge in Hstun. rewrite Hstun, <- Hl.
    apply movePlayer_inLaneBounds. rewrite Hl. exact Hn.
  - intros Hx Hev. revert player Hx.
    induction Hev as [|e events He _ IH]; intros player Hx; [exact Hx|].
    unfold run. cbn [fold_left]. apply IH.
    destruct (applyEvent_x player e n Hn He) as [H|H]; [exact H|].
    rewrite H. exact Hx.
Qed.

Lemma lane_bounds_invariant_witness :
  inLaneBounds 5
    (x (run stunnedInLane0
          [Tick steerLeft defaultSegment PHYSICS.FIXED_DT;
           CollidedBy playerA;
           Tick steerLeft defaultSegment PHYSICS.FIXED_DT;
           Obstacle bumper])).
Proof.
  apply lane_bounds_invariant.
  - lia.
  - split; vm_compute; discriminate.
  - repeat constructor.
Defined.

(** *** Collisions *)






End EngineFacts.

(** ** Track generation *)

Section TrackFacts.

Local Open Scope Q_scope.

Variable mode : GameMode.

(** Every generated segment is at least 150 and at most 500 long. *)
Lemma generateSegment_length (g : Rng.SeededRNG) :
  (150 <= seg_length (fst (generateSegment mode g)) <= 500)%Z.
Proof.
  unfold generateSegment, Rng.bind.
  destruct (Rng.nextInt 0 (length_Z (segmentTypes mode)) g) as [ti g1].
  pose proof (nextInt_range 150 500 g1) as Hlen.
  destruct (Rng.nextInt 150 500 g1) as [len g2]. cbn [fst] in Hlen.
  repeat match goal with
         | |- context [let (_, _) := ?d in _] => destruct d
         end.
  cbn. lia.
Qed.

Lemma totalLength_app (a b : list TrackSegment) :
  totalLength (a ++ b) = (totalLength a + totalLength b)%Z.
Proof.
  unfold totalLength. induction a as [|s a IH]; cbn [app fold_right]; [lia|].
  rewrite IH. lia.
Qed.

(** The loop with enough turns left: it ends, at or beyond the target,
    having appended segments of length 150 or more. *)
Lemma generateLoop_ends (targetLength : Q) (fuel : nat) :
  forall (currentLength : Z) (segments : list TrackSegment) (g : Rng.SeededRNG),
    (Qceiling targetLength - currentLength <= 150 * Z.of_nat fuel)%Z ->
    exists added g',
      generateLoop mode fuel targetLength currentLength segments g
      = Some (segments ++ added, (currentLength + totalLength added)%Z, g')
      /\ targetLength <= inject_Z (currentLength + totalLength added)
      /\ Forall (fun s => (150 <= seg_length s)%Z) added.
Proof.
  induction fuel as [|fuel IH]; intros currentLength segments g Hfuel.
  - exists [], g. cbn [generateLoop].
    destruct (Qltb (inject_Z currentLength) targetLength) eqn:E.
    + exfalso. apply Qltb_lt in E.
      pose proof (Qle_ceiling targetLength) as Hc.
      assert (inject_Z currentLength < inject_Z (Qceiling targetLength)) as Hlt by lra.
      rewrite <- Zlt_Qlt in Hlt. lia.
    + apply Qltb_ge in E. rewrite List.app_nil_r. cbn [totalLength fold_right].
      rewrite Z.add_0_r. auto.
  - cbn [generateLoop].
    destruct (Qltb (inject_Z currentLength) targetLength) eqn:E.
    + pose proof (generateSegment_length g) as Hlen.
      destruct (generateSegment mode g) as [seg g1]. cbn [fst] in Hlen.
      destruct (IH (currentLength + seg_length seg)%Z (segments ++ [seg]) g1)
        as (added & g' & Hrun & Htarget & Hall); [lia|].
      exists (seg :: added), g'. rewrite Hrun.
      replace (totalLength (seg :: added)) with (seg_length seg + totalLength added)%Z
        by reflexivity.
      rewrite <- List.app_assoc, Z.add_assoc. cbn [app].
      split; [reflexivity|]. split; [assumption|].
      constructor; [lia|assumption].
    + apply Qltb_ge in E. exists [], g. rewrite List.app_nil_r. cbn [totalLength fold_right].
      rewrite Z.add_0_r. auto.
Qed.


Lemma turns_enough (settings : GameSettings) :
  (Qceiling (matchLength settings * 80) - 300 <= 150 * Z.of_nat (turns settings))%Z.
Proof.
  unfold turns. set (c := Qceiling (matchLength settings * 80)).
  destruct (Z.le_gt_cases 0 c) as [H|H].
  - rewrite Z2Nat.id by (apply Z.add_nonneg_nonneg; [apply Z.div_pos|]; lia).
    pose proof (Z.mod_pos_bound c 150 ltac:(lia)).
    pose proof (Z.div_mod c 150 ltac:(lia)). lia.
  - lia.
Qed.


End TrackFacts.


(** ** The bot controller *)

Section BotFacts.

Import Profiles BotController.
Local Open Scope Q_scope.

(** Jitter and mistakes touch the steering only. *)
Lemma humanize_jump (p : BotProfile) (d : InputState) (g : Rng.SeededRNG) :
  jump (fst (humanize p d g)) = jump d.
Proof.
  unfold humanize, Rng.bind, Rng.ret. branches; reflexivity.
Qed.

Lemma updateState_keeps (s : Store) (c : t) bot players seg g :
  let c' := fst (fst (updateState s c bot players seg g)) in
  reactionBuffer c' = reactionBuffer c /\ profile c' = profile c.
Proof.
  unfold updateState, Rng.bind, Rng.ret. cbv zeta. branches; cbn; auto.
Qed.

Lemma generateInput_keeps (s : Store) (c : t) bot players seg g :
  let c' := snd (fst (generateInput s c bot players seg g)) in
  reactionBuffer c' = reactionBuffer c /\ profile c' = profile c.
Proof.
  unfold generateInput, raceInput, Rng.bind, Rng.ret. cbv zeta.
  destruct (state c); [destruct (seg_type seg) as [[]|]|..]; branches; cbn; auto.
Qed.

(** One call of [update] on a controller whose buffer starts with [d]:
    the input returned is [d] after the jitter and the mistakes of the
    call, and the buffer has lost [d] and gained one input at its end. *)
Lemma update_delays (s : Store) (c : t) (sc : Scene) g d rest :
  reactionBuffer c = d :: rest ->
  let r := update s c (scene_bot sc) (scene_players sc) (scene_segment sc) g in
  fst (fst (fst r))
  = fst (humanize (fst (atJitter s c sc g)) d (snd (atJitter s c sc g)))
  /\ (exists raw, reactionBuffer (snd (fst (fst r))) = rest ++ [raw])
  /\ profile (snd (fst (fst r))) = profile c.
Proof.
  intro Hbuf. cbv zeta. unfold update, atJitter, Rng.bind.
  match goal with
  | |- context [updateState s ?c0 ?bot ?players ?seg g] =>
      pose proof (updateState_keeps s c0 bot players seg g) as Hu;
      destruct (updateState s c0 bot players seg g) as [[c1 s1] g1]
  end.
  cbn [fst snd reactionBuffer profile] in Hu. destruct Hu as [Hb1 Hp1].
  pose proof (generateInput_keeps s1 c1 (scene_bot sc) (scene_players sc)
                (scene_segment sc) g1) as Hg.
  destruct (generateInput s1 c1 (scene_bot sc) (scene_players sc) (scene_segment sc) g1)
    as [[raw c2] g2].
  cbn [fst snd] in Hg. destruct Hg as [Hb2 Hp2].
  rewrite Hb2, Hb1, Hbuf. cbn [app profile fst snd].
  destruct (humanize (s1 (profile c2)) d g2) as [out g3].
  unfold Rng.ret. cbn [fst snd reactionBuffer profile].
  split; [reflexivity|]. split; [exists raw; reflexivity|]. congruence.
Qed.

(** C9 (the claim fails): the scenario of the controller's tests, seed
    42, the casual profile, whose reaction delay is 8.  The first input
    returned steers left: the neutral input leaves the buffer, the
    jitter draw (the eighth draw of the call, 0.118 < 0.15) fires and the
    next draw (0.874 > 0.5) flips [left]. *)
Lemma first_input_steers_left :
  reactionDelay (BOT_PROFILES casual) = 8%Z
  /\ drive BOT_PROFILES (new BOT_PROFILES casual) [testScene casual] (Rng.mk 42)
     = [mkInput true false false]
  /\ mkInput true false false <> neutral.
Proof.
  split; [reflexivity|]. split; [vm_compute; reflexivity|]. discriminate.
Qed.

(** *** The shared profile objects *)

(** C2 (the code at the failing input): two controllers built for the
    profile [adaptive] hold the same object of [BOT_PROFILES].  One call
    of [update] on the first, with the human player 200 ahead of its bot,
    raises [targetSpeedFactor] from 0.8 to 0.9 and [riskTolerance] from
    0.5 to 0.6 in that object, and the second controller, which was never
    updated, reports the raised values. *)
Theorem adaptive_tuning_reaches_other_controller :
  let first := new BOT_PROFILES adaptive in
  let second := new BOT_PROFILES adaptive in
  let store' :=
    snd (fst (update BOT_PROFILES first (scene_bot behindScene)
                (scene_players behindScene) (scene_segment behindScene) (Rng.mk 42))) in
  targetSpeedFactor (getProfile BOT_PROFILES second) == 0.8
  /\ riskTolerance (getProfile BOT_PROFILES second) == 0.5
  /\ targetSpeedFactor (getProfile store' second) == 0.9
  /\ riskTolerance (getProfile store' second) == 0.6
  /\ getProfile store' second <> getProfile BOT_PROFILES second.
Proof.
  cbv zeta.
  split; [reflexivity|]. split; [reflexivity|].
  split; [vm_compute; reflexivity|]. split; [vm_compute; reflexivity|].
  intro H. apply (f_equal targetSpeedFactor) in H. vm_compute in H. discriminate H.
Qed.

(** *** What the tuning can reach *)

(** The fields of a profile other than the two that are tuned. *)
Lemma untuned_fields (p q : BotProfile) :
  untuned p = untuned q ->
  boostSeekRange p = boostSeekRange q
  /\ optimalLineWeight p = optimalLineWeight q
  /\ collisionAggression p = collisionAggression q
  /\ collisionAvoidance p = collisionAvoidance q
  /\ jumpFrequency p = jumpFrequency q
  /\ jumpTimingPrecision p = jumpTimingPrecision q
  /\ steeringJitter p = steeringJitter q
  /\ reactionDelay p = reactionDelay q
  /\ mistakeChance p = mistakeChance q
  /\ adaptiveness p = adaptiveness q.
Proof.
  intro H. destruct p, q. unfold untuned in H. cbn in H.
  injection H as -> -> -> -> -> -> -> -> -> -> -> -> ->. cbn. repeat split.
Qed.

Lemma laneScores_untuned (p q : BotProfile) (segment : TrackSegment) (n : nat) :
  untuned p = untuned q ->
  forall i scores g,
    laneScores p segment n i scores g = laneScores q segment n i scores g.
Proof.
  intro H. destruct (untuned_fields p q H) as (Hb & Ho & _ & Hc & _).
  induction n as [|n IH]; intros i scores g; cbn [laneScores]; [reflexivity|].
  cbv zeta. unfold Rng.bind. rewrite Hb, Ho, Hc.
  destruct (Rng.nextFloat (-5) 5 g) as [r g']. apply IH.
Qed.

Lemma raceInput_untuned (c : t) (p q : BotProfile) bot segment g :
  untuned p = untuned q ->
  raceInput c p bot segment g = raceInput c q bot segment g.
Proof.
  intro H. destruct (untuned_fields p q H) as (_ & _ & _ & _ & Hf & Hj & _).
  unfold raceInput, scoreLanes, Rng.bind.
  rewrite (laneScores_untuned p q segment _ H), Hf, Hj. reflexivity.
Qed.

Lemma chaseInput_untuned (p q : BotProfile) bot players g :
  untuned p = untuned q ->
  chaseInput p bot players g = chaseInput q bot players g.
Proof.
  intro H. destruct (untuned_fields p q H) as (_ & _ & Ha & _).
  unfold chaseInput. rewrite Ha. reflexivity.
Qed.

Lemma humanize_untuned (p q : BotProfile) d g :
  untuned p = untuned q -> humanize p d g = humanize q d g.
Proof.
  intro H. destruct (untuned_fields p q H) as (_ & _ & _ & _ & _ & _ & Hs & _ & Hm & _).
  unfold humanize. rewrite Hs, Hm. reflexivity.
Qed.

Lemma BotProfileType_eqb_eq (a b : BotProfileType) :
  BotProfileType_eqb a b = true <-> a = b.
Proof. destruct a, b; cbn; split; intro H; try reflexivity; discriminate H. Qed.

(** The adaptive adjustment writes the two tuned fields only. *)
Lemma adapt_untuned (s : Store) (c : t) bot players (k : BotProfileType) :
  untuned (adapt s c bot players k) = untuned (s k).
Proof.
  unfold adapt.
  destruct (Qltb 0.5 (adaptiveness (s (profile c)))); [|reflexivity].
  destruct (find (fun p => negb (isBot p)) players) as [human|]; [|reflexivity].
  destruct (Qltb (distanceTraveled bot + 100) (distanceTraveled human)); [|reflexivity].
  unfold write.
  assert (Er : BotProfileType_eqb (profile c) (profile c) = true)
    by (apply BotProfileType_eqb_eq; reflexivity).
  rewrite Er.
  destruct (BotProfileType_eqb (profile c) k) eqn:E; [|reflexivity].
  apply BotProfileType_eqb_eq in E. subst k.
  destruct (s (profile c)). reflexivity.
Qed.

Lemma adapt_sameButTuning (s1 s2 : Store) (c : t) bot players :
  sameButTuning s1 s2 -> sameButTuning (adapt s1 c bot players) (adapt s2 c bot players).
Proof. intros H k. rewrite !adapt_untuned. apply H. Qed.

(** No transition enters [avoidObstacle]. *)
Lemma updateState_state (s : Store) (c : t) bot players seg g :
  state c <> avoidObstacle ->
  state (fst (fst (updateState s c bot players seg g))) <> avoidObstacle.
Proof.
  intro H. unfold updateState, Rng.bind, Rng.ret. cbv zeta.
  branches; cbn; solve [assumption | discriminate].
Qed.

Lemma generateInput_state (s : Store) (c : t) bot players seg g :
  state (snd (fst (generateInput s c bot players seg g))) = state c.
Proof.
  unfold generateInput, raceInput, Rng.bind, Rng.ret. cbv zeta.
  destruct (state c) eqn:E; [destruct (seg_type seg) as [[]|]|..]; branches; cbn; auto.
Qed.

Lemma updateState_sameButTuning (s1 s2 : Store) (c : t) bot players seg g :
  sameButTuning s1 s2 ->
  fst (fst (updateState s1 c bot players seg g))
  = fst (fst (updateState s2 c bot players seg g))
  /\ snd (updateState s1 c bot players seg g) = snd (updateState s2 c bot players seg g)
  /\ sameButTuning (snd (fst (updateState s1 c bot players seg g)))
                   (snd (fst (updateState s2 c bot players seg g))).
Proof.
  intro H. unfold updateState.
  destruct (Qltb 0 (stunTimer bot)); [cbn; auto|].
  cbv zeta.
  pose proof (adapt_sameButTuning s1 s2 c bot players H) as Ha.
  assert (Hagg : forall k, collisionAggression (adapt s1 c bot players k)
                           = collisionAggression (adapt s2 c bot players k)).
  { intro k. apply (untuned_fields _ _ (Ha k)). }
  generalize dependent (adapt s1 c bot players).
  generalize dependent (adapt s2 c bot players).
  intros a2 a1 Ha Hagg.
  unfold Rng.bind, Rng.ret. rewrite !Hagg.
  branches; cbn; auto.
Qed.

Lemma generateInput_sameButTuning (s1 s2 : Store) (c : t) bot players seg g :
  sameButTuning s1 s2 ->
  state c <> avoidObstacle ->
  generateInput s1 c bot players seg g = generateInput s2 c bot players seg g.
Proof.
  intros H Hst. unfold generateInput.
  destruct (state c); try reflexivity.
  - apply raceInput_untuned, H.
  - contradiction.
  - unfold Rng.bind. rewrite (chaseInput_untuned _ _ bot players g (H (profile c))).
    reflexivity.
Qed.

(** One call of [update] in two stores that differ in the tuned fields
    only: the same input, the same controller, the same generator, and
    stores that still differ in the tuned fields only. *)
Lemma update_sameButTuning (s1 s2 : Store) (c : t) bot players seg g :
  sameButTuning s1 s2 ->
  state c <> avoidObstacle ->
  exists input c' g' t1 t2,
    update s1 c bot players seg g = (input, c', t1, g')
    /\ update s2 c bot players seg g = (input, c', t2, g')
    /\ sameButTuning t1 t2
    /\ state c' <> avoidObstacle.
Proof.
  intros H Hst. unfold update, Rng.bind.
  match goal with
  | |- context [updateState s1 ?c0 bot players seg g] =>
      pose proof (updateState_sameButTuning s1 s2 c0 bot players seg g H) as (Hc & Hg & Hs);
      pose proof (updateState_state s1 c0 bot players seg g Hst) as Hst1;
      destruct (updateState s1 c0 bot players seg g) as [[c1 t1] g1];
      destruct (updateState s2 c0 bot players seg g) as [[c1' t2] g1']
  end.
  cbn [fst snd] in Hc, Hg, Hs, Hst1. subst c1' g1'.
  rewrite <- (generateInput_sameButTuning t1 t2 c1 bot players seg g1 Hs Hst1).
  pose proof (generateInput_state t1 c1 bot players seg g1) as Hst2.
  destruct (generateInput t1 c1 bot players seg g1) as [[raw c2] g2].
  cbn [fst snd] in Hst2.
  destruct (reactionBuffer c2 ++ [raw]) as [|d rest].
  - exists raw, c2, g2, t1, t2. unfold Rng.ret. repeat split; congruence.
  - cbn [profile].
    rewrite <- (humanize_untuned _ _ d g2 (Hs (profile c2))).
    destruct (humanize (t1 (profile c2)) d g2) as [out g3].
    eexists out, _, g3, t1, t2. unfold Rng.ret.
    split; [reflexivity|]. split; [reflexivity|]. split; [assumption|].
    cbn [state]. congruence.
Qed.

Lemma drive_sameButTuning (scenes : list Scene) :
  forall (s1 s2 : Store) (c : t) (g : Rng.SeededRNG),
    sameButTuning s1 s2 ->
    state c <> avoidObstacle ->
    drive s1 c scenes g = drive s2 c scenes g.
Proof.
  induction scenes as [|sc scenes IH]; intros s1 s2 c g H Hst; [reflexivity|].
  cbn [drive].
  destruct (update_sameButTuning s1 s2 c (scene_bot sc) (scene_players sc)
              (scene_segment sc) g H Hst)
    as (input & c' & g' & t1 & t2 & E1 & E2 & Hs & Hst').
  rewrite E1, E2. f_equal. apply IH; assumption.
Qed.

(** The calls of [update] tune the store, and nothing else of it. *)
Lemma driveStore_sameButTuning (scenes : list Scene) :
  forall (s : Store) (c : t) (g : Rng.SeededRNG),
    sameButTuning s (driveStore s c scenes g).
Proof.
  induction scenes as [|sc scenes IH]; intros s c g k; [reflexivity|].
  cbn [driveStore]. unfold update, Rng.bind.
  match goal with
  | |- context [updateState s ?c0 ?b ?ps ?sg g] =>
      assert (Hu : untuned (snd (fst (updateState s c0 b ps sg g)) k) = untuned (s k));
      [|destruct (updateState s c0 b ps sg g) as [[c1 s1] g1]]
  end.
  { unfold updateState. destruct (Qltb 0 (stunTimer (scene_bot sc))); [reflexivity|].
    cbv zeta. unfold Rng.bind, Rng.ret. branches; cbn [fst snd]; apply adapt_untuned. }
  cbn [fst snd] in Hu.
  destruct (generateInput s1 c1 (scene_bot sc) (scene_players sc) (scene_segment sc) g1)
    as [[raw c2] g2].
  destruct (reactionBuffer c2 ++ [raw]) as [|d rest].
  - unfold Rng.ret. rewrite <- Hu. apply IH.
  - destruct (humanize _ d g2) as [out g3]. unfold Rng.ret.
    rewrite <- Hu. apply IH.
Qed.

(** The inputs of C2, on the code as it is: a controller built and driven
    after another controller of the same profile name has been driven
    (and has tuned the shared profile object) returns the inputs it would
    have returned without it, for the same scenario and the same
    generator: the two fields that are tuned are read by
    [avoidObstacleInput] only, and no transition enters that state. *)
Lemma inputs_unchanged_by_earlier_tuning (s : Store) (profileType : BotProfileType)
    (scenes : list Scene) (g : Rng.SeededRNG) :
  let tuned := driveStore s (new s profileType) scenes g in
  drive tuned (new tuned profileType) scenes g = drive s (new s profileType) scenes g.
Proof.
  cbv zeta.
  pose proof (driveStore_sameButTuning scenes s (new s profileType) g) as H.
  assert (E : new (driveStore s (new s profileType) scenes g) profileType
              = new s profileType).
  { unfold new. f_equal. f_equal. f_equal. symmetry.
    apply (untuned_fields _ _ (H profileType)). }
  rewrite E. symmetry. apply drive_sameButTuning; [assumption|discriminate].
Qed.

(** *** The reaction delay *)

(** The profile object that a call of [update] reads for the jitter is
    the one of the controller, tuned or not. *)
Lemma atJitter_untuned (s : Store) (c : t) (sc : Scene) (g : Rng.SeededRNG) :
  untuned (fst (atJitter s c sc g)) = untuned (s (profile c)).
Proof.
  unfold atJitter.
  match goal with
  | |- context [updateState s ?c0 ?bot ?players ?seg g] =>
      pose proof (updateState_keeps s c0 bot players seg g) as Hk;
      assert (Hu : forall k, untuned (snd (fst (updateState s c0 bot players seg g)) k)
                             = untuned (s k));
      [|destruct (updateState s c0 bot players seg g) as [[c1 s1] g1]]
  end.
  { intro k. unfold updateState. destruct (Qltb 0 (stunTimer (scene_bot sc))); [reflexivity|].
    cbv zeta. unfold Rng.bind, Rng.ret. branches; cbn [fst snd]; apply adapt_untuned. }
  cbn [fst snd reactionBuffer profile] in Hk, Hu. destruct Hk as [_ Hp1].
  pose proof (generateInput_keeps s1 c1 (scene_bot sc) (scene_players sc)
                (scene_segment sc) g1) as Hg.
  destruct (generateInput s1 c1 (scene_bot sc) (scene_players sc) (scene_segment sc) g1)
    as [[raw c2] g2].
  cbn [fst snd] in Hg. destruct Hg as [_ Hp2].
  cbn [fst]. rewrite Hu. congruence.
Qed.

(** When neither the jitter draw nor the mistake draw fires, the input
    is returned as it is. *)
Lemma humanize_quiet (p : BotProfile) (d : InputState) (g : Rng.SeededRNG) :
  Qltb (fst (Rng.next g)) (steeringJitter p) = false ->
  Qltb (fst (Rng.next (snd (Rng.next g)))) (mistakeChance p / 60) = false ->
  fst (humanize p d g) = d.
Proof.
  intros Hj Hm. unfold humanize, Rng.bind, Rng.ret.
  destruct (Rng.next g) as [r g1]. cbn [fst snd] in Hj, Hm. rewrite Hj.
  destruct (Rng.next g1) as [r' g2]. cbn [fst] in Hm. rewrite Hm. reflexivity.
Qed.

(** The [n]-th input of [drive] is the one that [update] returns for the
    controller, the store and the generator that the calls before it
    left. *)
Lemma drive_nth (scenes : list Scene) :
  forall (s : Store) (c : t) (g : Rng.SeededRNG) (n : nat) (sc : Scene),
    nth_error scenes n = Some sc ->
    nth_error (drive s c scenes g) n
    = Some (fst (fst (fst (update (driveStore s c (firstn n scenes) g)
                             (driveController s c (firstn n scenes) g)
                             (scene_bot sc) (scene_players sc) (scene_segment sc)
                             (driveRng s c (firstn n scenes) g))))).
Proof.
  induction scenes as [|sc0 scenes IH]; intros s c g n sc Hsc.
  - destruct n; discriminate Hsc.
  - destruct n as [|n]; cbn [nth_error] in Hsc.
    + injection Hsc as ->.
      cbn [firstn drive driveStore driveController driveRng].
      destruct (update s c (scene_bot sc) (scene_players sc) (scene_segment sc) g)
        as [[[input c'] s'] g'].
      reflexivity.
    + cbn [firstn drive driveStore driveController driveRng].
      destruct (update s c (scene_bot sc0) (scene_players sc0) (scene_segment sc0) g)
        as [[[input c'] s'] g'].
      cbn [nth_error]. apply IH. exact Hsc.
Qed.

(** While fewer calls have been made than the buffer held neutral inputs
    at its front, the neutral inputs not yet taken are at its front. *)
Lemma driveController_buffer (scenes : list Scene) :
  forall (s : Store) (c : t) (g : Rng.SeededRNG) (k : nat) (rest : list InputState),
    reactionBuffer c = repeat neutral k ++ rest ->
    (List.length scenes <= k)%nat ->
    (exists raws,
        reactionBuffer (driveController s c scenes g)
        = repeat neutral (k - List.length scenes) ++ rest ++ raws)
    /\ profile (driveController s c scenes g) = profile c.
Proof.
  induction scenes as [|sc scenes IH]; intros s c g k rest Hbuf Hk.
  - cbn [driveController List.length]. rewrite Nat.sub_0_r. split; [|reflexivity].
    exists []. rewrite List.app_nil_r. exact Hbuf.
  - cbn [List.length] in Hk. destruct k as [|k]; [lia|]. cbn [repeat app] in Hbuf.
    destruct (update_delays s c sc g _ _ Hbuf) as (_ & (raw & Hb) & Hp).
    cbn [driveController List.length].
    destruct (update s c (scene_bot sc) (scene_players sc) (scene_segment sc) g)
      as [[[input c'] s'] g'].
    cbn [fst snd] in Hb, Hp.
    destruct (IH s' c' g' k (rest ++ [raw])) as ((raws & E) & Hp');
      [rewrite Hb; symmetry; apply List.app_assoc|lia|].
    split; [|congruence].
    exists (raw :: raws). rewrite E. cbn [Nat.sub].
    rewrite <- List.app_assoc. reflexivity.
Qed.

(** C9 (amended): for every profile and every scenario, in each of the
    first [reactionDelay] calls of [update] the input taken from the
    reaction buffer is the neutral input it was filled with.  The input
    returned is that neutral input after the steering jitter and the
    random mistakes of the call: they are drawn from the generator as
    [updateState] and [generateInput] of the call left it, against the
    [steeringJitter] and the [mistakeChance] of the controller's profile.
    So the input never jumps, and it steers only if the jitter draw or
    the mistake draw fires. *)
Theorem first_inputs_are_delayed (s : Store) (profileType : BotProfileType)
    (scenes : list Scene) (g : Rng.SeededRNG) (n : nat) (sc : Scene) :
  (Z.of_nat n < reactionDelay (s profileType))%Z ->
  nth_error scenes n = Some sc ->
  let before := firstn n scenes in
  let controller := driveController s (new s profileType) before g in
  let store := driveStore s (new s profileType) before g in
  let point := atJitter store controller sc (driveRng s (new s profileType) before g) in
  let out := fst (humanize (fst point) neutral (snd point)) in
  hd_error (reactionBuffer controller) = Some neutral
  /\ nth_error (drive s (new s profileType) scenes g) n = Some out
  /\ steeringJitter (fst point) = steeringJitter (s profileType)
  /\ mistakeChance (fst point) = mistakeChance (s profileType)
  /\ jump out = false
  /\ (Qltb (fst (Rng.next (snd point))) (steeringJitter (s profileType)) = false ->
      Qltb (fst (Rng.next (snd (Rng.next (snd point)))))
        (mistakeChance (s profileType) / 60) = false ->
      out = neutral).
Proof.
  intros Hn Hsc. cbv zeta.
  set (before := firstn n scenes).
  assert (Hlen : List.length before = n).
  { unfold before. apply firstn_length_le.
    apply Nat.lt_le_incl, nth_error_Some. congruence. }
  destruct (driveController_buffer before s (new s profileType) g
              (Z.to_nat (reactionDelay (s profileType))) [])
    as ((raws & Hbuf) & Hprof);
    [cbn [new reactionBuffer]; symmetry; apply List.app_nil_r|lia|].
  rewrite Hlen in Hbuf. cbn [app] in Hbuf.
  destruct (Z.to_nat (reactionDelay (s profileType)) - n)%nat as [|k] eqn:Ek; [lia|].
  cbn [repeat app] in Hbuf. cbn [new profile] in Hprof.
  set (controller := driveController s (new s profileType) before g) in *.
  set (store := driveStore s (new s profileType) before g).
  set (g' := driveRng s (new s profileType) before g).
  pose proof (atJitter_untuned store controller sc g') as Hun.
  rewrite Hprof in Hun.
  pose proof (driveStore_sameButTuning before s (new s profileType) g profileType) as Hst.
  fold store in Hst.
  assert (Hfields : untuned (fst (atJitter store controller sc g'))
                    = untuned (s profileType)) by congruence.
  destruct (untuned_fields _ _ Hfields) as (_ & _ & _ & _ & _ & _ & Hj & _ & Hm & _).
  destruct (update_delays store controller sc g' _ _ Hbuf) as (Hout & _ & _).
  split; [rewrite Hbuf; reflexivity|].
  split; [rewrite (drive_nth scenes s (new s profileType) g n sc Hsc); fold before;
          fold controller; fold store; fold g'; rewrite Hout; reflexivity|].
  split; [exact Hj|]. split; [exact Hm|]. split.
  - rewrite humanize_jump. reflexivity.
  - intros Hquiet1 Hquiet2. apply humanize_quiet; [rewrite Hj|rewrite Hm]; assumption.
Qed.

Lemma first_inputs_are_delayed_witness :
  nth_error (drive BOT_PROFILES (new BOT_PROFILES casual) [testScene casual] (Rng.mk 42)) 0
  = Some (fst (humanize
                 (fst (atJitter BOT_PROFILES (new BOT_PROFILES casual) (testScene casual)
                         (Rng.mk 42)))
                 neutral
                 (snd (atJitter BOT_PROFILES (new BOT_PROFILES casual) (testScene casual)
                         (Rng.mk 42))))).
Proof.
  pose proof (first_inputs_are_delayed BOT_PROFILES casual [testScene casual] (Rng.mk 42)
                0 (testScene casual)) as H.
  cbv zeta in H. cbn [firstn driveController driveStore driveRng] in H.
  apply H; reflexivity.
Defined.

End BotFacts.

(** ** Base64 *)

Section Base64Facts.

Import Base64.
Local Open Scope N_scope.

(** Lists, three elements at a time. *)
Lemma list_ind3 {A} (P : list A -> Prop) :
  P [] -> (forall a, P [a]) -> (forall a b, P [a; b]) ->
  (forall a b c rest, P rest -> P (a :: b :: c :: rest)) ->
  forall l, P l.
Proof.
  intros H0 H1 H2 H3.
  assert (H : forall l, P l /\ (forall a, P (a :: l)) /\ (forall a b, P (a :: b :: l))).
  { induction l as [|x l (IH0 & IH1 & IH2)]; [auto|].
    split; [apply IH1|]. split; [intro a; apply IH2|]. intros a b. apply H3, IH0. }
  intro l. apply H.
Qed.

(** A property of the 64 values, checked on each of them. *)
Lemma below_64 (P : N -> bool) :
  forallb P (List.map N.of_nat (seq 0 64)) = true -> forall v, v < 64 -> P v = true.
Proof.
  intros H v Hv. rewrite forallb_forall in H. apply H.
  rewrite <- (N2Nat.id v). apply in_map, in_seq. lia.
Qed.

Lemma value_of_char_of (v : N) : v < 64 -> value_of (char_of v) = Some v.
Proof.
  intro Hv.
  pose proof (below_64 (fun v => match value_of (char_of v) with
                                 | Some w => w =? v
                                 | None => false
                                 end) eq_refl v Hv) as H.
  cbv beta in H. destruct (value_of (char_of v)) as [w|]; [|discriminate H].
  apply N.eqb_eq in H. congruence.
Qed.

Lemma char_of_plain (v : N) :
  v < 64 ->
  is_ascii_whitespace (char_of v) = false /\ (char_of v =? 61) = false
  /\ (char_of v <=? 255) = true.
Proof.
  intro Hv.
  pose proof (below_64 (fun v => negb (is_ascii_whitespace (char_of v))
                                 && negb (char_of v =? 61) && (char_of v <=? 255))
                eq_refl v Hv) as H.
  cbv beta in H. rewrite !andb_true_iff, !negb_true_iff in H. tauto.
Qed.

Lemma sextets_below_64 (data : list N) :
  Forall (fun c => c <= 255) data -> Forall (fun v => v < 64) (sextets data).
Proof.
  induction data as [| a | a b | a b c rest IH] using list_ind3; intro H; cbn [sextets].
  - constructor.
  - inversion_clear H as [|? ? Ha _].
    repeat constructor; try (apply N.mod_upper_bound; lia).
    apply N.Div0.div_lt_upper_bound. lia.
  - inversion_clear H as [|? ? Ha H']. inversion_clear H' as [|? ? Hb _].
    repeat constructor; try (apply N.mod_upper_bound; lia).
    apply N.Div0.div_lt_upper_bound. lia.
  - inversion_clear H as [|? ? Ha H']. inversion_clear H' as [|? ? Hb H''].
    inversion_clear H'' as [|? ? Hc Hrest].
    repeat (constructor; [first [apply N.mod_upper_bound; lia
                                | apply N.Div0.div_lt_upper_bound; lia]|]).
    apply IH. assumption.
Qed.

Lemma bytes_sextets (data : list N) :
  Forall (fun c => c <= 255) data -> bytes (sextets data) = data.
Proof.
  induction data as [| a | a b | a b c rest IH] using list_ind3; intro H;
    cbn [sextets bytes].
  - reflexivity.
  - inversion_clear H as [|? ? Ha _]. f_equal. div_mod_lia.
  - inversion_clear H as [|? ? Ha H']. inversion_clear H' as [|? ? Hb _].
    f_equal; [|f_equal]; div_mod_lia.
  - inversion_clear H as [|? ? Ha H']. inversion_clear H' as [|? ? Hb H''].
    inversion_clear H'' as [|? ? Hc Hrest].
    rewrite (IH Hrest). f_equal; [|f_equal; [|f_equal]]; div_mod_lia.
Qed.

Lemma values_of_chars (vs : list N) :
  Forall (fun v => v < 64) vs -> values_of (List.map char_of vs) = Some vs.
Proof.
  induction 1 as [|v vs Hv _ IH]; cbn [List.map values_of]; [reflexivity|].
  rewrite (value_of_char_of v Hv), IH. reflexivity.
Qed.

Lemma chars_not_61 (vs : list N) :
  Forall (fun v => v < 64) vs -> Forall (fun c => (c =? 61) = false) (List.map char_of vs).
Proof.
  induction 1 as [|v vs Hv _ IH]; cbn [List.map]; constructor; [|assumption].
  apply (char_of_plain v Hv).
Qed.

(** The shape of the padding, with the number of 6-bit values before it. *)
Lemma padding_shape (data : list N) :
  (padding data = [] /\ N.of_nat (List.length (sextets data)) mod 4 = 0)
  \/ (padding data = [61] /\ N.of_nat (List.length (sextets data)) mod 4 = 3)
  \/ (padding data = [61; 61] /\ N.of_nat (List.length (sextets data)) mod 4 = 2).
Proof.
  induction data as [| a | a b | a b c rest IH] using list_ind3.
  - left. split; reflexivity.
  - right. right. split; reflexivity.
  - right. left. split; reflexivity.
  - assert (Ep : padding (a :: b :: c :: rest) = padding rest).
    { unfold padding. cbn [List.length].
      replace (N.of_nat (S (S (S (List.length rest))))) with (N.of_nat (List.length rest) + 3)
        by lia.
      replace (N.of_nat (List.length rest) + 3) with (N.of_nat (List.length rest) + 1 * 3)
        by lia.
      rewrite N.Div0.mod_add. reflexivity. }
    assert (El : N.of_nat (List.length (sextets (a :: b :: c :: rest))) mod 4
                 = N.of_nat (List.length (sextets rest)) mod 4).
    { cbn [sextets List.length].
      replace (N.of_nat (S (S (S (S (List.length (sextets rest)))))))
        with (N.of_nat (List.length (sextets rest)) + 1 * 4) by lia.
      apply N.Div0.mod_add. }
    rewrite Ep, El. exact IH.
Qed.

Lemma strip_padding_app (xs pad : list N) :
  Forall (fun c => (c =? 61) = false) xs ->
  pad = [] \/ pad = [61] \/ pad = [61; 61] ->
  strip_padding (xs ++ pad) = xs.
Proof.
  intros Hxs Hpad. unfold strip_padding. rewrite rev_app_distr.
  assert (Hrev : Forall (fun c => (c =? 61) = false) (rev xs)) by (apply Forall_rev, Hxs).
  destruct Hpad as [-> | [-> | ->]]; cbn [rev app].
  - rewrite List.app_nil_r.
    destruct (rev xs) as [|c1 [|c2 r]]; [reflexivity| |];
      inversion_clear Hrev as [|? ? H1 _]; rewrite H1; reflexivity.
  - destruct (rev xs) as [|c2 r] eqn:E; rewrite N.eqb_refl.
    + apply (f_equal (@rev N)) in E. rewrite rev_involutive in E. subst xs. reflexivity.
    + inversion_clear Hrev as [|? ? H1 _]. rewrite H1.
      change (rev r ++ [c2]) with (rev (c2 :: r)). rewrite <- E. apply rev_involutive.
  - rewrite !N.eqb_refl. apply rev_involutive.
Qed.

Lemma filter_whitespace (xs : list N) :
  Forall (fun c => is_ascii_whitespace c = false) xs ->
  filter (fun c => negb (is_ascii_whitespace c)) xs = xs.
Proof.
  induction 1 as [|c xs Hc _ IH]; cbn [filter]; [reflexivity|].
  rewrite Hc, IH. reflexivity.
Qed.

(** [atob] undoes [btoa], which accepts every sequence of bytes. *)
Lemma atob_btoa (data : jsstring) :
  Forall (fun c => c <= 255) data ->
  exists encoded, btoa data = Ok encoded /\ atob encoded = Ok data.
Proof.
  intro H. exists (List.map char_of (sextets data) ++ padding data). split.
  - unfold btoa.
    assert (E : forallb (fun c => c <=? 255) data = true).
    { apply forallb_forall. intros c Hc. apply N.leb_le.
      rewrite Forall_forall in H. apply H, Hc. }
    rewrite E. reflexivity.
  - pose proof (sextets_below_64 data H) as Hs.
    pose proof (padding_shape data) as Hp.
    unfold atob.
    rewrite filter_whitespace.
    2:{ apply Forall_app. split.
        - rewrite Forall_forall in *. intros c Hc. apply in_map_iff in Hc.
          destruct Hc as (v & <- & Hv). apply (char_of_plain v), Hs, Hv.
        - destruct Hp as [[-> _] | [[-> _] | [-> _]]]; repeat constructor. }
    assert (El : N.of_nat (List.length (List.map char_of (sextets data) ++ padding data)) mod 4
                 = 0).
    { rewrite length_app, length_map.
      destruct Hp as [[-> Hm] | [[-> Hm] | [-> Hm]]]; cbn [List.length];
        revert Hm; generalize (List.length (sextets data)); intros n Hm; div_mod_lia. }
    rewrite El. cbn [N.eqb].
    rewrite strip_padding_app;
      [|apply chars_not_61, Hs|destruct Hp as [[-> _] | [[-> _] | [-> _]]]; auto].
    rewrite length_map.
    assert (E1 : (N.of_nat (List.length (sextets data)) mod 4 =? 1) = false).
    { apply N.eqb_neq. destruct Hp as [[_ ->] | [[_ ->] | [_ ->]]]; discriminate. }
    rewrite E1, (values_of_chars _ Hs), (bytes_sextets _ H). reflexivity.
Qed.

End Base64Facts.

(** ** JSON *)

Section JSONFacts.

Import JSON.
Local Open Scope N_scope.

Lemma take_digits_chars (u : Decimal.uint) (rest : jsstring) :
  delimited rest -> take_digits (chars_of_uint u ++ rest) = (u, rest).
Proof.
  intro H. induction u; cbn [chars_of_uint app];
    try (cbn [take_digits]; change (is_digit _) with true; cbv iota; rewrite IHu; reflexivity).
  delimiter rest H; reflexivity.
Qed.

(** The digits of a positive number do not start with 0. *)
Lemma to_uint_head (p : positive) :
  match Pos.to_uint p with
  | Decimal.Nil | Decimal.D0 _ => False
  | _ => True
  end.
Proof.
  pose proof (DecimalPos.Unsigned.to_of (Pos.to_uint p)) as H.
  rewrite DecimalPos.Unsigned.of_to in H. cbn [N.to_uint] in H.
  pose proof (DecimalPos.Unsigned.to_uint_nonnil p) as Hnil.
  pose proof (DecimalPos.Unsigned.to_uint_nonzero p) as Hzero.
  destruct (Pos.to_uint p) as [|u| | | | | | | | |]; auto.
  rewrite DecimalFacts.unorm_D0 in H. unfold Decimal.unorm in H.
  destruct (Decimal.nzhead u) eqn:E;
    try (symmetry in H; exact (DecimalFacts.nzhead_nonzero u _ (eq_trans E H))).
  apply Hzero. congruence.
Qed.

Lemma parse_number_stringify (z : Z) (rest : jsstring) :
  delimited rest ->
  parse_number (stringify_number z ++ rest) = Ok (inject_Z z, rest).
Proof.
  intro H. pose proof (DecimalZ.of_to z) as Hz. unfold stringify_number.
  assert (Hf : parse_fraction rest = Ok (None, rest)) by (delimiter rest H; reflexivity).
  assert (He : parse_exponent rest = Ok (None, rest)) by (delimiter rest H; reflexivity).
  assert (Hsign : forall u,
             match u with Decimal.Nil => False | _ => True end ->
             take_sign false (chars_of_uint u ++ rest) = (false, chars_of_uint u ++ rest)).
  { intros u Hu. destruct u; try contradiction; reflexivity. }
  unfold parse_number.
  destruct z as [|p|p]; cbn [Z.to_int Z.of_int] in *.
  - rewrite Hsign by exact I. cbv beta iota.
    rewrite (take_digits_chars _ rest H), Hf.
    cbn [and_then]. rewrite He. reflexivity.
  - pose proof (to_uint_head p) as Hh.
    rewrite Hsign by (destruct (Pos.to_uint p); auto). cbv beta iota.
    rewrite (take_digits_chars _ rest H).
    destruct (Pos.to_uint p) eqn:Eu; try contradiction;
      rewrite Hf; cbn [and_then]; rewrite He; cbn [and_then]; rewrite Hz; reflexivity.
  - pose proof (to_uint_head p) as Hh.
    change (take_sign false ((45 :: chars_of_uint (Pos.to_uint p)) ++ rest))
      with (true, chars_of_uint (Pos.to_uint p) ++ rest).
    cbv beta iota. rewrite (take_digits_chars _ rest H).
    destruct (Pos.to_uint p) eqn:Eu; try contradiction;
      rewrite Hf; cbn [and_then]; rewrite He; cbn [and_then]; rewrite Hz; reflexivity.
Qed.

(** *** Strings without quotes, backslashes and control characters *)

Lemma is_plain_cases (c : N) :
  is_plain c = true ->
  (c =? 34) = false /\ (c =? 92) = false /\ (c <? 32) = false
  /\ (c =? 8) = false /\ (c =? 12) = false /\ (c =? 10) = false
  /\ (c =? 13) = false /\ (c =? 9) = false.
Proof.
  unfold is_plain. rewrite !andb_true_iff, !negb_true_iff.
  intros [[H1 H2] H3]. pose proof H3 as H4. apply N.ltb_ge in H4.
  repeat split; try assumption; apply N.eqb_neq; lia.
Qed.

Lemma quote_chars_plain (s : jsstring) :
  forallb is_plain s = true -> quote_chars s = s.
Proof.
  induction s as [|c s IH]; cbn [forallb quote_chars]; [reflexivity|].
  rewrite andb_true_iff. intros [Hc Hs].
  destruct (is_plain_cases c Hc) as (-> & -> & -> & -> & -> & -> & -> & ->).
  rewrite (IH Hs). reflexivity.
Qed.

Lemma parse_chars_plain (s rest : jsstring) :
  forallb is_plain s = true -> parse_chars (s ++ 34 :: rest) = Ok (s, rest).
Proof.
  induction s as [|c s IH]; cbn [forallb app]; [reflexivity|].
  rewrite andb_true_iff. intros [Hc Hs].
  destruct (is_plain_cases c Hc) as (E1 & E2 & E3 & _).
  cbn [parse_chars]. rewrite E1, E2, E3, (IH Hs). reflexivity.
Qed.

(** *** Texts that parse to a value *)

Lemma Parses_number (z : Z) : Parses 1 (stringify_number z) (VNum (inject_Z z)).
Proof.
  intros depth Hd rest Hrest. destruct depth as [|d]; [lia|].
  pose proof (parse_number_stringify z rest Hrest) as Hn.
  assert (Hhead : exists c tail,
             stringify_number z = c :: tail
             /\ (c = 45 \/ c = 48 \/ c = 49 \/ c = 50 \/ c = 51 \/ c = 52 \/ c = 53
                 \/ c = 54 \/ c = 55 \/ c = 56 \/ c = 57)).
  { unfold stringify_number. destruct (Z.to_int z) as [u|u] eqn:E.
    - assert (Hu : u <> Decimal.Nil).
      { destruct z; cbn in E; try discriminate E; injection E as <-;
          [discriminate | apply DecimalPos.Unsigned.to_uint_nonnil]. }
      destruct u; try contradiction; cbn [chars_of_uint]; eexists _, _;
        (split; [reflexivity|tauto]).
    - eexists _, _. split; [reflexivity|tauto]. }
  destruct Hhead as (c & tail & E & Hc). rewrite E in *. cbn [app] in *.
  assert (Hv : parse_value (S d) (c :: tail ++ rest)
               = and_then (parse_number (c :: tail ++ rest))
                   (fun '(q, rest') => Ok (VNum q, rest'))).
  { repeat (destruct Hc as [-> | Hc]; [reflexivity|]). subst c. reflexivity. }
  rewrite Hv, Hn. reflexivity.
Qed.

Lemma Parses_string (s : jsstring) :
  forallb is_plain s = true -> Parses 1 (stringify_string s) (VStr s).
Proof.
  intros Hs depth Hd rest Hrest. destruct depth as [|d]; [lia|].
  unfold stringify_string. rewrite (quote_chars_plain s Hs).
  change (parse_value (S d) ((34 :: s ++ [34]) ++ rest))
    with (and_then (parse_chars ((s ++ [34]) ++ rest))
            (fun '(str, rest') => Ok (VStr str, rest'))).
  rewrite <- List.app_assoc. cbn [app]. rewrite (parse_chars_plain s rest Hs). reflexivity.
Qed.

(** *** Objects and arrays *)

Lemma join_cons (sep : N) (p : jsstring) (parts : list jsstring) :
  join sep (p :: parts) = p ++ flat_map (fun q => sep :: q) parts.
Proof.
  revert p. induction parts as [|q parts IH]; intro p.
  - cbn. symmetry. apply List.app_nil_r.
  - change (join sep (p :: q :: parts)) with (p ++ sep :: join sep (q :: parts)).
    rewrite IH. reflexivity.
Qed.

Section Composite.

Variable pv : jsstring -> result (value * jsstring).

Lemma parse_member_ok (m : jsstring * jsstring * value) (rest : jsstring) :
  member_ok pv m -> delimited rest ->
  parse_member pv (member_text m ++ rest) = Ok (member_value m, rest).
Proof.
  destruct m as [[k txt] v]. unfold member_ok, member_text, member_value.
  cbn [fst snd]. intros [Hk Hv] Hrest.
  unfold stringify_string. rewrite (quote_chars_plain k Hk).
  replace ((((34 :: k ++ [34]) ++ 58 :: txt) ++ rest))
    with (34 :: (k ++ 34 :: 58 :: txt ++ rest)).
  2:{ cbn [app]. rewrite <- !List.app_assoc. reflexivity. }
  unfold parse_member.
  change (skip_ws (34 :: k ++ 34 :: 58 :: txt ++ rest))
    with (34 :: k ++ 34 :: 58 :: txt ++ rest).
  cbv iota. change (34 =? 34) with true. cbv iota.
  rewrite (parse_chars_plain k _ Hk). cbn [and_then].
  change (skip_ws (58 :: txt ++ rest)) with (58 :: txt ++ rest).
  cbv iota. change (58 =? 58) with true. cbv iota.
  rewrite (Hv rest Hrest). reflexivity.
Qed.

Lemma parse_members_ok (ms : list (jsstring * jsstring * value)) :
  forall (n : nat) (rest : jsstring),
    (List.length ms < n)%nat ->
    Forall (member_ok pv) ms ->
    parse_members pv n (flat_map (fun m => 44 :: member_text m) ms ++ 125 :: rest)
    = Ok (List.map member_value ms, rest).
Proof.
  induction ms as [|m ms IH]; intros n rest Hn Hms;
    (destruct n as [|n]; [cbn [List.length] in Hn; lia|]).
  - reflexivity.
  - inversion_clear Hms as [|? ? Hm Hms'].
    cbn [flat_map]. rewrite <- !List.app_assoc.
    change (parse_members pv (S n)
              ((44 :: member_text m) ++ flat_map (fun m => 44 :: member_text m) ms
               ++ 125 :: rest))
      with (and_then
              (parse_member pv
                 (member_text m ++ flat_map (fun m => 44 :: member_text m) ms
                  ++ 125 :: rest))
              (fun '(kv, rest') =>
                 and_then (parse_members pv n rest')
                   (fun '(kvs, rest'') => Ok (kv :: kvs, rest'')))).
    rewrite parse_member_ok; [|assumption|destruct ms; cbn; tauto].
    cbn [and_then]. rewrite IH; [reflexivity|cbn [List.length] in Hn; lia|assumption].
Qed.

Lemma parse_object_ok (ms : list (jsstring * jsstring * value))
    (n : nat) (rest : jsstring) :
  (List.length ms <= n)%nat ->
  Forall (member_ok pv) ms ->
  parse_object pv n (join 44 (List.map member_text ms) ++ 125 :: rest)
  = Ok (VObj (List.map member_value ms), rest).
Proof.
  intros Hn Hms. destruct ms as [|m ms]; [reflexivity|].
  inversion_clear Hms as [|? ? Hm Hms'].
  cbn [List.map]. rewrite join_cons, flat_map_concat_map, map_map,
    <- flat_map_concat_map, <- List.app_assoc.
  unfold parse_object.
  assert (Hhead : exists tail,
             member_text m ++ flat_map (fun m => 44 :: member_text m) ms ++ 125 :: rest
             = 34 :: tail).
  { unfold member_text, stringify_string. cbn [app]. eexists. reflexivity. }
  destruct Hhead as (tail & Hhead).
  rewrite Hhead at 1. change (skip_ws (34 :: tail)) with (34 :: tail).
  cbv iota. change (34 =? 125) with false. cbv iota.
  rewrite parse_member_ok; [|assumption|destruct ms; cbn; tauto].
  cbn [and_then]. rewrite parse_members_ok; [reflexivity| |assumption].
  cbn [List.length] in Hn. lia.
Qed.

Lemma parse_elements_ok (es : list (jsstring * value)) :
  forall (n : nat) (rest : jsstring),
    (List.length es < n)%nat ->
    Forall (element_ok pv) es ->
    parse_elements pv n (flat_map (fun e => 44 :: fst e) es ++ 93 :: rest)
    = Ok (List.map snd es, rest).
Proof.
  induction es as [|e es IH]; intros n rest Hn Hes;
    (destruct n as [|n]; [cbn [List.length] in Hn; lia|]).
  - reflexivity.
  - inversion_clear Hes as [|? ? He Hes']. destruct He as [_ He].
    cbn [flat_map]. rewrite <- !List.app_assoc.
    change (parse_elements pv (S n)
              ((44 :: fst e) ++ flat_map (fun e => 44 :: fst e) es ++ 93 :: rest))
      with (and_then
              (pv (fst e ++ flat_map (fun e => 44 :: fst e) es ++ 93 :: rest))
              (fun '(v, rest') =>
                 and_then (parse_elements pv n rest')
                   (fun '(vs, rest'') => Ok (v :: vs, rest'')))).
    rewrite He; [|destruct es; cbn; tauto].
    cbn [and_then]. rewrite IH; [reflexivity|cbn [List.length] in Hn; lia|assumption].
Qed.

Lemma parse_array_ok (es : list (jsstring * value)) (n : nat) (rest : jsstring) :
  (List.length es <= n)%nat ->
  Forall (element_ok pv) es ->
  parse_array pv n (join 44 (List.map fst es) ++ 93 :: rest)
  = Ok (VArr (List.map snd es), rest).
Proof.
  intros Hn Hes. destruct es as [|e es]; [reflexivity|].
  inversion_clear Hes as [|? ? He Hes']. destruct He as [[tail Htail] He].
  cbn [List.map]. rewrite join_cons, flat_map_concat_map, map_map,
    <- flat_map_concat_map, <- List.app_assoc.
  unfold parse_array.
  rewrite Htail at 1. cbn [app].
  change (skip_ws (123 :: tail ++ flat_map (fun e => 44 :: fst e) es ++ 93 :: rest))
    with (123 :: tail ++ flat_map (fun e => 44 :: fst e) es ++ 93 :: rest).
  cbv iota. change (123 =? 93) with false. cbv iota.
  rewrite He; [|destruct es; cbn; tauto].
  cbn [and_then]. rewrite parse_elements_ok; [reflexivity| |assumption].
  cbn [List.length] in Hn. lia.
Qed.

End Composite.

Lemma Parses_object (need : nat) (ms : list (jsstring * jsstring * value)) :
  Forall (fun m => forallb is_plain (fst (fst m)) = true
                   /\ Parses need (snd (fst m)) (snd m)) ms ->
  Parses (S (Nat.max need (List.length ms)))
    (stringify_object (List.map fst ms)) (VObj (List.map member_value ms)).
Proof.
  intros Hms depth Hd rest Hrest. destruct depth as [|d]; [lia|].
  unfold stringify_object. rewrite map_map.
  change (List.map (fun m => stringify_string (fst (fst m)) ++ 58 :: snd (fst m)) ms)
    with (List.map member_text ms).
  cbn [app]. rewrite <- List.app_assoc. cbn [app].
  change (parse_value (S d) (123 :: join 44 (List.map member_text ms) ++ 125 :: rest))
    with (parse_object (parse_value d) d (join 44 (List.map member_text ms) ++ 125 :: rest)).
  apply parse_object_ok; [lia|].
  rewrite Forall_forall in *. intros m Hm. destruct (Hms m Hm) as [Hk Hv].
  split; [assumption|]. apply Hv. lia.
Qed.

Lemma Parses_array (need : nat) (es : list (jsstring * value)) :
  Forall (fun e => (exists tail, fst e = 123 :: tail) /\ Parses need (fst e) (snd e)) es ->
  Parses (S (Nat.max need (List.length es)))
    (stringify_array (List.map fst es)) (VArr (List.map snd es)).
Proof.
  intros Hes depth Hd rest Hrest. destruct depth as [|d]; [lia|].
  unfold stringify_array. cbn [app]. rewrite <- List.app_assoc. cbn [app].
  change (parse_value (S d) (91 :: join 44 (List.map fst es) ++ 93 :: rest))
    with (parse_array (parse_value d) d (join 44 (List.map fst es) ++ 93 :: rest)).
  apply parse_array_ok; [lia|].
  rewrite Forall_forall in *. intros e He. destruct (Hes e He) as [Hh Hv].
  split; [assumption|]. apply Hv. lia.
Qed.

(** A text that parses as a value parses as a whole text. *)
Lemma parse_whole (need : nat) (text : jsstring) (v : value) :
  Parses need text v -> (need <= S (List.length text))%nat -> parse text = Ok v.
Proof.
  intros H Hn. unfold parse.
  rewrite <- (List.app_nil_r text) at 2.
  rewrite (H _ Hn [] I). reflexivity.
Qed.

End JSONFacts.
(** ** The replay codec *)

Section CodecFacts.

Import ReplayCodec.
Local Open Scope N_scope.

Lemma Parses_weaken (need need' : nat) (text : jsstring) (v : value) :
  Parses need text v -> (need <= need')%nat -> Parses need' text v.
Proof. intros H Hle depth Hd. apply H. lia. Qed.

Lemma mode_string_plain (m : GameMode) : forallb is_plain (mode_string m) = true.
Proof. destruct m; reflexivity. Qed.

Lemma Parses_frame (f : ReplayFrame) : Parses 3 (frame_text f) (frame_value f).
Proof.
  apply (Parses_object 1
           [ (lit "t", JSON.stringify_number (tick f), VNum (inject_Z (tick f)));
             (lit "i", JSON.stringify_number (input_bits (inputs f)),
              VNum (inject_Z (input_bits (inputs f)))) ]).
  repeat constructor; apply Parses_number.
Qed.

(** The text of [compact] parses, as a value, to [compact]. *)
Lemma Parses_compact (r : ReplayData) :
  Parses (S (S (Nat.max 4 (List.length (frames r)))))
    (stringify_compact r) (compact_value r).
Proof.
  set (need := S (Nat.max 4 (List.length (frames r)))).
  pose (es := List.map (fun f => (frame_text f, frame_value f)) (frames r)).
  assert (Harr : Parses need
                   (JSON.stringify_array (List.map frame_text (frames r)))
                   (VArr (List.map frame_value (frames r)))).
  { replace (List.map frame_text (frames r)) with (List.map fst es)
      by (unfold es; rewrite map_map; reflexivity).
    replace (List.map frame_value (frames r)) with (List.map snd es)
      by (unfold es; rewrite map_map; reflexivity).
    apply (Parses_weaken (S (Nat.max 3 (List.length es)))).
    - apply Parses_array. unfold es. rewrite Forall_forall. intros e He.
      apply in_map_iff in He. destruct He as (f & <- & _). cbn [fst snd]. split.
      + unfold frame_text, JSON.stringify_object. eexists. reflexivity.
      + apply Parses_frame.
    - unfold es, need. rewrite length_map. lia. }
  pose (ms := [ (lit "v", JSON.stringify_number (version r), VNum (inject_Z (version r)));
                (lit "s", JSON.stringify_number (seed r), VNum (inject_Z (seed r)));
                (lit "m", JSON.stringify_string (mode_string (mode r)),
                 VStr (mode_string (mode r)));
                (lit "f", JSON.stringify_array (List.map frame_text (frames r)),
                 VArr (List.map frame_value (frames r))) ]).
  apply (Parses_weaken (S (Nat.max need (List.length ms)))); [|unfold need, ms; cbn [List.length]; lia].
  apply (Parses_object need ms). unfold ms.
  repeat constructor; cbn [fst snd].
  - apply (Parses_weaken 1); [apply Parses_number|unfold need; lia].
  - apply (Parses_weaken 1); [apply Parses_number|unfold need; lia].
  - apply (Parses_weaken 1); [apply Parses_string, mode_string_plain|unfold need; lia].
  - exact Harr.
Qed.

(** *** The text is long enough for the parser, and is a byte string *)

Lemma flat_map_sep_length (sep : N) (parts : list jsstring) :
  (List.length parts <= List.length (flat_map (fun q => sep :: q) parts))%nat.
Proof.
  induction parts as [|q parts IH]; cbn [flat_map List.length]; [lia|].
  rewrite length_app. cbn [List.length]. lia.
Qed.

Lemma stringify_array_length (parts : list jsstring) :
  (List.length parts < List.length (JSON.stringify_array parts))%nat.
Proof.
  unfold JSON.stringify_array. cbn [List.length]. rewrite length_app. cbn [List.length].
  destruct parts as [|p parts]; [cbn; lia|].
  rewrite join_cons, length_app.
  pose proof (flat_map_sep_length 44 parts). cbn [List.length]. lia.
Qed.

Lemma stringify_compact_length (r : ReplayData) :
  (S (Nat.max 4 (List.length (frames r))) <= List.length (stringify_compact r))%nat.
Proof.
  unfold stringify_compact.
  change (List.map _ (frames r)) with (List.map frame_text (frames r)).
  pose proof (stringify_array_length (List.map frame_text (frames r))) as H.
  rewrite length_map in H.
  generalize dependent (JSON.stringify_array (List.map frame_text (frames r))).
  intros arr H. unfold JSON.stringify_object. cbn [List.map fst snd JSON.join].
  cbn [List.length]. rewrite !length_app. cbn [List.length].
  rewrite !length_app. cbn [List.length]. rewrite !length_app. cbn [List.length].
  rewrite !length_app. cbn [List.length]. lia.
Qed.

Lemma forallb_join (sep : N) (parts : list jsstring) :
  byte sep = true ->
  Forall (fun p => forallb byte p = true) parts ->
  forallb byte (JSON.join sep parts) = true.
Proof.
  intros Hsep Hparts. destruct parts as [|p parts]; [reflexivity|].
  inversion_clear Hparts as [|? ? Hp Hrest]. rewrite join_cons, forallb_app, Hp.
  cbn [andb]. induction Hrest as [|q parts Hq _ IH]; [reflexivity|].
  cbn [flat_map app forallb]. rewrite Hsep, forallb_app, Hq, IH. reflexivity.
Qed.

Lemma stringify_number_bytes (z : Z) : forallb byte (JSON.stringify_number z) = true.
Proof.
  assert (H : forall u, forallb byte (JSON.chars_of_uint u) = true)
    by (induction u; cbn [JSON.chars_of_uint forallb]; try rewrite IHu; reflexivity).
  unfold JSON.stringify_number. destruct (Z.to_int z); cbn [forallb]; rewrite H; reflexivity.
Qed.

Lemma frame_text_bytes (f : ReplayFrame) : forallb byte (frame_text f) = true.
Proof.
  unfold frame_text, JSON.stringify_object. cbn [List.map fst snd JSON.join].
  cbn [forallb]. rewrite !forallb_app. cbn [forallb].
  rewrite !forallb_app. cbn [forallb]. rewrite !stringify_number_bytes. reflexivity.
Qed.

Lemma stringify_compact_bytes (r : ReplayData) :
  forallb byte (stringify_compact r) = true.
Proof.
  unfold stringify_compact.
  change (List.map _ (frames r)) with (List.map frame_text (frames r)).
  assert (Harr : forallb byte (JSON.stringify_array (List.map frame_text (frames r))) = true).
  { unfold JSON.stringify_array. cbn [forallb]. rewrite forallb_app, forallb_join.
    - reflexivity.
    - reflexivity.
    - rewrite Forall_forall. intros p Hp. apply in_map_iff in Hp.
      destruct Hp as (f & <- & _). apply frame_text_bytes. }
  generalize dependent (JSON.stringify_array (List.map frame_text (frames r))).
  intros arr Harr.
  assert (Hmode : forallb byte (JSON.stringify_string (mode_string (mode r))) = true)
    by (destruct (mode r); reflexivity).
  generalize dependent (JSON.stringify_string (mode_string (mode r))).
  intros m Hmode.
  unfold JSON.stringify_object. cbn [List.map fst snd JSON.join].
  cbn [forallb]. rewrite !forallb_app. cbn [forallb].
  rewrite !forallb_app. cbn [forallb]. rewrite !forallb_app. cbn [forallb].
  rewrite !forallb_app. cbn [forallb].
  rewrite !stringify_number_bytes, Harr, Hmode. reflexivity.
Qed.

(** *** Decoding what was encoded *)

Lemma input_bits_testbit (i : InputState) :
  Z.testbit (input_bits i) 0 = left i
  /\ Z.testbit (input_bits i) 1 = right i
  /\ Z.testbit (input_bits i) 2 = jump i
  /\ (0 <= input_bits i <= 7)%Z.
Proof. destruct i as [[] [] []]; vm_compute; intuition discriminate. Qed.

Section Decode.

Variable ToInt32_of_other : value -> result Z.

Lemma decode_frame_value (f : ReplayFrame) :
  decode_frame ToInt32_of_other (frame_value f) = Ok (decoded_frame f).
Proof.
  destruct f as [t [[] [] []]]; reflexivity.
Qed.

Lemma decode_frames (fs : list ReplayFrame) :
  map_result (decode_frame ToInt32_of_other) (List.map frame_value fs)
  = Ok (List.map decoded_frame fs).
Proof.
  induction fs as [|f fs IH]; [reflexivity|].
  cbn [List.map map_result]. rewrite decode_frame_value. cbn [and_then].
  rewrite IH. reflexivity.
Qed.

(** Decoding the text of an encoded replay. *)
Lemma decode_encode (r : ReplayData) :
  exists encoded,
    encodeReplayToUrl r = Ok encoded
    /\ decodeReplayFromUrl ToInt32_of_other encoded = Ok (Some (decoded r)).
Proof.
  assert (Hbytes : Forall (fun c => c <= 255) (stringify_compact r)).
  { pose proof (stringify_compact_bytes r) as H. rewrite forallb_forall in H.
    rewrite Forall_forall. intros c Hc. apply N.leb_le, H, Hc. }
  destruct (atob_btoa (stringify_compact r) Hbytes) as (encoded & Henc & Hdec).
  exists encoded. split; [exact Henc|].
  unfold decodeReplayFromUrl, decode_body. rewrite Hdec. cbn [and_then].
  rewrite (parse_whole _ _ _ (Parses_compact r)).
  2:{ pose proof (stringify_compact_length r). lia. }
  cbn [and_then].
  change (get (compact_value r) (lit "v")) with (Ok (VNum (inject_Z (version r)))).
  change (get (compact_value r) (lit "s")) with (Ok (VNum (inject_Z (seed r)))).
  change (get (compact_value r) (lit "m")) with (Ok (VStr (mode_string (mode r)))).
  change (get (compact_value r) (lit "f"))
    with (Ok (VArr (List.map frame_value (frames r)))).
  cbn [and_then call_map]. rewrite decode_frames. reflexivity.
Qed.

End Decode.

Lemma as_frames_decoded (fs : list ReplayFrame) :
  as_frames (List.map decoded_frame fs) = Some fs.
Proof.
  induction fs as [|[t i] fs IH]; [reflexivity|].
  cbn [List.map as_frames]. rewrite IH. reflexivity.
Qed.

Lemma as_ReplayData_decoded (r : ReplayData) :
  as_ReplayData (decoded r)
  = Some (mkReplay (version r) (seed r) (mode r) (mkPartial None None) (frames r)
            0 "Replay").
Proof.
  unfold as_ReplayData, decoded.
  cbn [d_version d_seed d_mode d_frames d_settings d_startTime d_playerName].
  rewrite as_frames_decoded. destruct (mode r); reflexivity.
Qed.

(** C1: for every replay, [encodeReplayToUrl] returns a string, and
    [decodeReplayFromUrl] of that string returns an object, not [null],
    that holds the version, the seed and the mode of the replay and, frame
    by frame and in order, the tick and the three inputs of each frame;
    each frame was written as its tick and the bitmask whose bit 0 is
    [left], bit 1 [right] and bit 2 [jump]. *)
Theorem decode_encode_round_trip (ToInt32_of_other : value -> result Z) (r : ReplayData) :
  exists encoded d replay,
    encodeReplayToUrl r = Ok encoded
    /\ decodeReplayFromUrl ToInt32_of_other encoded = Ok (Some d)
    /\ as_ReplayData d = Some replay
    /\ version replay = version r
    /\ seed replay = seed r
    /\ mode replay = mode r
    /\ frames replay = frames r
    /\ List.map d_inputs (d_frames d) = List.map inputs (frames r)
    /\ List.map d_tick (d_frames d)
       = List.map (fun f => VNum (inject_Z (tick f))) (frames r)
    /\ (forall i, Z.testbit (input_bits i) 0 = left i
                  /\ Z.testbit (input_bits i) 1 = right i
                  /\ Z.testbit (input_bits i) 2 = jump i).
Proof.
  destruct (decode_encode ToInt32_of_other r) as (encoded & Henc & Hdec).
  exists encoded, (decoded r),
    (mkReplay (version r) (seed r) (mode r) (mkPartial None None) (frames r) 0 "Replay").
  split; [exact Henc|]. split; [exact Hdec|]. split; [apply as_ReplayData_decoded|].
  cbn [version seed mode frames decoded d_frames].
  rewrite !map_map. cbn [decoded_frame d_inputs d_tick].
  repeat (split; [reflexivity|]).
  intro i. pose proof (input_bits_testbit i). tauto.
Qed.

(** *** Decoding any string *)



Lemma map_result_cases {A B} (f : A -> result B) (l : list A) :
  Exists (fun a => f a = Throw) l
  \/ exists bs, Forall2 (fun a b => f a = Ok b) l bs.
Proof.
  induction l as [|a l [IH|(bs & IH)]].
  - right. exists []. constructor.
  - left. apply Exists_cons_tl. exact IH.
  - destruct (f a) as [b|] eqn:E.
    + right. exists (b :: bs). constructor; assumption.
    + left. apply Exists_cons_hd. exact E.
Qed.





End CodecFacts.
(** * Further properties *)

(** ** The engine: the stages of a tick *)

Section EngineStages.

Local Open Scope Q_scope.

(** [movePlayer] is its stages, one after the other. *)
Lemma movePlayer_stages (p : PlayerState) (input : InputState)
    (segment : TrackSegment) (dt : Q) :
  movePlayer p input segment dt
  = clampStage
      (positionStage
         (airStage (takeOffStage (steerStage (accelerateStage p segment dt) input dt) input)
            dt)
         dt)
      segment.
Proof. exact_no_check (eq_refl (movePlayer p input segment dt)). Qed.

Lemma accelerateStage_fields (p : PlayerState) (segment : TrackSegment) (dt : Q) :
  restOf (accelerateStage p segment dt) = restOf p
  /\ x (accelerateStage p segment dt) = x p
  /\ lane (accelerateStage p segment dt) = lane p
  /\ lateralSpeed (accelerateStage p segment dt) = lateralSpeed p
  /\ distanceTraveled (accelerateStage p segment dt) = distanceTraveled p
  /\ isJumping (accelerateStage p segment dt) = isJumping p
  /\ jumpTimer (accelerateStage p segment dt) = jumpTimer p
  /\ forwardSpeed (accelerateStage p segment dt)
     = Qmin ((forwardSpeed p + (PHYSICS.FORWARD_ACCEL + - slope segment * 50) * dt)
             * (if Qltb 0 (speedBoostTimer p) then PHYSICS.SPEED_BOOST_MULT else 1))
         PHYSICS.MAX_FORWARD_SPEED
       * friction segment.
Proof. repeat split; reflexivity. Qed.

Lemma steerStage_fields (p : PlayerState) (input : InputState) (dt : Q) :
  restOf (steerStage p input dt) = restOf p
  /\ x (steerStage p input dt) = x p
  /\ lane (steerStage p input dt) = lane p
  /\ forwardSpeed (steerStage p input dt) = forwardSpeed p
  /\ distanceTraveled (steerStage p input dt) = distanceTraveled p
  /\ isJumping (steerStage p input dt) = isJumping p
  /\ jumpTimer (steerStage p input dt) = jumpTimer p.
Proof.
  unfold steerStage. cbv zeta. player_fields. tests. all: repeat split; reflexivity.
Qed.

Lemma takeOffStage_fields (p : PlayerState) (input : InputState) :
  restOf (takeOffStage p input) = restOf p
  /\ x (takeOffStage p input) = x p
  /\ lane (takeOffStage p input) = lane p
  /\ forwardSpeed (takeOffStage p input) = forwardSpeed p
  /\ lateralSpeed (takeOffStage p input) = lateralSpeed p
  /\ distanceTraveled (takeOffStage p input) = distanceTraveled p.
Proof.
  unfold takeOffStage. destruct (jump input && negb (isJumping p)); repeat split; reflexivity.
Qed.

Lemma airStage_fields (p : PlayerState) (dt : Q) :
  restOf (airStage p dt) = restOf p
  /\ x (airStage p dt) = x p
  /\ lane (airStage p dt) = lane p
  /\ lateralSpeed (airStage p dt) = lateralSpeed p
  /\ distanceTraveled (airStage p dt) = distanceTraveled p
  /\ forwardSpeed (airStage p dt)
     = if isJumping p && Qle_bool (jumpTimer p - dt) 0
       then forwardSpeed p + PHYSICS.LANDING_BOOST else forwardSpeed p.
Proof.
  unfold airStage. cbv zeta. player_fields.
  destruct (isJumping p); [|repeat split; reflexivity].
  destruct (Qle_bool (jumpTimer p - dt) 0); repeat split; reflexivity.
Qed.

Lemma positionStage_fields (p : PlayerState) (dt : Q) :
  restOf (positionStage p dt) = restOf p
  /\ lane (positionStage p dt) = lane p
  /\ forwardSpeed (positionStage p dt) = forwardSpeed p
  /\ lateralSpeed (positionStage p dt) = lateralSpeed p
  /\ isJumping (positionStage p dt) = isJumping p
  /\ jumpTimer (positionStage p dt) = jumpTimer p
  /\ x (positionStage p dt) = x p + lateralSpeed p * dt
  /\ distanceTraveled (positionStage p dt) = distanceTraveled p + forwardSpeed p * dt.
Proof. repeat split; reflexivity. Qed.

Lemma clampStage_fields (p : PlayerState) (segment : TrackSegment) :
  restOf (clampStage p segment) = restOf p
  /\ forwardSpeed (clampStage p segment) = forwardSpeed p
  /\ lateralSpeed (clampStage p segment) = lateralSpeed p
  /\ distanceTraveled (clampStage p segment) = distanceTraveled p
  /\ isJumping (clampStage p segment) = isJumping p
  /\ jumpTimer (clampStage p segment) = jumpTimer p
  /\ x (clampStage p segment)
     = Qmax (lowerBound (lanes segment)) (Qmin (upperBound (lanes segment)) (x p))
  /\ lane (clampStage p segment)
     = Z.max 0 (Z.min (lanes segment - 1)
                  (Qfloor (x (clampStage p segment) / PHYSICS.LANE_WIDTH))).
Proof. repeat split; reflexivity. Qed.

(** The stages leave the timers, the shield and the finish alone. *)
Lemma movePlayer_rest (p : PlayerState) (input : InputState)
    (segment : TrackSegment) (dt : Q) :
  restOf (movePlayer p input segment dt) = restOf p.
Proof.
  rewrite movePlayer_stages.
  rewrite (proj1 (clampStage_fields _ _)), (proj1 (positionStage_fields _ _)),
    (proj1 (airStage_fields _ _)), (proj1 (takeOffStage_fields _ _)),
    (proj1 (steerStage_fields _ _ _)).
  exact (proj1 (accelerateStage_fields _ _ _)).
Qed.

End EngineStages.
(** ** The engine: timers and shield *)

Section EngineTimers.

Local Open Scope Q_scope.

(** What the timer block makes of each timer. *)
Lemma updateTimers_fields (p : PlayerState) (dt : Q) :
  stunTimer (updateTimers p dt)
  = (if Qltb 0 (stunTimer p)
     then (if Qltb (stunTimer p - dt) 0 then 0 else stunTimer p - dt)
     else stunTimer p)
  /\ shieldTimer (updateTimers p dt)
     = (if Qltb 0 (shieldTimer p)
        then (if Qle_bool (shieldTimer p - dt) 0 then 0 else shieldTimer p - dt)
        else shieldTimer p)
  /\ hasShield (updateTimers p dt)
     = (if Qltb 0 (shieldTimer p)
        then (if Qle_bool (shieldTimer p - dt) 0 then false else hasShield p)
        else hasShield p)
  /\ speedBoostTimer (updateTimers p dt)
     = (if Qltb 0 (speedBoostTimer p)
        then (if Qltb (speedBoostTimer p - dt) 0 then 0 else speedBoostTimer p - dt)
        else speedBoostTimer p)
  /\ jumpBoostTimer (updateTimers p dt)
     = (if Qltb 0 (jumpBoostTimer p)
        then (if Qltb (jumpBoostTimer p - dt) 0 then 0 else jumpBoostTimer p - dt)
        else jumpBoostTimer p).
Proof.
  unfold updateTimers. cbv zeta. player_fields. tests. all: repeat split; reflexivity.
Qed.

(** The timer block leaves the jump, the lane and the identity alone. *)
Lemma updateTimers_jump (p : PlayerState) (dt : Q) :
  isJumping (updateTimers p dt) = isJumping p
  /\ jumpTimer (updateTimers p dt) = jumpTimer p
  /\ lane (updateTimers p dt) = lane p
  /\ id (updateTimers p dt) = id p.
Proof.
  unfold updateTimers. cbv zeta. player_fields. tests. all: repeat split; reflexivity.
Qed.

(** The three ways through a tick. *)
Lemma updatePlayerPhysics_cases (p : PlayerState) (input : InputState)
    (segment : TrackSegment) (dt : Q) :
  (finished p = true /\ updatePlayerPhysics p input segment dt = p)
  \/ (finished p = false /\ 0 < stunTimer (updateTimers p dt)
      /\ updatePlayerPhysics p input segment dt = updateTimers p dt)
  \/ (finished p = false /\ stunTimer (updateTimers p dt) <= 0
      /\ updatePlayerPhysics p input segment dt
         = movePlayer (updateTimers p dt) input segment dt).
Proof.
  unfold updatePlayerPhysics. destruct (finished p); [left; split; reflexivity|].
  cbv zeta. destruct (Qltb 0 (stunTimer (updateTimers p dt))) eqn:E; orders.
  - right. left. repeat split. assumption.
  - right. right. repeat split. assumption.
Qed.

(** A player whose stun ends within the tick is moved by it. *)
Lemma updatePlayerPhysics_moves (p : PlayerState) (input : InputState)
    (segment : TrackSegment) (dt : Q) :
  finished p = false -> 0 <= dt -> stunTimer p <= dt ->
  updatePlayerPhysics p input segment dt
  = movePlayer (updateTimers p dt) input segment dt.
Proof.
  intros Hfin Hdt Hstun.
  destruct (updatePlayerPhysics_cases p input segment dt)
    as [(H & _)|[(_ & H & _)|(_ & _ & H)]]; [congruence| |exact H].
  exfalso. rewrite (proj1 (updateTimers_fields p dt)) in H.
  destruct (Qltb 0 (stunTimer p)) eqn:E0;
    [destruct (Qltb (stunTimer p - dt) 0) eqn:E1|]; orders; lra.
Qed.

Lemma restOf_timers (p q : PlayerState) :
  restOf p = restOf q ->
  stunTimer p = stunTimer q /\ hasShield p = hasShield q
  /\ shieldTimer p = shieldTimer q /\ speedBoostTimer p = speedBoostTimer q
  /\ jumpBoostTimer p = jumpBoostTimer q /\ finished p = finished q.
Proof. unfold restOf. intro H. injection H. intros. repeat split; assumption. Qed.

(** What a tick makes of the timers: they are those of the timer block,
    unless the player has finished. *)
Lemma updatePlayerPhysics_timers (p : PlayerState) (input : InputState)
    (segment : TrackSegment) (dt : Q) :
  (finished p = true /\ updatePlayerPhysics p input segment dt = p)
  \/ (finished p = false
      /\ restOf (updatePlayerPhysics p input segment dt) = restOf (updateTimers p dt)).
Proof.
  destruct (updatePlayerPhysics_cases p input segment dt)
    as [(Hf & H)|[(Hf & _ & H)|(Hf & _ & H)]];
    [left; split; [exact Hf|exact H]| |]; right; rewrite H.
  - split; [exact Hf|reflexivity].
  - split; [exact Hf|apply movePlayer_rest].
Qed.

Lemma timersSound_updateTimers (p : PlayerState) (dt : Q) :
  timersSound p -> timersSound (updateTimers p dt).
Proof.
  unfold timersSound. intros ((Hs1 & Hs2) & H1 & H2 & H3 & H4).
  destruct (updateTimers_fields p dt) as (-> & -> & -> & -> & ->).
  destruct (Qltb 0 (stunTimer p)) eqn:E1; [destruct (Qltb (stunTimer p - dt) 0) eqn:E1'|];
  (destruct (Qltb 0 (shieldTimer p)) eqn:E2;
     [destruct (Qle_bool (shieldTimer p - dt) 0) eqn:E2'|]);
  (destruct (Qltb 0 (speedBoostTimer p)) eqn:E3;
     [destruct (Qltb (speedBoostTimer p - dt) 0) eqn:E3'|]);
  (destruct (Qltb 0 (jumpBoostTimer p)) eqn:E4;
     [destruct (Qltb (jumpBoostTimer p - dt) 0) eqn:E4'|]);
  orders; (split; [split; intro Hflag|]); repeat split;
  try lra; try discriminate; try (apply Hs2; assumption); try (apply Hs1; assumption).
Qed.

Lemma timersSound_restOf (p q : PlayerState) :
  restOf q = restOf p -> timersSound p -> timersSound q.
Proof.
  intros H. apply restOf_timers in H. destruct H as (E1 & E2 & E3 & E4 & E5 & _).
  unfold timersSound. rewrite E1, E2, E3, E4, E5. exact (fun H => H).
Qed.

Lemma timersSound_applyEvent (p : PlayerState) (e : Event) :
  timersSound p -> timersSound (applyEvent p e).
Proof.
  intro H. destruct e as [input segment dt|other|other|type|type]; cbn [applyEvent].
  - destruct (updatePlayerPhysics_timers p input segment dt) as [(_ & ->)|(_ & E)];
      [exact H|].
    apply (timersSound_restOf _ _ E). apply timersSound_updateTimers. exact H.
  - unfold resolveCollision. destruct (hasShield p && hasShield other); [exact H|].
    cbn [fst]. destruct (negb (hasShield p)); [|exact H].
    unfold timersSound in *. player_fields. constants. intuition lra.
  - unfold resolveCollision. destruct (hasShield other && hasShield p); [exact H|].
    cbn [snd]. destruct (negb (hasShield p)); [|exact H].
    unfold timersSound in *. player_fields. constants. intuition lra.
  - unfold applyObstacleEffect. destruct (hasShield p) eqn:E; [exact H|].
    destruct type; unfold timersSound in *; player_fields; constants;
      rewrite ?E in *; intuition lra.
  - destruct type; unfold applyPowerup, timersSound in *; player_fields; constants;
      intuition (try lra; try reflexivity).
Qed.

Lemma timersSound_run (events : list Event) (p : PlayerState) :
  timersSound p -> timersSound (run p events).
Proof.
  revert p. induction events as [|e events IH]; intros p H; [exact H|].
  apply IH. apply timersSound_applyEvent. exact H.
Qed.

(** The shield flag is set exactly while the shield timer runs, and no
    timer is ever negative: for a player made by [createPlayerState],
    after any ticks, collisions, obstacles and powerups, whatever the
    time steps. *)
Theorem shield_flag_follows_timer (id name : string) (lane : Z) (isBot : bool)
    (skinIndex : Z) (botProfile : option BotProfileType) (events : list Event) :
  let p := run (createPlayerState id name lane isBot skinIndex botProfile) events in
  (hasShield p = true <-> 0 < shieldTimer p)
  /\ 0 <= stunTimer p /\ 0 <= shieldTimer p
  /\ 0 <= speedBoostTimer p /\ 0 <= jumpBoostTimer p.
Proof.
  apply timersSound_run. unfold timersSound, createPlayerState. player_fields.
  repeat split; try lra; try discriminate.
Qed.

End EngineTimers.
(** ** The engine: how long a shield lasts *)

Section EngineShield.

Local Open Scope Q_scope.

Lemma elapsed_nonneg (events : list Event) :
  Forall forward events -> 0 <= elapsed events.
Proof.
  induction 1 as [|e events He _ IH]; [cbn; lra|].
  destruct e; cbn [elapsed forward] in *; lra.
Qed.

(** A shielded player comes out of a collision as it went in. *)
Lemma resolveCollision_shielded (p other : PlayerState) :
  hasShield p = true ->
  fst (resolveCollision p other) = p /\ snd (resolveCollision other p) = p.
Proof.
  intro H. unfold resolveCollision. rewrite H.
  destruct (hasShield other); cbn [andb negb fst snd]; split; reflexivity.
Qed.

(** A collision changes neither the shield nor the finish. *)
Lemma resolveCollision_shield (p other : PlayerState) :
  (hasShield (fst (resolveCollision p other)) = hasShield p
   /\ shieldTimer (fst (resolveCollision p other)) = shieldTimer p
   /\ finished (fst (resolveCollision p other)) = finished p)
  /\ (hasShield (snd (resolveCollision other p)) = hasShield p
      /\ shieldTimer (snd (resolveCollision other p)) = shieldTimer p
      /\ finished (snd (resolveCollision other p)) = finished p).
Proof.
  unfold resolveCollision.
  destruct (hasShield p) eqn:E1, (hasShield other) eqn:E2; cbn [andb negb fst snd];
    player_fields; rewrite ?E1; repeat split; reflexivity.
Qed.

Lemma applyObstacleEffect_shield (p : PlayerState) (type : ObstacleType) :
  hasShield (applyObstacleEffect p type) = hasShield p
  /\ shieldTimer (applyObstacleEffect p type) = shieldTimer p
  /\ finished (applyObstacleEffect p type) = finished p.
Proof.
  unfold applyObstacleEffect. destruct (hasShield p) eqn:E;
    [|destruct type]; player_fields; rewrite ?E; repeat split; reflexivity.
Qed.

(** The shield of a tick: what the timer block makes of it, unless the
    player has finished. *)
Lemma updatePlayerPhysics_shield (p : PlayerState) (input : InputState)
    (segment : TrackSegment) (dt : Q) :
  let p' := updatePlayerPhysics p input segment dt in
  finished p' = finished p
  /\ ((finished p = true /\ p' = p)
      \/ (finished p = false
          /\ hasShield p' = hasShield (updateTimers p dt)
          /\ shieldTimer p' = shieldTimer (updateTimers p dt))).
Proof.
  cbv zeta.
  destruct (updatePlayerPhysics_timers p input segment dt) as [(Hf & ->)|(Hf & E)].
  - split; [reflexivity|]. left. split; [exact Hf|reflexivity].
  - apply restOf_timers in E. destruct E as (_ & E2 & E3 & _ & _ & E6).
    split; [rewrite E6; apply updateTimers_kinematics|].
    right. repeat split; assumption.
Qed.

(** While less time has gone by than the shield timer holds (and than a
    new shield would hold), the shield is up. *)
Lemma shield_holds (events : list Event) (p : PlayerState) :
  Forall forward events ->
  elapsed events < PHYSICS.SHIELD_DURATION ->
  hasShield p = true -> elapsed events < shieldTimer p ->
  hasShield (run p events) = true.
Proof.
  intro Hev. revert p.
  induction Hev as [|e events He Hrest IH]; intros p Hlim Hs Ht; [exact Hs|].
  pose proof (elapsed_nonneg events Hrest) as Hpos.
  change (run p (e :: events)) with (run (applyEvent p e) events).
  destruct e as [input segment dt|other|other|type|type];
    cbn [applyEvent elapsed forward] in *.
  - destruct (updatePlayerPhysics_shield p input segment dt)
      as (_ & [(_ & ->)|(_ & E1 & E2)]).
    + apply IH; [lra|exact Hs|lra].
    + destruct (updateTimers_fields p dt) as (_ & F1 & F2 & _).
      assert (T1 : Qltb 0 (shieldTimer p) = true) by (apply Qltb_lt; lra).
      assert (T2 : Qle_bool (shieldTimer p - dt) 0 = false).
      { destruct (Qle_bool (shieldTimer p - dt) 0) eqn:T; [|reflexivity].
        orders. lra. }
      rewrite T1, T2 in F1, F2.
      apply IH; [lra|congruence|rewrite E2, F1; lra].
  - rewrite (proj1 (resolveCollision_shielded p other Hs)). apply IH; assumption.
  - rewrite (proj2 (resolveCollision_shielded p other Hs)). apply IH; assumption.
  - unfold applyObstacleEffect. rewrite Hs. apply IH; assumption.
  - destruct type; apply IH; try assumption; reflexivity.
Qed.

(** Once as much time has gone by as the shield timer held, the shield
    is down, if none was picked up in between. *)
Lemma shield_ends (events : list Event) (p : PlayerState) :
  Forall forward events -> Forall noShieldPickup events ->
  finished p = false ->
  (hasShield p = true -> 0 < shieldTimer p) ->
  shieldTimer p <= elapsed events ->
  hasShield (run p events) = false.
Proof.
  intro Hev. revert p.
  induction Hev as [|e events He Hrest IH]; intros p Hno Hf Hinv Ht.
  - cbn in *. destruct (hasShield p); [|reflexivity]. specialize (Hinv eq_refl). lra.
  - pose proof (elapsed_nonneg events Hrest) as Hpos.
    inversion Hno as [|? ? Hno1 Hno2]; subst.
    change (run p (e :: events)) with (run (applyEvent p e) events).
    destruct e as [input segment dt|other|other|type|type];
      cbn [applyEvent elapsed forward noShieldPickup] in *.
    + destruct (updatePlayerPhysics_shield p input segment dt)
        as (Hfin & [(Hf' & _)|(_ & E1 & E2)]); [congruence|].
      destruct (updateTimers_fields p dt) as (_ & F1 & F2 & _).
      apply IH; [assumption|congruence| |]; rewrite ?E1, ?E2, ?F1, ?F2;
        (destruct (Qltb 0 (shieldTimer p)) eqn:T1;
           [destruct (Qle_bool (shieldTimer p - dt) 0) eqn:T2|]); orders;
        try discriminate; try lra; intro Hflag; specialize (Hinv Hflag); lra.
    + destruct (resolveCollision_shield p other) as ((E1 & E2 & E3) & _).
      apply IH; [assumption|congruence|rewrite E1, E2; exact Hinv|rewrite E2; exact Ht].
    + destruct (resolveCollision_shield p other) as (_ & (E1 & E2 & E3)).
      apply IH; [assumption|congruence|rewrite E1, E2; exact Hinv|rewrite E2; exact Ht].
    + destruct (applyObstacleEffect_shield p type) as (E1 & E2 & E3).
      apply IH; [assumption|congruence|rewrite E1, E2; exact Hinv|rewrite E2; exact Ht].
    + destruct type; [|contradiction|]; apply IH; assumption.
Qed.

(** The ticks of the scene take a sixtieth of a second each. *)
Lemma elapsed_fixedStep (events : list Event) :
  Forall fixedStep events ->
  Forall forward events
  /\ elapsed events == inject_Z (Z.of_nat (tickCount events)) * (1 # 60).
Proof.
  induction 1 as [|e events He _ (IH1 & IH2)].
  - split; [constructor|reflexivity].
  - split.
    + constructor; [|exact IH1].
      destruct e; cbn [fixedStep forward] in *; [subst; discriminate|exact I..].
    + destruct e as [input segment dt|other|other|type|type];
        cbn [elapsed tickCount fixedStep] in *; try exact IH2.
      subst dt. rewrite IH2, Nat2Z.inj_succ. unfold Z.succ. rewrite inject_Z_plus.
      change PHYSICS.FIXED_DT with (1 / 60). change (inject_Z 1) with 1. field.
Qed.

(** A shield lasts [SHIELD_DURATION] seconds, 240 ticks of the scene:
    picked up by any player, it is still up after any collisions,
    obstacles, powerups and at most 239 ticks of [FIXED_DT]; and it is
    down after 241 ticks or more, for a player that has not finished and
    picks up no further shield. *)
Theorem shield_lasts_240_ticks (p : PlayerState) (events : list Event) :
  Forall fixedStep events ->
  ((tickCount events <= 239)%nat ->
   hasShield (run (applyPowerup p shield) events) = true)
  /\ (finished p = false -> Forall noShieldPickup events ->
      (241 <= tickCount events)%nat ->
      hasShield (run (applyPowerup p shield) events) = false).
Proof.
  intro Hev. destruct (elapsed_fixedStep events Hev) as (Hfw & Hel).
  split.
  - intro Hlim.
    assert (Hq : inject_Z (Z.of_nat (tickCount events)) <= inject_Z 239).
    { rewrite <- Zle_Qle. lia. }
    change (inject_Z 239) with 239 in Hq.
    assert (Hlt : elapsed events < PHYSICS.SHIELD_DURATION).
    { rewrite Hel. change PHYSICS.SHIELD_DURATION with 4. lra. }
    apply shield_holds; [exact Hfw|exact Hlt|reflexivity|exact Hlt].
  - intros Hf Hno Hlim.
    assert (Hq : inject_Z 241 <= inject_Z (Z.of_nat (tickCount events))).
    { rewrite <- Zle_Qle. lia. }
    change (inject_Z 241) with 241 in Hq.
    apply shield_ends; try assumption.
    + intros _. reflexivity.
    + change (shieldTimer (applyPowerup p shield)) with 4. rewrite Hel. lra.
Qed.

Lemma shield_lasts_240_ticks_witness :
  hasShield
    (run (applyPowerup playerA shield)
       (ticks steerLeft defaultSegment PHYSICS.FIXED_DT 3 ++ [Obstacle barrel]))
  = true.
Proof.
  destruct (shield_lasts_240_ticks playerA
              (ticks steerLeft defaultSegment PHYSICS.FIXED_DT 3 ++ [Obstacle barrel]))
    as (H & _).
  - repeat constructor.
  - apply H. cbn. lia.
Defined.

(** The 240th tick is left open above.  With exact numbers the timer
    reaches 0 at that tick; with doubles, [shieldTimer -= dt] leaves it
    just above 0 after 240 ticks and under 0 after 241, so that the
    shield ends one tick later. *)
Lemma shield_timer_in_doubles :
  let tick := fun timer => double (timer - double PHYSICS.FIXED_DT) in
  0 < Nat.iter 239 tick PHYSICS.SHIELD_DURATION
  /\ 0 < Nat.iter 240 tick PHYSICS.SHIELD_DURATION
  /\ Nat.iter 241 tick PHYSICS.SHIELD_DURATION <= 0.
Proof.
  cbv zeta. split; [vm_compute; reflexivity|]. split; [vm_compute; reflexivity|].
  vm_compute. discriminate.
Qed.

(** A shielded player is not changed by obstacles, nor by collisions
    with other players, whichever side of the collision it is on. *)
Theorem shielded_player_ignores_contacts (p : PlayerState) (events : list Event) :
  hasShield p = true -> Forall isContact events -> run p events = p.
Proof.
  intros Hs Hev. induction Hev as [|e events He _ IH]; [reflexivity|].
  change (run p (e :: events)) with (run (applyEvent p e) events).
  destruct e as [input segment dt|other|other|type|type];
    cbn [applyEvent isContact] in *; try contradiction.
  - rewrite (proj1 (resolveCollision_shielded p other Hs)). exact IH.
  - rewrite (proj2 (resolveCollision_shielded p other Hs)). exact IH.
  - unfold applyObstacleEffect. rewrite Hs. exact IH.
Qed.

Lemma shielded_player_ignores_contacts_witness :
  run (applyPowerup playerA shield) [Obstacle barrel; CollideWith playerB; CollidedBy playerB]
  = applyPowerup playerA shield.
Proof.
  apply shielded_player_ignores_contacts.
  - reflexivity.
  - repeat constructor.
Defined.

End EngineShield.
(** ** The engine: collisions between players *)

Section EngineCollisions.

Local Open Scope Q_scope.

Lemma square_lt_1600 (a b : Q) : a * a + b * b < 1600 -> -40 < a /\ a < 40.
Proof. intro H. split; nra. Qed.

(** Two players collide only on the slide and within reach: neither is
    in the air, neither has finished, and they are less than twice the
    collision radius apart, sideways and along the track. *)
Theorem collision_only_within_reach (a b : PlayerState) :
  checkPlayerCollision a b = true ->
  isJumping a = false /\ isJumping b = false
  /\ finished a = false /\ finished b = false
  /\ Qabs (x a - x b) < 2 * PHYSICS.COLLISION_RADIUS
  /\ Qabs (distanceTraveled a - distanceTraveled b) < 2 * PHYSICS.COLLISION_RADIUS.
Proof.
  unfold checkPlayerCollision, sqrt_lt.
  destruct (isJumping a), (isJumping b); cbn [orb]; try discriminate.
  destruct (finished a), (finished b); cbn [orb]; try discriminate.
  cbv zeta. intro H. orders. constants.
  assert (H1 : (x a - x b) * (x a - x b)
               + (distanceTraveled a - distanceTraveled b)
                 * (distanceTraveled a - distanceTraveled b) < 1600) by lra.
  repeat split; try reflexivity; apply Qabs_Qlt_condition.
  - apply square_lt_1600 in H1. lra.
  - rewrite Qplus_comm in H1. apply square_lt_1600 in H1. lra.
Qed.

Lemma collision_only_within_reach_witness :
  Qabs (x playerA - x playerB) < 2 * PHYSICS.COLLISION_RADIUS.
Proof.
  destruct (collision_only_within_reach playerA playerB) as (_ & _ & _ & _ & H & _).
  - reflexivity.
  - exact H.
Defined.



Lemma square_lt_900 (a b : Q) : a * a + b * b < 900 -> -30 < a /\ a < 30.
Proof. intro H. split; nra. Qed.

(** An obstacle is hit only on the slide and within reach: the player
    is not in the air and is less than one and a half collision radii
    from it, sideways and along the track.  The kind of obstacle plays no
    part in the check. *)
Theorem obstacle_hit_only_within_reach (p : PlayerState) (obstacleX obstacleY : Q)
    (type type' : ObstacleType) :
  checkObstacleCollision p obstacleX obstacleY type = true ->
  isJumping p = false
  /\ Qabs (x p - obstacleX) < PHYSICS.COLLISION_RADIUS * 1.5
  /\ Qabs (distanceTraveled p - obstacleY) < PHYSICS.COLLISION_RADIUS * 1.5
  /\ checkObstacleCollision p obstacleX obstacleY type' = true.
Proof.
  unfold checkObstacleCollision, sqrt_lt.
  destruct (isJumping p); [discriminate|]. cbv zeta. intro H.
  split; [reflexivity|]. pose proof (proj1 (Qltb_lt _ _) H) as Hlt.
  unfold PHYSICS.COLLISION_RADIUS in Hlt |- *.
  assert (Hsq : (x p - obstacleX) * (x p - obstacleX)
               + (distanceTraveled p - obstacleY) * (distanceTraveled p - obstacleY)
               < 900) by lra.
  split; [|split; [|exact H]]; apply Qabs_Qlt_condition.
  - apply square_lt_900 in Hsq. lra.
  - rewrite Qplus_comm in Hsq. apply square_lt_900 in Hsq. lra.
Qed.

Lemma obstacle_hit_only_within_reach_witness :
  Qabs (x playerA - 130) < PHYSICS.COLLISION_RADIUS * 1.5.
Proof.
  destruct (obstacle_hit_only_within_reach playerA 130 10 barrel ring) as (_ & H & _).
  - reflexivity.
  - exact H.
Defined.

End EngineCollisions.
(** ** The engine: speeds, position and lane *)

Section EngineMotion.

Local Open Scope Q_scope.

(** Speeds, position and lane after the stages, from the player before. *)
Lemma movePlayer_kinematics (q : PlayerState) (input : InputState)
    (segment : TrackSegment) (dt : Q) :
  let a := accelerateStage q segment dt in
  let t := takeOffStage (steerStage a input dt) input in
  let m := movePlayer q input segment dt in
  forwardSpeed m
  = (if isJumping t && Qle_bool (jumpTimer t - dt) 0
     then forwardSpeed a + PHYSICS.LANDING_BOOST else forwardSpeed a)
  /\ lateralSpeed m = lateralSpeed (steerStage a input dt)
  /\ distanceTraveled m = distanceTraveled q + forwardSpeed m * dt
  /\ x m = Qmax (lowerBound (lanes segment))
             (Qmin (upperBound (lanes segment)) (x q + lateralSpeed m * dt))
  /\ lane m
     = Z.max 0 (Z.min (lanes segment - 1) (Qfloor (x m / PHYSICS.LANE_WIDTH))).
Proof.
  cbv zeta. rewrite movePlayer_stages.
  pose proof (accelerateStage_fields q segment dt) as (_ & A1 & _ & A2 & A3 & _).
  remember (accelerateStage q segment dt) as a eqn:Ea.
  pose proof (steerStage_fields a input dt) as (_ & S1 & _ & S2 & S3 & _).
  remember (steerStage a input dt) as s eqn:Es.
  pose proof (takeOffStage_fields s input) as (_ & T1 & _ & T2 & T3 & T4).
  remember (takeOffStage s input) as t eqn:Et.
  pose proof (airStage_fields t dt) as (_ & R1 & _ & R2 & R3 & R4).
  remember (airStage t dt) as r eqn:Er.
  pose proof (positionStage_fields r dt) as (_ & _ & P1 & P2 & _ & _ & P3 & P4).
  remember (positionStage r dt) as o eqn:Eo.
  pose proof (clampStage_fields o segment) as (_ & C1 & C2 & C3 & _ & _ & C4 & C5).
  remember (clampStage o segment) as m eqn:Em.
  clear Ea Es Et Er Eo Em.
  rewrite T2, S2 in R4. rewrite C3, P4, R3, T4, S3, A3, <- P1, <- C1.
  rewrite R2, T3 in P2, P3. rewrite <- C2 in P2. rewrite <- P2 in P3.
  rewrite R1, T1, S1, A1 in P3. rewrite P3 in C4. rewrite <- P1, <- C1 in R4.
  repeat split; assumption || reflexivity.
Qed.

(** *** Forward speed and distance *)

(** The forward speed that the acceleration stage leaves is between 0
    and the maximum. *)
Lemma accelerateStage_range (q : PlayerState) (segment : TrackSegment) (dt : Q) :
  0 <= dt -> slope segment <= 12 # 5 -> 0 <= friction segment <= 1 ->
  0 <= forwardSpeed q ->
  0 <= forwardSpeed (accelerateStage q segment dt) <= PHYSICS.MAX_FORWARD_SPEED.
Proof.
  intros Hdt Hslope Hfr Hfs.
  rewrite (proj2 (proj2 (proj2 (proj2 (proj2 (proj2 (proj2
             (accelerateStage_fields q segment dt)))))))).
  set (base := forwardSpeed q + (PHYSICS.FORWARD_ACCEL + - slope segment * 50) * dt).
  assert (Hbase : 0 <= base).
  { unfold base, PHYSICS.FORWARD_ACCEL.
    assert (0 <= (120 + - slope segment * 50) * dt)
      by (apply Qmult_le_0_compat; lra).
    lra. }
  set (mult := if Qltb 0 (speedBoostTimer q) then PHYSICS.SPEED_BOOST_MULT else 1).
  assert (Hmult : 0 <= base * mult).
  { apply Qmult_le_0_compat; [exact Hbase|].
    unfold mult. destruct (Qltb 0 (speedBoostTimer q)); constants; lra. }
  destruct (Qmin_spec (base * mult) PHYSICS.MAX_FORWARD_SPEED) as (M1 & M2 & M3).
  assert (Hmin : 0 <= Qmin (base * mult) PHYSICS.MAX_FORWARD_SPEED).
  { destruct M3 as [-> | ->]; [exact Hmult|constants; lra]. }
  generalize dependent (Qmin (base * mult) PHYSICS.MAX_FORWARD_SPEED).
  intros m _ M2 _ Hmin. constants. split; nra.
Qed.

(** One event on a player that slides forward. *)
Lemma sliding_step (p : PlayerState) (e : Event) :
  sliding e ->
  0 <= forwardSpeed p <= PHYSICS.MAX_FORWARD_SPEED + PHYSICS.LANDING_BOOST ->
  0 <= forwardSpeed (applyEvent p e) <= PHYSICS.MAX_FORWARD_SPEED + PHYSICS.LANDING_BOOST
  /\ distanceTraveled p <= distanceTraveled (applyEvent p e).
Proof.
  intros He Hfs. destruct e as [input segment dt|other|other|type|type];
    cbn [applyEvent sliding] in *.
  - destruct He as (Hdt & Hslope & Hfr).
    pose proof (updateTimers_kinematics p dt) as (_ & _ & K1 & K2 & _).
    destruct (updatePlayerPhysics_cases p input segment dt)
      as [(_ & ->)|[(_ & _ & ->)|(_ & _ & ->)]].
    + split; [exact Hfs|lra].
    + rewrite K1, K2. split; [exact Hfs|lra].
    + destruct (movePlayer_kinematics (updateTimers p dt) input segment dt)
        as (F & _ & D & _).
      cbv zeta in F, D.
      pose proof (accelerateStage_range (updateTimers p dt) segment dt Hdt Hslope Hfr)
        as Hacc.
      rewrite K1 in Hacc. specialize (Hacc (proj1 Hfs)).
      match type of F with
      | _ = if ?b then _ else _ => generalize dependent b
      end.
      intros b F. rewrite D, K2.
      assert (Hm : 0 <= forwardSpeed (movePlayer (updateTimers p dt) input segment dt)
                   <= PHYSICS.MAX_FORWARD_SPEED + PHYSICS.LANDING_BOOST).
      { rewrite F. destruct b; constants; lra. }
      split; [exact Hm|].
      assert (0 <= forwardSpeed (movePlayer (updateTimers p dt) input segment dt) * dt)
        by (apply Qmult_le_0_compat; [exact (proj1 Hm)|exact Hdt]).
      lra.
  - unfold resolveCollision.
    destruct (hasShield p && hasShield other); cbn [fst];
      [|destruct (negb (hasShield p))]; player_fields;
      (split; [exact Hfs|apply Qle_refl]).
  - unfold resolveCollision.
    destruct (hasShield other && hasShield p); cbn [snd];
      [|destruct (negb (hasShield p))]; player_fields;
      (split; [exact Hfs|apply Qle_refl]).
  - unfold applyObstacleEffect. destruct (hasShield p);
      [split; [exact Hfs|apply Qle_refl]|].
    destruct type; player_fields; constants; split; lra.
  - destruct type; unfold applyPowerup; player_fields;
      (split; [exact Hfs|apply Qle_refl]).
Qed.

Lemma sliding_run (events : list Event) (p : PlayerState) :
  Forall sliding events ->
  0 <= forwardSpeed p <= PHYSICS.MAX_FORWARD_SPEED + PHYSICS.LANDING_BOOST ->
  0 <= forwardSpeed (run p events) <= PHYSICS.MAX_FORWARD_SPEED + PHYSICS.LANDING_BOOST
  /\ distanceTraveled p <= distanceTraveled (run p events).
Proof.
  intro Hev. revert p. induction Hev as [|e events He _ IH]; intros p Hfs.
  - split; [exact Hfs|cbn; lra].
  - change (run p (e :: events)) with (run (applyEvent p e) events).
    destruct (sliding_step p e He Hfs) as (H1 & H2).
    destruct (IH _ H1) as (H3 & H4). split; [exact H3|lra].
Qed.

(** The forward speed stays between 0 and [MAX_FORWARD_SPEED] plus the
    landing boost, through any ticks, collisions, obstacles and powerups,
    on segments with a friction factor between 0 and 1 that do not
    slope up by more than the forward acceleration makes up for. *)
Theorem forward_speed_stays_in_range (p : PlayerState) (events : list Event) :
  Forall sliding events ->
  0 <= forwardSpeed p <= PHYSICS.MAX_FORWARD_SPEED + PHYSICS.LANDING_BOOST ->
  0 <= forwardSpeed (run p events)
  /\ forwardSpeed (run p events) <= PHYSICS.MAX_FORWARD_SPEED + PHYSICS.LANDING_BOOST.
Proof. intros Hev Hfs. exact (proj1 (sliding_run events p Hev Hfs)). Qed.

Lemma forward_speed_stays_in_range_witness :
  forwardSpeed
    (run playerA
       [Tick steerLeft defaultSegment PHYSICS.FIXED_DT; Obstacle ring;
        Tick steerLeft narrowSegment PHYSICS.FIXED_DT])
  <= PHYSICS.MAX_FORWARD_SPEED + PHYSICS.LANDING_BOOST.
Proof.
  apply forward_speed_stays_in_range.
  - repeat constructor; vm_compute; discriminate.
  - split; vm_compute; discriminate.
Defined.

(** Under the same conditions no player ever goes back along the track. *)
Theorem distance_never_decreases (p : PlayerState) (events : list Event) :
  Forall sliding events ->
  0 <= forwardSpeed p <= PHYSICS.MAX_FORWARD_SPEED + PHYSICS.LANDING_BOOST ->
  distanceTraveled p <= distanceTraveled (run p events).
Proof. intros Hev Hfs. exact (proj2 (sliding_run events p Hev Hfs)). Qed.

Lemma distance_never_decreases_witness :
  distanceTraveled playerA
  <= distanceTraveled
       (run playerA
          [Tick steerLeft defaultSegment PHYSICS.FIXED_DT; Obstacle ring;
           Tick steerLeft narrowSegment PHYSICS.FIXED_DT]).
Proof.
  apply distance_never_decreases.
  - repeat constructor; vm_compute; discriminate.
  - split; vm_compute; discriminate.
Defined.

End EngineMotion.
(** ** The engine: steering, lanes and jumps *)

Section EngineSteering.

Local Open Scope Q_scope.

(** The lateral speed after the steering stage. *)
Lemma steerStage_lateralSpeed (p : PlayerState) (input : InputState) (dt : Q) :
  0 <= dt ->
  (xorb (left input) (right input) = true ->
   - PHYSICS.LATERAL_SPEED <= lateralSpeed (steerStage p input dt)
   /\ lateralSpeed (steerStage p input dt) <= PHYSICS.LATERAL_SPEED)
  /\ (xorb (left input) (right input) = false ->
      (0 <= lateralSpeed (steerStage p input dt)
       /\ lateralSpeed (steerStage p input dt) <= lateralSpeed p)
      \/ (lateralSpeed p <= lateralSpeed (steerStage p input dt)
          /\ lateralSpeed (steerStage p input dt) <= 0)).
Proof.
  intro Hdt. unfold steerStage. cbv zeta.
  assert (Hclamp : forall v,
             - PHYSICS.LATERAL_SPEED
             <= Qmax (- PHYSICS.LATERAL_SPEED) (Qmin PHYSICS.LATERAL_SPEED v)
             /\ Qmax (- PHYSICS.LATERAL_SPEED) (Qmin PHYSICS.LATERAL_SPEED v)
                <= PHYSICS.LATERAL_SPEED).
  { intro v. destruct (Qmin_spec PHYSICS.LATERAL_SPEED v) as (M1 & M2 & M3).
    destruct (Qmax_spec (- PHYSICS.LATERAL_SPEED) (Qmin PHYSICS.LATERAL_SPEED v))
      as (N1 & N2 & [E | E]); rewrite E in *; constants; split; lra. }
  assert (Hfr : 0 <= PHYSICS.LATERAL_FRICTION * dt)
    by (apply Qmult_le_0_compat; [constants; lra|exact Hdt]).
  destruct (left input), (right input); cbn [xorb];
    (split; [intro H|intro H]); try discriminate H.
  - change (negb (Qeq_bool (-1 + 1) 0)) with false. cbv iota. player_fields.
    tests; player_fields; orders; first [left; split; lra|right; split; lra].
  - change (negb (Qeq_bool (-1 + 0) 0)) with true. cbv iota. player_fields.
    apply Hclamp.
  - change (negb (Qeq_bool (0 + 1) 0)) with true. cbv iota. player_fields.
    apply Hclamp.
  - change (negb (Qeq_bool (0 + 0) 0)) with false. cbv iota. player_fields.
    tests; player_fields; orders; first [left; split; lra|right; split; lra].
Qed.

(** Steering one way brings the lateral speed within [LATERAL_SPEED],
    whatever it was; without steering (or with both directions held) the
    friction brings it towards 0 and never past it.  This is for a tick
    that moves the player: not finished, and the stun over by the end of
    the tick. *)
Theorem steering_bounds_lateral_speed (p : PlayerState) (input : InputState)
    (segment : TrackSegment) (dt : Q) :
  finished p = false -> 0 <= dt -> stunTimer p <= dt ->
  let p' := updatePlayerPhysics p input segment dt in
  (xorb (left input) (right input) = true ->
   - PHYSICS.LATERAL_SPEED <= lateralSpeed p' /\ lateralSpeed p' <= PHYSICS.LATERAL_SPEED)
  /\ (xorb (left input) (right input) = false ->
      (0 <= lateralSpeed p' /\ lateralSpeed p' <= lateralSpeed p)
      \/ (lateralSpeed p <= lateralSpeed p' /\ lateralSpeed p' <= 0)).
Proof.
  intros Hfin Hdt Hstun. cbv zeta.
  rewrite (updatePlayerPhysics_moves p input segment dt Hfin Hdt Hstun).
  destruct (movePlayer_kinematics (updateTimers p dt) input segment dt) as (_ & -> & _).
  pose proof (steerStage_lateralSpeed
                (accelerateStage (updateTimers p dt) segment dt) input dt Hdt) as H.
  destruct (accelerateStage_fields (updateTimers p dt) segment dt)
    as (_ & _ & _ & E & _).
  rewrite E, (proj1 (proj2 (updateTimers_kinematics p dt))) in H. exact H.
Qed.

Lemma steering_bounds_lateral_speed_witness :
  - PHYSICS.LATERAL_SPEED
  <= lateralSpeed
       (updatePlayerPhysics (fst (resolveCollision playerA playerB)) steerLeft
          defaultSegment (1 # 2)).
Proof.
  destruct (steering_bounds_lateral_speed (fst (resolveCollision playerA playerB))
              steerLeft defaultSegment (1 # 2)) as (H & _).
  - reflexivity.
  - vm_compute. discriminate.
  - vm_compute. discriminate.
  - apply H. reflexivity.
Defined.

(** *** The lane *)

Lemma Qfloor_lane (v : Q) (lo hi : Z) :
  inject_Z lo * PHYSICS.LANE_WIDTH <= v ->
  v < inject_Z (hi + 1) * PHYSICS.LANE_WIDTH ->
  (lo <= Qfloor (v / PHYSICS.LANE_WIDTH) <= hi)%Z.
Proof.
  intros H1 H2. unfold PHYSICS.LANE_WIDTH in *.
  assert (L : inject_Z lo <= v / 50).
  { apply Qle_shift_div_l; [lra|exact H1]. }
  assert (U : v / 50 < inject_Z (hi + 1)).
  { apply Qlt_shift_div_r; [lra|exact H2]. }
  split.
  - rewrite <- (Qfloor_Z lo). apply Qfloor_resp_le. exact L.
  - assert (Qfloor (v / 50) < hi + 1)%Z; [|lia].
    rewrite Zlt_Qlt. apply (Qle_lt_trans _ (v / 50)); [apply Qfloor_le|exact U].
Qed.

(** After a tick that moves the player, its lane is a lane of the
    segment.  On five lanes it is the lane that [x] lies in; on three
    lanes, where [x] is kept between 60 and 190, it is 1 or 2, never 0. *)
Theorem lane_is_a_lane_of_the_segment (p : PlayerState) (input : InputState)
    (segment : TrackSegment) (dt : Q) :
  finished p = false -> 0 <= dt -> stunTimer p <= dt ->
  (1 <= lanes segment)%Z ->
  let p' := updatePlayerPhysics p input segment dt in
  (0 <= lane p' <= lanes segment - 1)%Z
  /\ (lanes segment = 5%Z -> lane p' = Qfloor (x p' / PHYSICS.LANE_WIDTH))
  /\ (lanes segment = 3%Z -> (1 <= lane p')%Z).
Proof.
  intros Hfin Hdt Hstun Hl. cbv zeta.
  rewrite (updatePlayerPhysics_moves p input segment dt Hfin Hdt Hstun).
  pose proof (movePlayer_inLaneBounds (updateTimers p dt) input segment dt Hl) as Hx.
  destruct (movePlayer_kinematics (updateTimers p dt) input segment dt)
    as (_ & _ & _ & _ & ->).
  generalize dependent (x (movePlayer (updateTimers p dt) input segment dt)).
  intros v (Hlo & Hhi). split; [lia|]. split; intro E; rewrite E in *.
  - assert (0 <= Qfloor (v / PHYSICS.LANE_WIDTH) <= 4)%Z; [|lia].
    apply Qfloor_lane; unfold lowerBound, upperBound in *; constants;
      unfold Qdiv in *; change (/ 2) with (1 # 2) in *;
      change (inject_Z 5) with 5 in *; change (inject_Z 0) with 0;
      change (inject_Z (4 + 1)) with 5; lra.
  - assert (1 <= Qfloor (v / PHYSICS.LANE_WIDTH) <= 3)%Z; [|lia].
    apply Qfloor_lane; unfold lowerBound, upperBound in *; constants;
      unfold Qdiv in *; change (/ 2) with (1 # 2) in *;
      change (inject_Z 3) with 3 in *; change (inject_Z 1) with 1;
      change (inject_Z (3 + 1)) with 4; lra.
Qed.

Lemma lane_is_a_lane_of_the_segment_witness :
  (1 <= lane (updatePlayerPhysics stunEnding steerLeft narrowSegment PHYSICS.FIXED_DT))%Z.
Proof.
  destruct (lane_is_a_lane_of_the_segment stunEnding steerLeft narrowSegment
              PHYSICS.FIXED_DT) as (_ & _ & H).
  - reflexivity.
  - vm_compute. discriminate.
  - vm_compute. discriminate.
  - vm_compute. discriminate.
  - apply H. reflexivity.
Defined.

(** A new player stands in the middle of the lane it is given: within
    the bounds of a five-lane segment, and in the lane that the physics
    derive from [x]. *)
Theorem new_player_is_in_its_lane (id name : string) (lane : Z) (isBot : bool)
    (skinIndex : Z) (botProfile : option BotProfileType) :
  (0 <= lane <= 4)%Z ->
  let p := createPlayerState id name lane isBot skinIndex botProfile in
  inLaneBounds PHYSICS.MAX_LANES (x p)
  /\ Qfloor (x p / PHYSICS.LANE_WIDTH) = lane.
Proof.
  intros Hl. cbv zeta. unfold createPlayerState. player_fields.
  assert (L0 : 0 <= inject_Z lane) by (change 0 with (inject_Z 0); rewrite <- Zle_Qle; lia).
  assert (L4 : inject_Z lane <= 4) by (change 4 with (inject_Z 4); rewrite <- Zle_Qle; lia).
  split.
  - unfold inLaneBounds, lowerBound, upperBound, PHYSICS.MAX_LANES. constants.
    unfold Qdiv. change (/ 2) with (1 # 2). change (inject_Z 5) with 5. lra.
  - assert (lane <= Qfloor ((inject_Z lane * PHYSICS.LANE_WIDTH + PHYSICS.LANE_WIDTH / 2)
                            / PHYSICS.LANE_WIDTH) <= lane)%Z; [|lia].
    apply Qfloor_lane; rewrite ?inject_Z_plus; constants;
      unfold Qdiv; change (/ 2) with (1 # 2); change (inject_Z 1) with 1; lra.
Qed.

Lemma new_player_is_in_its_lane_witness :
  Qfloor (x playerB / PHYSICS.LANE_WIDTH) = 2%Z.
Proof.
  destruct (new_player_is_in_its_lane "b" "B" 2 false 1 None) as (_ & H).
  - lia.
  - exact H.
Defined.

(** *** Jumps *)

(** The jump input does nothing while the player is in the air: the
    tick is the one without it. *)
Theorem jump_input_ignored_in_the_air (p : PlayerState) (input : InputState)
    (segment : TrackSegment) (dt : Q) :
  isJumping p = true ->
  updatePlayerPhysics p input segment dt
  = updatePlayerPhysics p (mkInput (left input) (right input) false) segment dt.
Proof.
  intro Hj. unfold updatePlayerPhysics. destruct (finished p); [reflexivity|].
  cbv zeta. destruct (Qltb 0 (stunTimer (updateTimers p dt))); [reflexivity|].
  rewrite !movePlayer_stages.
  set (a := accelerateStage (updateTimers p dt) segment dt).
  change (steerStage a (mkInput (left input) (right input) false) dt)
    with (steerStage a input dt).
  assert (E : isJumping (steerStage a input dt) = true).
  { rewrite (proj1 (proj2 (proj2 (proj2 (proj2 (proj2 (steerStage_fields a input dt))))))).
    unfold a.
    rewrite (proj1 (proj2 (proj2 (proj2 (proj2 (proj2
               (accelerateStage_fields (updateTimers p dt) segment dt))))))).
    rewrite (proj1 (updateTimers_jump p dt)). exact Hj. }
  assert (T : forall i, takeOffStage (steerStage a input dt) i = steerStage a input dt).
  { intro i. unfold takeOffStage. rewrite E. cbn [negb].
    rewrite Bool.andb_false_r. reflexivity. }
  rewrite !T. reflexivity.
Qed.

Lemma jump_input_ignored_in_the_air_witness :
  updatePlayerPhysics (set_isJumping playerA true) (mkInput true false true)
    defaultSegment PHYSICS.FIXED_DT
  = updatePlayerPhysics (set_isJumping playerA true) (mkInput true false false)
      defaultSegment PHYSICS.FIXED_DT.
Proof.
  apply (jump_input_ignored_in_the_air (set_isJumping playerA true)
           (mkInput true false true)).
  reflexivity.
Defined.

End EngineSteering.
(** ** The generator and the track *)

Section TrackExtra.

Local Open Scope Q_scope.

(** [next] is within 0 and 1 and [nextInt] within its bounds, both ends
    included, [nextFloat] is not under its lower bound, and the three
    kinds of draw take the generator to the same state, a signed 32-bit
    integer. *)
Theorem draws_are_within_bounds (g : Rng.SeededRNG) (min max : Z) (lo hi : Q) :
  (min <= max)%Z -> lo <= hi ->
  (0 <= fst (Rng.next g) /\ fst (Rng.next g) <= 1)
  /\ (min <= fst (Rng.nextInt min max g) <= max)%Z
  /\ lo <= fst (Rng.nextFloat lo hi g)
  /\ snd (Rng.nextInt min max g) = snd (Rng.next g)
  /\ snd (Rng.nextFloat lo hi g) = snd (Rng.next g)
  /\ (- 2 ^ 31 <= Rng.getSeed (snd (Rng.next g)) < 2 ^ 31)%Z.
Proof.
  intros Hz Hq. split; [apply next_range|]. split; [apply nextInt_range; exact Hz|].
  split; [exact (proj1 (nextFloat_range lo hi g Hq))|].
  unfold Rng.nextInt, Rng.nextFloat. destruct (Rng.next g) as [v g'] eqn:E.
  split; [reflexivity|]. split; [reflexivity|].
  unfold Rng.next in E. injection E as _ <-.
  unfold Rng.getSeed, bit_and. cbn [Rng.seed snd].
  generalize (Z.land (ToInt32 (Rng.seed g * 1664525 + 1013904223)) (ToInt32 4294967295)).
  intro z. unfold ToInt32. cbv zeta.
  pose proof (Z.mod_pos_bound z (2 ^ 32) ltac:(lia)) as Hm.
  destruct (z mod 2 ^ 32 <? 2 ^ 31)%Z eqn:T; [apply Z.ltb_lt in T|apply Z.ltb_ge in T]; lia.
Qed.

Lemma draws_are_within_bounds_witness :
  (0 <= fst (Rng.nextInt 0 3 (Rng.mk 42)) <= 3)%Z.
Proof.
  destruct (draws_are_within_bounds (Rng.mk 42) 0 3 0 1) as (_ & H & _).
  - lia.
  - lra.
  - exact H.
Defined.

(** No upper bound is stated for [nextFloat] above.  With exact numbers
    it is [max] at most; with doubles, where [next] returns 1,
    [nextFloat (-5, 0.2)] is [(0.2 + 5) * 1 - 5], which rounds to more
    than 0.2. *)
Lemma nextFloat_in_doubles :
  fst (Rng.next (Rng.mk 653637408)) == 1
  /\ double 0.2 < double (double (1 * double (double 0.2 - - (5))) + - (5)).
Proof. split; vm_compute; reflexivity. Qed.

Variable mode : GameMode.

Lemma pushObstacles_generated (lanes : Z) (n : nat) :
  (0 <= lanes)%Z ->
  forall (acc : list ObstacleData) (g : Rng.SeededRNG),
    Forall (generatedObstacle lanes) acc ->
    Forall (generatedObstacle lanes) (fst (pushObstacles mode n lanes acc g))
    /\ List.length (fst (pushObstacles mode n lanes acc g)) = (List.length acc + n)%nat.
Proof.
  intro Hl. induction n as [|n IH]; intros acc g Hacc.
  - cbn. split; [exact Hacc|lia].
  - cbn [pushObstacles]. unfold Rng.bind.
    destruct (Rng.nextInt 0 3 g) as [ti g1].
    pose proof (nextInt_range 0 lanes g1 Hl) as Hlane.
    destruct (Rng.nextInt 0 lanes g1) as [lane g2]. cbn [fst] in Hlane.
    pose proof (nextFloat_range 0.1 0.9 g2 ltac:(lra)) as Hpos.
    destruct (Rng.nextFloat 0.1 0.9 g2) as [position g3]. cbn [fst] in Hpos.
    destruct (Rng.next g3) as [r g4].
    pose proof (nextInt_range 20 50 g4 ltac:(lia)) as Hrange.
    destruct (Rng.nextInt 20 50 g4) as [moveRange g5]. cbn [fst] in Hrange.
    match goal with
    | |- context [pushObstacles mode n lanes (acc ++ [?o]) g5] =>
        destruct (IH (acc ++ [o]) g5) as (IH1 & IH2)
    end.
    + apply Forall_app. split; [exact Hacc|]. constructor; [|constructor].
      split; [split; assumption|]. split; eexists; [reflexivity|].
      split; [reflexivity|exact Hrange].
    + split; [exact IH1|]. rewrite IH2, length_app. cbn. lia.
Qed.

Lemma pushPowerups_generated (lanes : Z) (n : nat) :
  (0 <= lanes)%Z ->
  forall (acc : list PowerupData) (g : Rng.SeededRNG),
    Forall (generatedPowerup lanes) acc ->
    Forall (generatedPowerup lanes) (fst (pushPowerups n lanes acc g))
    /\ List.length (fst (pushPowerups n lanes acc g)) = (List.length acc + n)%nat.
Proof.
  intro Hl. induction n as [|n IH]; intros acc g Hacc.
  - cbn. split; [exact Hacc|lia].
  - cbn [pushPowerups]. unfold Rng.bind.
    destruct (Rng.nextInt 0 3 g) as [ti g1].
    pose proof (nextInt_range 0 lanes g1 Hl) as Hlane.
    destruct (Rng.nextInt 0 lanes g1) as [lane g2]. cbn [fst] in Hlane.
    pose proof (nextFloat_range 0.1 0.9 g2 ltac:(lra)) as Hpos.
    destruct (Rng.nextFloat 0.1 0.9 g2) as [position g3]. cbn [fst] in Hpos.
    match goal with
    | |- context [pushPowerups n lanes (acc ++ [?o]) g3] =>
        destruct (IH (acc ++ [o]) g3) as (IH1 & IH2)
    end.
    + apply Forall_app. split; [exact Hacc|]. constructor; [|constructor].
      split; assumption.
    + split; [exact IH1|]. rewrite IH2, length_app. cbn. lia.
Qed.

(** Every segment that a turn of the loop draws is well formed. *)
Lemma generateSegment_wellFormed (g : Rng.SeededRNG) :
  wellFormed (fst (generateSegment mode g)).
Proof.
  unfold generateSegment, Rng.bind.
  destruct (Rng.nextInt 0 (length_Z (segmentTypes mode)) g) as [ti g1].
  pose proof (nextInt_range 150 500 g1 ltac:(lia)) as Hlen.
  destruct (Rng.nextInt 150 500 g1) as [len g2]. cbn [fst] in Hlen.
  pose proof (nextFloat_range 0.95 0.99 g2 ltac:(lra)) as Hfr.
  destruct (Rng.nextFloat 0.95 0.99 g2) as [fr g3]. cbn [fst] in Hfr.
  pose proof (nextFloat_range (-1.2) (-0.3) g3 ltac:(lra)) as Hsl.
  destruct (Rng.nextFloat (-1.2) (-0.3) g3) as [sl g4]. cbn [fst] in Hsl.
  set (width := match index (segmentTypes mode) ti with
                | Some narrow => 3%Z
                | _ => 5%Z
                end).
  assert (Hlanes : (width = 3 \/ width = 5)%Z
                   /\ (width = 3%Z <-> index (segmentTypes mode) ti = Some narrow)).
  { unfold width. destruct (index (segmentTypes mode) ti) as [[]|];
      (split; [auto|split; intro H; (discriminate H || reflexivity)]). }
  assert (Hl0 : (0 <= width)%Z) by (destruct Hlanes as ([->| ->] & _); lia).
  assert (Hcount : exists obsCount g5,
             (if GameMode_eqb mode chaos then Rng.nextInt 2 6 else Rng.nextInt 0 4) g4
             = (obsCount, g5) /\ (0 <= obsCount <= 6)%Z).
  { destruct (GameMode_eqb mode chaos).
    - pose proof (nextInt_range 2 6 g4 ltac:(lia)) as H.
      destruct (Rng.nextInt 2 6 g4) as [c g5]. exists c, g5. cbn [fst] in H.
      split; [reflexivity|lia].
    - pose proof (nextInt_range 0 4 g4 ltac:(lia)) as H.
      destruct (Rng.nextInt 0 4 g4) as [c g5]. exists c, g5. cbn [fst] in H.
      split; [reflexivity|lia]. }
  destruct Hcount as (obsCount & g5 & -> & Hobs).
  destruct (pushObstacles_generated width (Z.to_nat obsCount) Hl0 [] g5 (Forall_nil _))
    as (O1 & O2).
  destruct (pushObstacles mode (Z.to_nat obsCount) width [] g5) as [obs' g6].
  cbn [fst] in O1, O2.
  pose proof (nextInt_range 0 3 g6 ltac:(lia)) as Hpu.
  destruct (Rng.nextInt 0 3 g6) as [puCount g7]. cbn [fst] in Hpu.
  destruct (pushPowerups_generated width (Z.to_nat puCount) Hl0 [] g7 (Forall_nil _))
    as (P1 & P2).
  destruct (pushPowerups (Z.to_nat puCount) width [] g7) as [pus g8].
  cbn [fst] in P1, P2. cbn [Rng.ret fst]. unfold wellFormed, createSegment.
  cbn [seg_length lanes seg_type friction slope obstacles powerups].
  cbn [List.length Nat.add] in O2, P2.
  repeat split; try tauto; try lia; try lra; try assumption; apply Hlanes.
Qed.


(** What the loop appends: well-formed segments, and no more than one
    segment beyond the target. *)
Lemma generateLoop_generated (targetLength : Q) (fuel : nat) :
  forall (currentLength : Z) (segments : list TrackSegment) (g : Rng.SeededRNG)
         segments' currentLength' g',
    generateLoop mode fuel targetLength currentLength segments g
    = Some (segments', currentLength', g') ->
    exists added,
      segments' = segments ++ added
      /\ currentLength' = (currentLength + totalLength added)%Z
      /\ Forall wellFormed added
      /\ (added = [] \/ inject_Z currentLength' < targetLength + 500).
Proof.
  induction fuel as [|fuel IH]; intros cur segs g segs' cur' g' Hrun;
    cbn [generateLoop] in Hrun;
    destruct (Qltb (inject_Z cur) targetLength) eqn:E; try discriminate Hrun.
  - injection Hrun as <- <- <-. exists []. rewrite List.app_nil_r.
    cbn [totalLength fold_right]. rewrite Z.add_0_r. auto.
  - pose proof (generateSegment_wellFormed g) as Hwf.
    destruct (generateSegment mode g) as [seg g1]. cbn [fst] in Hwf.
    destruct (IH _ _ _ _ _ _ Hrun) as (added & -> & -> & Hall & Hend).
    exists (seg :: added). rewrite <- List.app_assoc. cbn [app].
    replace (totalLength (seg :: added)) with (seg_length seg + totalLength added)%Z
      by reflexivity.
    split; [reflexivity|]. split; [lia|]. split; [constructor; assumption|].
    right. destruct Hend as [-> | Hend]; [|exact Hend].
    cbn [totalLength fold_right]. rewrite Z.add_0_r, inject_Z_plus.
    apply Qltb_lt in E. destruct Hwf as (Hlen & _).
    assert (inject_Z (seg_length seg) <= 500)
      by (change 500 with (inject_Z 500); rewrite <- Zle_Qle; lia).
    lra.
  - injection Hrun as <- <- <-. exists []. rewrite List.app_nil_r.
    cbn [totalLength fold_right]. rewrite Z.add_0_r. auto.
Qed.

Lemma wellFormed_ends :
  wellFormed startSegment
  /\ wellFormed (createSegment (Some straight) 200 5 0.99 (-0.8) [] []).
Proof.
  split; unfold wellFormed, startSegment, createSegment;
    cbn [seg_length lanes seg_type friction slope obstacles powerups List.length].
  - split; [lia|]. split; [right; reflexivity|]. split; [split; discriminate|].
    split; [split; lra|]. split; [split; lra|]. split; [lia|]. split; [lia|].
    split; [constructor|]. constructor; [|constructor].
    unfold generatedPowerup, placed, pu. cbn [pu_lane pu_position].
    split; [lia|split; lra].
  - split; [lia|]. split; [right; reflexivity|]. split; [split; discriminate|].
    split; [split; lra|]. split; [split; lra|]. split; [lia|]. split; [lia|].
    split; constructor.
Qed.

(** What [createTrack] returns, with what the loop appended. *)
Lemma createTrack_parts (rng : Rng.SeededRNG) (settings : GameSettings) :
  exists added rng',
    createTrack mode rng settings
    = Some (startSegment :: added
            ++ [createSegment (Some straight) 200 5 0.99 (-0.8) [] []], rng')
    /\ Forall wellFormed added
    /\ (added = []
        \/ inject_Z (300 + totalLength added) < matchLength settings * 80 + 500).
Proof.
  destruct (generateLoop_ends mode (matchLength settings * 80) (turns settings) 300
              [startSegment] rng (turns_enough settings))
    as (added & g' & Hrun & _ & _).
  destruct (generateLoop_generated _ _ _ _ _ _ _ _ Hrun)
    as (added' & Happ & _ & Hall & Hend).
  apply app_inv_head in Happ. subst added'.
  exists added, g'. unfold createTrack, createTrack_fuel. fold startSegment.
  rewrite Hrun. auto.
Qed.

(** Every segment of a generated track is well formed: a length from 150
    to 500, three lanes on a narrow segment and five otherwise, friction
    from 0.95 to 0.99, a slope from -1.2 to -0.3 (downhill), at most six
    obstacles and three powerups, each at a position from 0.1 to 0.9 in a
    lane from 0 to the number of lanes, that number included. *)
Theorem generated_track_is_well_formed (rng : Rng.SeededRNG) (settings : GameSettings) :
  exists track rng',
    createTrack mode rng settings = Some (track, rng') /\ Forall wellFormed track.
Proof.
  destruct (createTrack_parts rng settings) as (added & rng' & Hrun & Hall & _).
  eexists. exists rng'. split; [exact Hrun|].
  constructor; [exact (proj1 wellFormed_ends)|].
  apply Forall_app. split; [exact Hall|].
  constructor; [exact (proj2 wellFormed_ends)|constructor].
Qed.

Lemma totalTrackLength_from (track : list TrackSegment) (sum : Z) :
  fold_left (fun sum seg => (sum + seg_length seg)%Z) track sum
  = (sum + totalLength track)%Z.
Proof.
  revert sum. induction track as [|s track IH]; intro sum; cbn [fold_left].
  - cbn. lia.
  - rewrite IH. change (totalLength (s :: track)) with (seg_length s + totalLength track)%Z.
    lia.
Qed.

(** A generated track starts with the straight of length 300 and is, in
    all, 500 long (when the target is 300 or less) or less than 700
    longer than the target [matchLength * 80]; the scene's sum of the
    lengths is that total. *)
Theorem generated_track_overshoots_by_less_than_700 (rng : Rng.SeededRNG)
    (settings : GameSettings) :
  exists track rng',
    createTrack mode rng settings = Some (track, rng')
    /\ hd_error track = Some startSegment
    /\ GameScene.totalTrackLength track = totalLength track
    /\ (totalLength track = 500%Z
        \/ inject_Z (totalLength track) < matchLength settings * 80 + 700).
Proof.
  destruct (createTrack_parts rng settings) as (added & rng' & Hrun & _ & Hend).
  eexists. exists rng'. split; [exact Hrun|]. split; [reflexivity|].
  split; [unfold GameScene.totalTrackLength; rewrite totalTrackLength_from; lia|].
  change (totalLength (startSegment :: ?l)) with (300 + totalLength l)%Z.
  rewrite totalLength_app.
  replace (totalLength [createSegment (Some straight) 200 5 0.99 (-0.8) [] []])
    with 200%Z by reflexivity.
  destruct Hend as [-> | Hend]; [left; reflexivity|right].
  rewrite Z.add_assoc, inject_Z_plus. change (inject_Z 200) with 200. lra.
Qed.

End TrackExtra.

(** ** The segment under a player *)

Section SegmentExtra.

Local Open Scope Q_scope.

Lemma segmentFrom_In (track : list TrackSegment) (distance : Q) :
  forall acc seg, GameScene.segmentFrom track acc distance = Some seg -> In seg track.
Proof.
  induction track as [|s track IH]; intros acc seg H; cbn [GameScene.segmentFrom] in H;
    [discriminate H|].
  destruct (Qltb distance (inject_Z (acc + seg_length s))).
  - injection H as ->. left. reflexivity.
  - right. exact (IH _ _ H).
Qed.

Lemma index_last (track : list TrackSegment) (seg : TrackSegment) :
  index (track ++ [seg]) (length_Z (track ++ [seg]) - 1) = Some seg.
Proof.
  unfold index, length_Z. rewrite length_app. cbn [List.length].
  destruct (Z.of_nat (List.length track + 1) - 1 <? 0)%Z eqn:E;
    [apply Z.ltb_lt in E; lia|].
  replace (Z.to_nat (Z.of_nat (List.length track + 1) - 1)) with (List.length track) by lia.
  rewrite nth_error_app2 by lia. rewrite Nat.sub_diag. reflexivity.
Qed.

(** On a track that has a segment, [getSegment] returns one of its
    segments, whatever the distance; on an empty track it returns
    [undefined]. *)
Theorem getSegment_is_a_segment (track : list TrackSegment) (distance : Q) :
  track <> [] ->
  GameScene.getSegment [] distance = None
  /\ exists seg, GameScene.getSegment track distance = Some seg /\ In seg track.
Proof.
  intro Hne. split; [reflexivity|]. unfold GameScene.getSegment.
  destruct (GameScene.segmentFrom track 0 distance) as [seg|] eqn:E.
  - exists seg. split; [reflexivity|exact (segmentFrom_In _ _ _ _ E)].
  - destruct (exists_last Hne) as (body & seg & ->).
    exists seg. split; [apply index_last|]. apply in_or_app. right. left. reflexivity.
Qed.

Lemma getSegment_is_a_segment_witness :
  exists seg, GameScene.getSegment getClassicTrack 1000 = Some seg /\ In seg getClassicTrack.
Proof.
  destruct (getSegment_is_a_segment getClassicTrack 1000) as (_ & H).
  - discriminate.
  - exact H.
Defined.

Lemma totalLength_nonneg (track : list TrackSegment) :
  Forall (fun s => (0 <= seg_length s)%Z) track -> (0 <= totalLength track)%Z.
Proof.
  induction 1 as [|s track Hs _ IH]; [cbn; lia|].
  change (totalLength (s :: track)) with (seg_length s + totalLength track)%Z. lia.
Qed.

Lemma segmentFrom_skip (before rest : list TrackSegment) (distance : Q) :
  Forall (fun s => (0 <= seg_length s)%Z) before ->
  forall acc,
    inject_Z (acc + totalLength before) <= distance ->
    GameScene.segmentFrom (before ++ rest) acc distance
    = GameScene.segmentFrom rest (acc + totalLength before) distance.
Proof.
  induction 1 as [|s before Hs Hall IH]; intros acc Hd.
  - cbn [app totalLength fold_right]. rewrite Z.add_0_r. reflexivity.
  - cbn [app GameScene.segmentFrom].
    change (totalLength (s :: before)) with (seg_length s + totalLength before)%Z in *.
    pose proof (totalLength_nonneg before Hall) as Hpos.
    assert (E : Qltb distance (inject_Z (acc + seg_length s)) = false).
    { apply Qltb_ge. apply (Qle_trans _ (inject_Z (acc + (seg_length s + totalLength before))));
        [rewrite <- Zle_Qle; lia|exact Hd]. }
    rewrite E, IH; [f_equal; lia|].
    replace (acc + seg_length s + totalLength before)%Z
      with (acc + (seg_length s + totalLength before))%Z by lia.
    exact Hd.
Qed.

(** [getSegment] returns the segment that the distance falls in: the
    one that starts at or before it and ends after it, the lengths before
    it not being negative; and, from the start of the last segment on,
    the last segment, also beyond the end of the track. *)
Theorem getSegment_locates (before after : list TrackSegment) (seg : TrackSegment)
    (distance : Q) :
  Forall (fun s => (0 <= seg_length s)%Z) before ->
  inject_Z (totalLength before) <= distance ->
  distance < inject_Z (totalLength before + seg_length seg) \/ after = [] ->
  GameScene.getSegment (before ++ seg :: after) distance = Some seg.
Proof.
  intros Hall Hlo Hhi. unfold GameScene.getSegment.
  rewrite (segmentFrom_skip before (seg :: after) distance Hall 0) by exact Hlo.
  cbn [GameScene.segmentFrom]. rewrite Z.add_0_l.
  destruct (Qltb distance (inject_Z (totalLength before + seg_length seg))) eqn:E;
    [reflexivity|].
  destruct Hhi as [Hhi | ->]; [apply Qltb_ge in E; lra|].
  cbn [GameScene.segmentFrom]. apply index_last.
Qed.

Lemma getSegment_locates_witness :
  GameScene.getSegment
    ([startSegment; narrowSegment] ++ defaultSegment :: []) 2000
  = Some defaultSegment.
Proof.
  apply getSegment_locates.
  - repeat constructor; cbn; lia.
  - vm_compute. discriminate.
  - right. reflexivity.
Defined.

End SegmentExtra.
(** ** The scene: finishing *)

Section FinishExtra.

Local Open Scope Z_scope.

Lemma positions_cons (p : PlayerState) (players : list PlayerState) :
  positions (p :: players)
  = if finished p then finishPosition p :: positions players else positions players.
Proof. unfold positions. cbn [filter]. destruct (finished p); reflexivity. Qed.

(** What a finishing loop does: it counts on from [count], gives the
    new positions to players that had not finished, and leaves the
    others. *)
Lemma finishLoop_spec (due : PlayerState -> bool) (n : Z) (el ml : Q) :
  forall (players : list PlayerState) (count : Z),
    let r := GameScene.finishLoop due n el ml count players in
    count <= fst r
    /\ keepsFinished players (snd r)
    /\ (forall z, In z (positions (snd r))
                  <-> In z (positions players) \/ count < z <= fst r)
    /\ (NoDup (positions players) ->
        (forall z, In z (positions players) -> z <= count) ->
        NoDup (positions (snd r)))
    /\ ((forall p, due p = true) -> forallb finished (snd r) = true).
Proof.
  induction players as [|p rest IH]; intro count; cbv zeta.
  - cbn. split; [lia|]. split; [constructor|]. split; [intro z; split; [tauto|]|].
    + intros [H|H]; [exact H|lia].
    + split; [intros; constructor|reflexivity].
  - cbn [GameScene.finishLoop].
    destruct (negb (finished p) && due p) eqn:E.
    + apply andb_true_iff in E. destruct E as (Ef & Ed). apply negb_true_iff in Ef.
      specialize (IH (count + 1)). cbv zeta in IH.
      destruct (GameScene.finishLoop due n el ml (count + 1) rest) as [c rest'].
      cbn [fst snd] in *. destruct IH as (I1 & I2 & I3 & I4 & I5).
      rewrite !positions_cons, Ef.
      change (finished (GameScene.finishPlayer (count + 1) n el ml p)) with true.
      change (finishPosition (GameScene.finishPlayer (count + 1) n el ml p))
        with (count + 1).
      cbv iota. split; [lia|]. split; [|split; [|split]].
      * constructor; [intro H; congruence|exact I2].
      * intro z. cbn [In]. rewrite I3. split.
        -- intros [<-|[H|H]]; [right; lia|left; exact H|right; lia].
        -- intros [H|H]; [right; left; exact H|].
           destruct (Z.eq_dec z (count + 1)) as [->|Hz]; [left; reflexivity|].
           right. right. lia.
      * intros Hnd Hle. constructor.
        -- rewrite I3. intros [H|H]; [apply Hle in H; lia|lia].
        -- apply I4; [exact Hnd|]. intros z Hz. apply Hle in Hz. lia.
      * intro Hdue. cbn [forallb]. exact (I5 Hdue).
    + specialize (IH count). cbv zeta in IH.
      destruct (GameScene.finishLoop due n el ml count rest) as [c rest'].
      cbn [fst snd] in *. destruct IH as (I1 & I2 & I3 & I4 & I5).
      rewrite !positions_cons. split; [exact I1|]. split; [|split; [|split]].
      * constructor; [reflexivity|exact I2].
      * intro z. destruct (finished p); [cbn [In]; rewrite I3; tauto|exact (I3 z)].
      * intros Hnd Hle. destruct (finished p) eqn:Ef.
        -- inversion Hnd as [|? ? Hnot Hnd']; subst. constructor.
           ++ rewrite I3. intros [H|H]; [exact (Hnot H)|].
              specialize (Hle (finishPosition p) (or_introl eq_refl)). lia.
           ++ apply I4; [exact Hnd'|]. intros z Hz. apply Hle. right. exact Hz.
        -- apply I4; assumption.
      * intro Hdue. cbn [forallb]. rewrite (I5 Hdue), andb_true_r.
        rewrite Hdue, andb_true_r in E. apply negb_false_iff in E. exact E.
Qed.

Lemma ranked_finishLoop (due : PlayerState -> bool) (n : Z) (el ml : Q)
    (players : list PlayerState) (count : Z) :
  ranked count players ->
  ranked (fst (GameScene.finishLoop due n el ml count players))
    (snd (GameScene.finishLoop due n el ml count players)).
Proof.
  intros (H0 & Hnd & Hin).
  destruct (finishLoop_spec due n el ml players count) as (I1 & _ & I3 & I4 & _).
  split; [lia|]. split.
  - apply I4; [exact Hnd|]. intros z Hz. apply Hin in Hz. lia.
  - intro z. rewrite I3, Hin. lia.
Qed.

Lemma keepsFinished_length (before after : list PlayerState) :
  keepsFinished before after -> List.length after = List.length before.
Proof. intro H. symmetry. exact (Forall2_length H). Qed.

Lemma keepsFinished_trans (a b c : list PlayerState) :
  keepsFinished a b -> keepsFinished b c -> keepsFinished a c.
Proof.
  intro H. revert c. induction H as [|p q a b Hpq _ IH]; intros c Hc;
    inversion Hc as [|? r ? c' Hqr Hc']; subst; constructor.
  - intro Hf. specialize (Hpq Hf). subst q. exact (Hqr Hf).
  - apply IH. exact Hc'.
Qed.

Lemma keepsFinished_refl (a : list PlayerState) : keepsFinished a a.
Proof. induction a; constructor; auto. Qed.

(** When all have finished, the count is the number of players. *)
Lemma ranked_all_finished (count : Z) (players : list PlayerState) :
  ranked count players -> forallb finished players = true ->
  count = length_Z players.
Proof.
  intros (H0 & Hnd & Hin) Hall.
  assert (Hlen : List.length (positions players) = List.length players).
  { unfold positions. rewrite length_map. clear Hnd Hin.
    induction players as [|p rest IH]; [reflexivity|].
    cbn [forallb] in Hall. apply andb_true_iff in Hall. destruct Hall as (Hp & Hr).
    cbn [filter]. rewrite Hp. cbn [List.length]. rewrite IH by exact Hr. reflexivity. }
  set (range := List.map Z.of_nat (seq 1 (Z.to_nat count))).
  assert (Hrange : forall z, In z range <-> 1 <= z <= count).
  { intro z. unfold range. rewrite in_map_iff. split.
    - intros (k & <- & Hk). apply in_seq in Hk. lia.
    - intro Hz. exists (Z.to_nat z). split; [lia|]. apply in_seq. lia. }
  assert (Hnd' : NoDup range).
  { unfold range. apply NoDup_map_NoDup_ForallPairs; [|apply seq_NoDup].
    intros a b _ _ Hab. lia. }
  assert (L1 : (List.length (positions players) <= List.length range)%nat).
  { apply NoDup_incl_length; [exact Hnd|]. intros z Hz. apply Hrange, Hin, Hz. }
  assert (L2 : (List.length range <= List.length (positions players))%nat).
  { apply NoDup_incl_length; [exact Hnd'|]. intros z Hz. apply Hin, Hrange, Hz. }
  unfold range in L1, L2. rewrite length_map, length_seq in L1, L2.
  unfold length_Z. lia.
Qed.

(** The finishing positions are a ranking: if the positions given out so
    far are 1 to [finishCount], each once, they still are after the
    finish checks and the time limit of a tick, and players that had
    finished keep their position, time and score.  When the time is up,
    the game is over, every player has finished, and the positions are 1
    to the number of players. *)
Theorem finish_positions_form_a_ranking (r : GameScene.Race) :
  ranked (GameScene.finishCount r) (GameScene.players r) ->
  let r' := GameScene.timeLimit (GameScene.finishChecks r) in
  ranked (GameScene.finishCount r') (GameScene.players r')
  /\ keepsFinished (GameScene.players r) (GameScene.players r')
  /\ ((matchLength (GameScene.settings r) <= GameScene.elapsedTime r)%Q ->
      GameScene.gameOver r' = true
      /\ forallb finished (GameScene.players r') = true
      /\ GameScene.finishCount r' = length_Z (GameScene.players r')).
Proof.
  intro Hr. cbv zeta. unfold GameScene.finishChecks.
  pose proof (ranked_finishLoop
                (fun p => Qle_bool (inject_Z (GameScene.trackLength r)) (distanceTraveled p))
                (length_Z (GameScene.players r)) (GameScene.elapsedTime r)
                (matchLength (GameScene.settings r)) _ _ Hr) as H1.
  destruct (finishLoop_spec
              (fun p => Qle_bool (inject_Z (GameScene.trackLength r)) (distanceTraveled p))
              (length_Z (GameScene.players r)) (GameScene.elapsedTime r)
              (matchLength (GameScene.settings r)) (GameScene.players r)
              (GameScene.finishCount r)) as (_ & K1 & _).
  destruct (GameScene.finishLoop _ _ _ _ (GameScene.finishCount r) (GameScene.players r))
    as [c1 ps1].
  cbn [fst snd] in H1, K1. unfold GameScene.timeLimit.
  cbn [GameScene.players GameScene.finishCount GameScene.elapsedTime GameScene.settings
       GameScene.trackLength GameScene.gameOver].
  pose proof (ranked_finishLoop (fun _ => true) (length_Z ps1) (GameScene.elapsedTime r)
                (matchLength (GameScene.settings r)) _ _ H1) as H2.
  destruct (finishLoop_spec (fun _ => true) (length_Z ps1) (GameScene.elapsedTime r)
              (matchLength (GameScene.settings r)) ps1 c1) as (_ & K2 & _ & _ & A2).
  destruct (GameScene.finishLoop (fun _ => true) _ _ _ c1 ps1) as [c2 ps2].
  cbn [fst snd] in H2, K2, A2. specialize (A2 (fun _ => eq_refl)).
  destruct (Qle_bool (matchLength (GameScene.settings r)) (GameScene.elapsedTime r))
    eqn:Et; cbn [orb].
  - cbn [GameScene.players GameScene.finishCount GameScene.gameOver].
    split; [exact H2|]. split; [exact (keepsFinished_trans _ _ _ K1 K2)|].
    intros _. split; [reflexivity|]. split; [exact A2|].
    exact (ranked_all_finished _ _ H2 A2).
  - assert (Hno : ~ (matchLength (GameScene.settings r) <= GameScene.elapsedTime r)%Q).
    { intro H. apply Qle_bool_iff in H. congruence. }
    destruct (forallb finished ps1);
      cbn [GameScene.players GameScene.finishCount GameScene.gameOver].
    + split; [exact H2|]. split; [exact (keepsFinished_trans _ _ _ K1 K2)|].
      intro H. contradiction.
    + split; [exact H1|]. split; [exact K1|]. intro H. contradiction.
Qed.

Lemma finish_positions_form_a_ranking_witness :
  GameScene.finishCount
    (GameScene.timeLimit
       (GameScene.finishChecks
          (GameScene.mkRace [playerA; playerB] 0 45 3650 (mkSettings 1 45) false)))
  = 2.
Proof.
  destruct (finish_positions_form_a_ranking
              (GameScene.mkRace [playerA; playerB] 0 45 3650 (mkSettings 1 45) false))
    as (_ & _ & H).
  - unfold ranked. cbn. split; [lia|]. split; [constructor|]. intro z. lia.
  - destruct H as (_ & _ & H); [vm_compute; discriminate|exact H].
Defined.

End FinishExtra.
(** ** The scene: the players and their controllers *)

Section PlayersExtra.

Local Open Scope Z_scope.

Lemma decimal_parses (z : Z) :
  NilZero.int_of_string (GameScene.decimal z) = Some (Z.to_int z).
Proof.
  unfold GameScene.decimal. apply NilZero.isi.
  - destruct z as [|p|p]; cbn; try discriminate.
    intro H. injection H as H. exact (DecimalPos.Unsigned.to_uint_nonnil p H).
  - destruct z as [|p|p]; cbn; try discriminate.
    intro H. injection H as H. exact (DecimalPos.Unsigned.to_uint_nonnil p H).
Qed.

(** Different numbers have different texts. *)
Lemma decimal_inj (a b : Z) : GameScene.decimal a = GameScene.decimal b -> a = b.
Proof.
  intro H. pose proof (decimal_parses a) as Ha. rewrite H, decimal_parses in Ha.
  injection Ha as Ha. symmetry. exact (DecimalZ.to_int_inj _ _ Ha).
Qed.

Lemma map_get_set_same {A} (entries : list (string * A)) (key : string) (c : A) :
  GameScene.map_get (GameScene.map_set entries key c) key = Some c.
Proof.
  induction entries as [|[k v] rest IH]; cbn [GameScene.map_set GameScene.map_get].
  - rewrite String.eqb_refl. reflexivity.
  - destruct (String.eqb k key) eqn:E; cbn [GameScene.map_get]; rewrite E;
      [reflexivity|exact IH].
Qed.

Lemma map_get_set_other {A} (entries : list (string * A)) (key key' : string) (c : A) :
  key' <> key ->
  GameScene.map_get (GameScene.map_set entries key c) key'
  = GameScene.map_get entries key'.
Proof.
  intro Hne. induction entries as [|[k v] rest IH];
    cbn [GameScene.map_set GameScene.map_get].
  - destruct (String.eqb key key') eqn:E; [|reflexivity].
    apply String.eqb_eq in E. congruence.
  - destruct (String.eqb k key) eqn:E; cbn [GameScene.map_get].
    + apply String.eqb_eq in E. subst k.
      destruct (String.eqb key key') eqn:E'; [|reflexivity].
      apply String.eqb_eq in E'. congruence.
    + destruct (String.eqb k key'); [reflexivity|exact IH].
Qed.

(** The profile of the bot number [i]. *)
Lemma profile_of_bot (i : Z) :
  0 <= i -> exists profile,
    index GameScene.profiles (Z.rem i (length_Z GameScene.profiles)) = Some profile.
Proof.
  intro Hi. change (length_Z GameScene.profiles) with 5.
  pose proof (Z.rem_bound_pos i 5 Hi ltac:(lia)) as Hr.
  assert (Hc : Z.rem i 5 = 0 \/ Z.rem i 5 = 1 \/ Z.rem i 5 = 2 \/ Z.rem i 5 = 3
               \/ Z.rem i 5 = 4) by lia.
  destruct Hc as [-> | [-> | [-> | [-> | ->]]]]; eexists; reflexivity.
Qed.

(** What holds of the players and the controllers while the bots are made:
    the players are the human or bots numbered below [i], no two with the
    same id, and every bot has the controller of its profile. *)
Lemma createBots_spec (s : Profiles.Store) (totalLanes : Z) (n : nat) :
  forall (i : Z) (players : list PlayerState)
         (controllers : list (string * BotController.t)),
    0 <= i ->
    Forall (fun p => id p = "player"%string
                     \/ exists j, 0 <= j < i
                                  /\ id p = String.append "bot_" (GameScene.decimal j))
      players ->
    NoDup (List.map id players) ->
    Forall (fun p => isBot p = true ->
                     exists profile,
                       botProfile p = Some profile
                       /\ GameScene.map_get controllers (id p)
                          = Some (BotController.new s profile))
      players ->
    let r := GameScene.createBots s totalLanes n i players controllers in
    NoDup (List.map id (fst r))
    /\ Forall (fun p => isBot p = true ->
                        exists profile,
                          botProfile p = Some profile
                          /\ GameScene.map_get (snd r) (id p)
                             = Some (BotController.new s profile))
         (fst r)
    /\ exists bots,
         fst r = players ++ bots
         /\ List.length bots = n
         /\ Forall (fun b => isBot b = true /\ finished b = false
                             /\ (0 < totalLanes -> 0 <= lane b < totalLanes))
              bots.
Proof.
  induction n as [|n IH]; intros i players controllers Hi Hids Hnd Hctl; cbv zeta.
  - cbn [GameScene.createBots fst snd]. split; [exact Hnd|]. split; [exact Hctl|].
    exists []. rewrite List.app_nil_r. repeat split. constructor.
  - cbn [GameScene.createBots].
    destruct (profile_of_bot i Hi) as (profile & ->).
    set (bot := createPlayerState (String.append "bot_" (GameScene.decimal i))
                  (String.append "Bot " (GameScene.decimal (i + 1)))
                  (Z.rem i totalLanes) true (Z.rem (i + 1) 8) (Some profile)).
    change (id bot) with (String.append "bot_" (GameScene.decimal i)).
    assert (Hnew : ~ In (String.append "bot_" (GameScene.decimal i)) (List.map id players)).
    { intro Hin. apply in_map_iff in Hin. destruct Hin as (p & Hp & Hin).
      rewrite Forall_forall in Hids. destruct (Hids p Hin) as [H|(j & Hj & H)];
        rewrite H in Hp.
      - discriminate Hp.
      - cbn [String.append] in Hp. injection Hp as Hp. apply decimal_inj in Hp. lia. }
    destruct (IH (i + 1) (players ++ [bot])
                (GameScene.map_set controllers
                   (String.append "bot_" (GameScene.decimal i))
                   (BotController.new s profile)))
      as (R1 & R2 & bots & R3 & R4 & R5).
    + lia.
    + apply Forall_app. split.
      * apply (Forall_impl _ (P := fun p => id p = "player"%string
                  \/ exists j, 0 <= j < i
                       /\ id p = String.append "bot_" (GameScene.decimal j)));
          [|exact Hids].
        intros p [H|(j & Hj & H)]; [left; exact H|right; exists j; split; [lia|exact H]].
      * constructor; [|constructor]. right. exists i. split; [lia|reflexivity].
    + rewrite map_app. cbn [List.map].
      apply NoDup_app; [exact Hnd|repeat constructor; intros []|].
      intros a Ha [<-|[]]. exact (Hnew Ha).
    + apply Forall_app. split.
      * rewrite Forall_forall in Hctl |- *. intros p Hin Hbot.
        destruct (Hctl p Hin Hbot) as (pr & Hpr & Hget). exists pr. split; [exact Hpr|].
        rewrite map_get_set_other; [exact Hget|].
        intro E. apply Hnew. rewrite <- E. apply in_map. exact Hin.
      * constructor; [|constructor]. intros _. exists profile.
        split; [reflexivity|]. apply map_get_set_same.
    + split; [exact R1|]. split; [exact R2|].
      exists (bot :: bots). rewrite R3, <- List.app_assoc. split; [reflexivity|].
      split; [cbn [List.length]; rewrite R4; reflexivity|].
      constructor; [|exact R5]. split; [reflexivity|]. split; [reflexivity|].
      intro Hl. change (lane bot) with (Z.rem i totalLanes).
      apply Z.rem_bound_pos; lia.
Qed.

(** [createPlayers] makes the human player, with the id "player" and
    first in the list, and [botCount] bots after it; no two players have
    the same id, and every bot has a controller of its own profile under
    its id.  Nobody has finished, and the bots are in lanes of the first
    segment. *)
Theorem every_bot_has_its_controller (s : Profiles.Store) (settings : GameSettings)
    (track : list TrackSegment) :
  0 <= botCount settings ->
  let players := fst (GameScene.createPlayers s settings track) in
  let controllers := snd (GameScene.createPlayers s settings track) in
  NoDup (List.map id players)
  /\ Forall (fun p => isBot p = true ->
                      exists profile,
                        botProfile p = Some profile
                        /\ GameScene.map_get controllers (id p)
                           = Some (BotController.new s profile))
       players
  /\ exists human bots,
       players = human :: bots
       /\ id human = "player"%string /\ isBot human = false
       /\ length_Z bots = botCount settings
       /\ Forall (fun b => isBot b = true) bots
       /\ Forall (fun p => finished p = false) players
       /\ (forall seg rest, track = seg :: rest -> 0 < lanes seg ->
           Forall (fun b => 0 <= lane b < lanes seg) bots).
Proof.
  intro Hn. cbv zeta. unfold GameScene.createPlayers.
  set (totalLanes := match track with
                     | [] => 5
                     | seg :: _ => if lanes seg =? 0 then 5 else lanes seg
                     end).
  set (human := createPlayerState "player" "You" (totalLanes / 2) false 0 None).
  destruct (createBots_spec s totalLanes (Z.to_nat (botCount settings)) 0 [human] [])
    as (R1 & R2 & bots & R3 & R4 & R5).
  - lia.
  - constructor; [left; reflexivity|constructor].
  - repeat constructor. intros [].
  - constructor; [intro H; discriminate H|constructor].
  - cbv zeta in R1, R2, R3. split; [exact R1|]. split; [exact R2|].
    exists human, bots. split; [rewrite R3; reflexivity|].
    split; [reflexivity|]. split; [reflexivity|].
    split; [unfold length_Z; rewrite R4; lia|]. split.
    + apply (Forall_impl _ (P := fun b => isBot b = true /\ finished b = false
                                   /\ (0 < totalLanes -> 0 <= lane b < totalLanes)));
        [|exact R5].
      intros b (H & _). exact H.
    + split.
      * rewrite R3. constructor; [reflexivity|].
        apply (Forall_impl _ (P := fun b => isBot b = true /\ finished b = false
                                     /\ (0 < totalLanes -> 0 <= lane b < totalLanes)));
          [|exact R5].
        intros b (_ & H & _). exact H.
      * intros seg rest -> Hl. unfold totalLanes in R5.
        destruct (lanes seg =? 0) eqn:E; [apply Z.eqb_eq in E; lia|].
        apply (Forall_impl _ (P := fun b => isBot b = true /\ finished b = false
                                     /\ (0 < lanes seg -> 0 <= lane b < lanes seg)));
          [|exact R5].
        intros b (_ & _ & H). exact (H Hl).
Qed.

Lemma every_bot_has_its_controller_witness :
  NoDup (List.map id (fst (GameScene.createPlayers Profiles.BOT_PROFILES
                             (mkSettings 7 45) getClassicTrack))).
Proof.
  destruct (every_bot_has_its_controller Profiles.BOT_PROFILES (mkSettings 7 45)
              getClassicTrack) as (H & _).
  - cbn. lia.
  - exact H.
Defined.

End PlayersExtra.
(** ** The scene: the collisions of a tick *)

Section CollideExtra.

Lemma pushedOnly_refl (p : PlayerState) : pushedOnly p p.
Proof. split; [repeat split|intros _; reflexivity]. Qed.

Lemma pushedOnly_trans (p q r : PlayerState) :
  pushedOnly p q -> pushedOnly q r -> pushedOnly p r.
Proof.
  intros ((A1 & A2 & A3 & A4 & A5 & A6 & A7 & A8) & HA)
         ((B1 & B2 & B3 & B4 & B5 & B6 & B7 & B8) & HB).
  split; [repeat split; congruence|].
  intro H. rewrite HB; [exact (HA H)|]. rewrite A5, A6, A7. exact H.
Qed.

(** One pair of players. *)
Lemma pushedOnly_pair (a b : PlayerState) :
  let r := if checkPlayerCollision a b then resolveCollision a b else (a, b) in
  pushedOnly a (fst r) /\ pushedOnly b (snd r).
Proof.
  cbv zeta. destruct (checkPlayerCollision a b) eqn:E;
    [|split; apply pushedOnly_refl].
  unfold checkPlayerCollision in E.
  destruct (isJumping a) eqn:Ja, (isJumping b) eqn:Jb; cbn [orb] in E;
    try discriminate E.
  destruct (finished a) eqn:Fa, (finished b) eqn:Fb; cbn [orb] in E;
    try discriminate E.
  unfold resolveCollision.
  destruct (hasShield a) eqn:Sa, (hasShield b) eqn:Sb; cbn [andb negb fst snd];
    (split; (split; [player_fields; repeat split; congruence|]));
    try (intros _; reflexivity);
    intros [H|[H|H]]; congruence.
Qed.

Lemma pushedOnly_later (later : list PlayerState) :
  forall a,
    pushedOnly a (fst (GameScene.collideWithLater a later))
    /\ Forall2 pushedOnly later (snd (GameScene.collideWithLater a later)).
Proof.
  induction later as [|b rest IH]; intro a; cbn [GameScene.collideWithLater].
  - split; [apply pushedOnly_refl|constructor].
  - destruct (pushedOnly_pair a b) as (Ha & Hb). cbv zeta in Ha, Hb.
    destruct (if checkPlayerCollision a b then resolveCollision a b else (a, b))
      as [a1 b1].
    cbn [fst snd] in Ha, Hb. destruct (IH a1) as (Ha1 & Hrest).
    destruct (GameScene.collideWithLater a1 rest) as [a2 rest'].
    cbn [fst snd] in *. split; [exact (pushedOnly_trans _ _ _ Ha Ha1)|].
    constructor; assumption.
Qed.

Lemma Forall2_pushedOnly_trans (a b c : list PlayerState) :
  Forall2 pushedOnly a b -> Forall2 pushedOnly b c -> Forall2 pushedOnly a c.
Proof.
  intro H. revert c. induction H as [|p q a b Hpq _ IH]; intros c Hc;
    inversion Hc as [|? r ? c' Hqr Hc']; subst; constructor.
  - exact (pushedOnly_trans _ _ _ Hpq Hqr).
  - apply IH. exact Hc'.
Qed.

Lemma Forall2_pushedOnly_refl (a : list PlayerState) : Forall2 pushedOnly a a.
Proof. induction a; constructor; [apply pushedOnly_refl|assumption]. Qed.

Lemma pushedOnly_from (n : nat) :
  forall players, Forall2 pushedOnly players (GameScene.collideFrom n players).
Proof.
  induction n as [|n IH]; intros [|a later]; cbn [GameScene.collideFrom];
    try apply Forall2_pushedOnly_refl.
  destruct (pushedOnly_later later a) as (Ha & Hl).
  destruct (GameScene.collideWithLater a later) as [a' later'].
  cbn [fst snd] in *. constructor; [exact Ha|].
  exact (Forall2_pushedOnly_trans _ _ _ Hl (IH later')).
Qed.

(** The collisions of a tick move nobody: every player is where it was
    and as fast along the track, in the air, shielded and finished as
    before; only lateral speeds and stuns change.  A player that has a
    shield, is in the air or has finished is not changed at all. *)
Theorem collisions_only_push (players : list PlayerState) :
  Forall2 pushedOnly players (GameScene.collidePlayers players).
Proof. apply pushedOnly_from. Qed.

End CollideExtra.
(** ** The controller *)

Section BotExtra.

Import Profiles BotController.
Local Open Scope Q_scope.

(** *** States *)

Lemma update_state (s : Store) (c : t) bot players seg g :
  state c <> avoidObstacle ->
  state (snd (fst (fst (update s c bot players seg g)))) <> avoidObstacle.
Proof.
  intro H. unfold update, Rng.bind.
  match goal with
  | |- context [updateState s ?c0 bot players seg g] =>
      pose proof (updateState_state s c0 bot players seg g H) as Hu;
      destruct (updateState s c0 bot players seg g) as [[c1 s1] g1]
  end.
  cbn [fst snd] in Hu.
  pose proof (generateInput_state s1 c1 bot players seg g1) as Hg.
  destruct (generateInput s1 c1 bot players seg g1) as [[raw c2] g2].
  cbn [fst snd] in Hg. rewrite <- Hg in Hu.
  destruct (reactionBuffer c2 ++ [raw]) as [|d rest]; [exact Hu|].
  destruct (humanize _ d g2) as [out g3]. exact Hu.
Qed.

(** No controller ever takes the state [avoidObstacle]: not when it is
    made, and after no sequence of calls of [update]. *)
Theorem avoidObstacle_is_never_entered (s : Store) (profileType : BotProfileType)
    (scenes : list Scene) (g : Rng.SeededRNG) :
  getState (driveController s (new s profileType) scenes g) <> avoidObstacle.
Proof.
  unfold getState.
  assert (H : state (new s profileType) <> avoidObstacle) by discriminate.
  revert H. generalize (new s profileType). revert s g.
  induction scenes as [|sc scenes IH]; intros s g c H; [exact H|].
  cbn [driveController].
  pose proof (update_state s c (scene_bot sc) (scene_players sc) (scene_segment sc) g H)
    as Hu.
  destruct (update s c (scene_bot sc) (scene_players sc) (scene_segment sc) g)
    as [[[input c'] s'] g'].
  apply IH. exact Hu.
Qed.

(** The two fields that the adaptive adjustment tunes, [targetSpeedFactor]
    and [riskTolerance], have no effect on what a controller does: with
    two tables that differ in those fields only, the controllers made
    from them return the same inputs, call after call. *)
Theorem tuning_changes_no_input (s1 s2 : Store) (profileType : BotProfileType)
    (scenes : list Scene) (g : Rng.SeededRNG) :
  sameButTuning s1 s2 ->
  drive s1 (new s1 profileType) scenes g = drive s2 (new s2 profileType) scenes g.
Proof.
  intro H.
  assert (E : new s2 profileType = new s1 profileType).
  { unfold new. f_equal. f_equal. f_equal. symmetry.
    apply (untuned_fields _ _ (H profileType)). }
  rewrite E. apply drive_sameButTuning; [exact H|discriminate].
Qed.

Lemma tuning_changes_no_input_witness :
  drive BOT_PROFILES (new BOT_PROFILES adaptive) [behindScene; behindScene] (Rng.mk 42)
  = drive (write BOT_PROFILES adaptive (set_targetSpeedFactor (BOT_PROFILES adaptive) 1))
      (new (write BOT_PROFILES adaptive (set_targetSpeedFactor (BOT_PROFILES adaptive) 1))
         adaptive)
      [behindScene; behindScene] (Rng.mk 42).
Proof.
  apply tuning_changes_no_input.
  intro k. destruct k; reflexivity.
Defined.

End BotExtra.
(** *** What the controller keeps *)

Section BotInvariants.

Import Profiles BotController.
Local Open Scope Z_scope.

Lemma updateState_timer (s : Store) (c : t) bot players seg g :
  let c' := fst (fst (updateState s c bot players seg g)) in
  stateTimer c' <= 180
  /\ (0 <= stateTimer c -> 0 <= stateTimer c')
  /\ frameCount c' = frameCount c.
Proof.
  unfold updateState, Rng.bind, Rng.ret. cbv zeta.
  repeat (match goal with
          | |- context [let (_, _) := ?d in _] => atomic d; destruct d
          | |- context [if ?b then _ else _] => atomic b; destruct b eqn:?
          end; cbv beta iota; cbn [fst snd stateTimer frameCount set_state]);
    repeat match goal with
           | H : (_ <? _) = true |- _ => apply Z.ltb_lt in H
           | H : (_ <? _) = false |- _ => apply Z.ltb_ge in H
           end;
    repeat split; try lia; reflexivity.
Qed.

Lemma generateInput_timer (s : Store) (c : t) bot players seg g :
  let c' := snd (fst (generateInput s c bot players seg g)) in
  stateTimer c' = stateTimer c /\ frameCount c' = frameCount c.
Proof.
  unfold generateInput, raceInput, Rng.bind, Rng.ret. cbv zeta.
  destruct (state c); [destruct (seg_type seg) as [[]|]|..]; branches; cbn; auto.
Qed.

(** One call of [update]: the buffer keeps its length, the state timer
    is 180 at most, the frame count goes up by one. *)
Lemma update_keeps (s : Store) (c : t) bot players seg g :
  let c' := snd (fst (fst (update s c bot players seg g))) in
  List.length (reactionBuffer c') = List.length (reactionBuffer c)
  /\ stateTimer c' <= 180
  /\ (0 <= stateTimer c -> 0 <= stateTimer c')
  /\ frameCount c' = frameCount c + 1
  /\ profile c' = profile c.
Proof.
  cbv zeta. unfold update, Rng.bind.
  match goal with
  | |- context [updateState s ?c0 bot players seg g] =>
      pose proof (updateState_timer s c0 bot players seg g) as (T1 & T2 & T3);
      pose proof (updateState_keeps s c0 bot players seg g) as (K1 & K2);
      destruct (updateState s c0 bot players seg g) as [[c1 s1] g1]
  end.
  cbn [fst snd stateTimer frameCount reactionBuffer profile] in T1, T2, T3, K1, K2.
  pose proof (generateInput_timer s1 c1 bot players seg g1) as (G1 & G2).
  pose proof (generateInput_keeps s1 c1 bot players seg g1) as (G3 & G4).
  destruct (generateInput s1 c1 bot players seg g1) as [[raw c2] g2].
  cbn [fst snd] in G1, G2, G3, G4.
  destruct (reactionBuffer c2 ++ [raw]) as [|d rest] eqn:E.
  - destruct (reactionBuffer c2); discriminate E.
  - destruct (humanize _ d g2) as [out g3].
    unfold Rng.ret. cbn [fst snd reactionBuffer stateTimer frameCount profile].
    assert (L : S (List.length rest) = (List.length (reactionBuffer c2) + 1)%nat).
    { change (S (List.length rest)) with (List.length (d :: rest)).
      rewrite <- E, length_app. reflexivity. }
    rewrite G3, K1 in L. repeat split; try lia; congruence.
Qed.

(** After any number of calls of [update], the reaction buffer of a
    controller has the length it was made with, [reactionDelay] of its
    profile then; the state timer is between 0 and 180; the frame count
    is the number of calls. *)
Theorem controller_keeps_its_delay (s : Store) (profileType : BotProfileType)
    (scenes : list Scene) (g : Rng.SeededRNG) :
  let c := driveController s (new s profileType) scenes g in
  length_Z (reactionBuffer c) = Z.max 0 (reactionDelay (s profileType))
  /\ 0 <= stateTimer c <= 180
  /\ frameCount c = length_Z scenes
  /\ profile c = profileType.
Proof.
  cbv zeta.
  assert (H : forall scenes s' g c,
             0 <= stateTimer c <= 180 ->
             let c' := driveController s' c scenes g in
             List.length (reactionBuffer c') = List.length (reactionBuffer c)
             /\ 0 <= stateTimer c' <= 180
             /\ frameCount c' = frameCount c + length_Z scenes
             /\ profile c' = profile c).
  { clear. induction scenes as [|sc scenes IH]; intros s g c Hc; cbv zeta.
    - cbn. repeat split; lia.
    - cbn [driveController].
      pose proof (update_keeps s c (scene_bot sc) (scene_players sc) (scene_segment sc) g)
        as (U1 & U2 & U3 & U4 & U5).
      destruct (update s c (scene_bot sc) (scene_players sc) (scene_segment sc) g)
        as [[[input c'] s'] g'].
      cbn [fst snd] in U1, U2, U3, U4, U5.
      destruct (IH s' g' c' ltac:(lia)) as (I1 & I2 & I3 & I4).
      unfold length_Z in *. cbn [List.length]. repeat split; try lia; congruence. }
  destruct (H scenes s g (new s profileType)) as (H1 & H2 & H3 & H4);
    [cbn; lia|].
  unfold length_Z. rewrite H1. cbn [new reactionBuffer frameCount profile] in *.
  rewrite repeat_length. unfold length_Z in H3.
  split; [lia|]. split; [exact H2|]. split; [lia|exact H4].
Qed.

End BotInvariants.
(** *** What the controller steers *)

Section BotInputs.

Import Profiles BotController.
Local Open Scope Q_scope.

(** A stunned bot: the controller goes to [recover] with its timer at 0,
    the raw input it puts at the end of the reaction buffer is the
    neutral one, and no profile is adjusted. *)
Theorem stunned_bot_recovers (s : Store) (c : t) (bot : PlayerState)
    (players : list PlayerState) (seg : TrackSegment) (g : Rng.SeededRNG) :
  0 < stunTimer bot ->
  let r := update s c bot players seg g in
  let c' := snd (fst (fst r)) in
  state c' = recover /\ stateTimer c' = 0%Z
  /\ snd (fst r) = s
  /\ exists delayed, reactionBuffer c ++ [neutral] = delayed :: reactionBuffer c'.
Proof.
  intro Hstun. apply Qltb_lt in Hstun. cbv zeta. unfold update, Rng.bind.
  match goal with
  | |- context [updateState s ?c0 bot players seg g] =>
      assert (E1 : updateState s c0 bot players seg g = (set_state c0 recover 0, s, g))
        by (unfold updateState; rewrite Hstun; reflexivity);
      rewrite E1;
      change (generateInput s (set_state c0 recover 0) bot players seg g)
        with (neutral, set_state c0 recover 0, g)
  end.
  cbn [reactionBuffer set_state].
  destruct (reactionBuffer c ++ [neutral]) as [|d rest] eqn:E.
  - destruct (reactionBuffer c); discriminate E.
  - cbn [profile stateTimer set_state].
    destruct (humanize (s (profile c)) d g) as [out g'].
    unfold Rng.ret. cbn [fst snd state stateTimer reactionBuffer].
    split; [reflexivity|]. split; [reflexivity|]. split; [reflexivity|].
    exists d. reflexivity.
Qed.

Lemma stunned_bot_recovers_witness :
  state (snd (fst (fst (update BOT_PROFILES (new BOT_PROFILES casual) stunnedInLane0
                          [stunnedInLane0] defaultSegment (Rng.mk 42)))))
  = recover.
Proof.
  destruct (stunned_bot_recovers BOT_PROFILES (new BOT_PROFILES casual) stunnedInLane0
              [stunnedInLane0] defaultSegment (Rng.mk 42)) as (H & _).
  - reflexivity.
  - exact H.
Defined.

(** The raw input of a controller never holds left and right together,
    whatever its state. *)
Theorem raw_input_never_steers_both_ways (s : Store) (c : t) (bot : PlayerState)
    (players : list PlayerState) (seg : TrackSegment) (g : Rng.SeededRNG) :
  let raw := fst (fst (generateInput s c bot players seg g)) in
  left raw && right raw = false.
Proof.
  cbv zeta. unfold generateInput.
  destruct (state c).
  - unfold raceInput, Rng.bind.
    destruct (scoreLanes (s (profile c)) bot seg g) as [best g1]. cbv zeta.
    cbn [targetLane].
    match goal with
    | |- context [negb ?b && _] => destruct b
    end;
      (destruct (seg_type seg) as [[]|]; branches; reflexivity).
  - unfold avoidObstacleInput, Rng.bind. cbv zeta.
    destruct (Rng.next g) as [r g1]. cbn [Rng.ret fst left right].
    match goal with
    | |- context [negb ?b && _] => destruct b
    end; reflexivity.
  - unfold chaseInput, Rng.bind.
    match goal with
    | |- context [sortBy ?k ?l] => destruct (sortBy k l) as [|target rest]
    end.
    + destruct (Rng.next g) as [r g1]. reflexivity.
    + cbv zeta.
      destruct (Qltb 0.5 (collisionAggression (s (profile c))));
        destruct (Qltb (x target - x bot) (-5));
        destruct (Rng.next g) as [r g1]; cbn [Rng.ret fst left right negb andb];
        try reflexivity; apply andb_false_r.
  - unfold powerupInput, Rng.bind.
    destruct (Qltb 0 (jumpBoostTimer bot)); [destruct (Rng.next g) as [r g1]|];
      cbn [Rng.ret fst left right];
      destruct (Qltb 0 (speedBoostTimer bot));
      destruct (Qltb (x bot) (PHYSICS.SLIDE_WIDTH / 2 - 10));
      destruct (Qltb (PHYSICS.SLIDE_WIDTH / 2 + 10) (x bot)); reflexivity.
  - reflexivity.
Qed.

(** *** Lanes *)

Lemma laneScores_length (p : BotProfile) (segment : TrackSegment) (n : nat) :
  forall i scores g,
    List.length (fst (laneScores p segment n i scores g)) = (List.length scores + n)%nat.
Proof.
  induction n as [|n IH]; intros i scores g; cbn [laneScores].
  - cbn. lia.
  - cbv zeta. unfold Rng.bind. destruct (Rng.nextFloat (-5) 5 g) as [r g'].
    rewrite IH, length_app. cbn. lia.
Qed.

Lemma bestOf_range (scores : list Q) :
  forall i bestLane bestScore,
    bestOf scores i bestLane bestScore = bestLane
    \/ (i <= bestOf scores i bestLane bestScore < i + length_Z scores)%Z.
Proof.
  unfold length_Z. induction scores as [|sc scores IH]; intros i bestLane bestScore;
    cbn [bestOf]; [left; reflexivity|].
  cbn [List.length].
  destruct (gt_best sc bestScore).
  - destruct (IH (i + 1)%Z i (Some sc)) as [-> | H]; right; lia.
  - destruct (IH (i + 1)%Z bestLane bestScore) as [-> | H];
      [left; reflexivity|right; lia].
Qed.

Lemma safestOf_range (danger : list Q) :
  forall i safestLane minDanger,
    safestOf danger i safestLane minDanger = safestLane
    \/ (i <= safestOf danger i safestLane minDanger < i + length_Z danger)%Z.
Proof.
  unfold length_Z. induction danger as [|d danger IH]; intros i safestLane minDanger;
    cbn [safestOf]; [left; reflexivity|].
  cbn [List.length].
  destruct (lt_min d minDanger).
  - destruct (IH (i + 1)%Z i (Some d)) as [-> | H]; right; lia.
  - destruct (IH (i + 1)%Z safestLane minDanger) as [-> | H];
      [left; reflexivity|right; lia].
Qed.

Lemma addAt_length (arr : list Q) (v : Q) :
  forall i, List.length (addAt arr i v) = List.length arr.
Proof.
  induction arr as [|d arr IH]; intros [|i]; cbn [addAt List.length];
    try reflexivity.
  rewrite IH. reflexivity.
Qed.

(** The lane that a racing controller steers for is a lane of the
    segment, and so is the lane [findSafestLane] returns, for a segment
    of one lane or more. *)
Theorem chosen_lane_is_a_lane (c : t) (p : BotProfile) (bot : PlayerState)
    (seg : TrackSegment) (g : Rng.SeededRNG) :
  (1 <= lanes seg)%Z ->
  (0 <= targetLane (snd (fst (raceInput c p bot seg g))) < lanes seg)%Z
  /\ (0 <= findSafestLane bot seg < lanes seg)%Z.
Proof.
  intro Hl. split.
  - assert (E : targetLane (snd (fst (raceInput c p bot seg g)))
                = fst (scoreLanes p bot seg g)).
    { unfold raceInput, Rng.bind. destruct (scoreLanes p bot seg g) as [best g1].
      cbv zeta. destruct (seg_type seg) as [[]|]; branches; reflexivity. }
    rewrite E. unfold scoreLanes, Rng.bind.
    pose proof (laneScores_length p seg (Z.to_nat (lanes seg)) 0%Z [] g) as Hlen.
    destruct (laneScores p seg (Z.to_nat (lanes seg)) 0%Z [] g) as [scores g1].
    cbn [fst List.length Nat.add Rng.ret] in *.
    destruct scores as [|sc scores]; [cbn [List.length] in Hlen; lia|].
    cbn [bestOf gt_best].
    destruct (bestOf_range scores (0 + 1)%Z 0%Z (Some sc)) as [-> | H];
      unfold length_Z in *; cbn [List.length] in Hlen; lia.
  - unfold findSafestLane. cbv zeta.
    match goal with
    | |- context [fold_left ?f ?l ?a] =>
        assert (Hlen : List.length (fold_left f l a) = Z.to_nat (lanes seg));
        [|destruct (fold_left f l a) as [|d danger]]
    end.
    + generalize (repeat_length (0 : Q) (Z.to_nat (lanes seg))).
      generalize (repeat (0 : Q) (Z.to_nat (lanes seg))).
      induction (obstacles seg) as [|o obs IH]; intros arr Harr; cbn [fold_left];
        [exact Harr|].
      apply IH.
      destruct ((0 <=? obs_lane o)%Z && (obs_lane o <? lanes seg)%Z);
        [rewrite addAt_length|]; exact Harr.
    + cbn [List.length] in Hlen. lia.
    + cbn [safestOf lt_min].
      destruct (safestOf_range danger (0 + 1)%Z 0%Z (Some d)) as [-> | H];
        unfold length_Z in *; cbn [List.length] in Hlen; lia.
Qed.

Lemma chosen_lane_is_a_lane_witness :
  (0 <= findSafestLane (testBot casual) testSegment < 5)%Z.
Proof.
  destruct (chosen_lane_is_a_lane (new BOT_PROFILES casual) (BOT_PROFILES casual)
              (testBot casual) testSegment (Rng.mk 42)) as (_ & H).
  - cbn. lia.
  - exact H.
Defined.

End BotInputs.
(** ** The profiles *)

Section ProfileExtra.

Import Profiles BotController.
Local Open Scope Q_scope.

Lemma write_other (s : Store) (k k' : BotProfileType) (p : BotProfile) :
  k' <> k -> write s k p k' = s k'.
Proof.
  intro H. unfold write. destruct (BotProfileType_eqb k k') eqn:E; [|reflexivity].
  apply BotProfileType_eqb_eq in E. congruence.
Qed.

Lemma write_same (s : Store) (k : BotProfileType) (p : BotProfile) :
  write s k p k = p.
Proof.
  unfold write.
  assert (E : BotProfileType_eqb k k = true) by (apply BotProfileType_eqb_eq; reflexivity).
  rewrite E. reflexivity.
Qed.

(** The adaptive adjustment on a table that has been tuned before. *)
Lemma adapt_tunedTable (s : Store) (c : t) bot players :
  tunedTable s -> tunedTable (adapt s c bot players).
Proof.
  intro H. pose proof H as (Hk & Hu & Ht & Hr). unfold adapt.
  destruct (Qltb 0.5 (adaptiveness (s (profile c)))) eqn:E;
    [|exact H].
  assert (Hp : profile c = adaptive).
  { destruct (profile c) eqn:P; try reflexivity;
      rewrite Hk in E by discriminate; vm_compute in E; discriminate E. }
  rewrite Hp.
  destruct (find (fun p => negb (isBot p)) players) as [human|];
    [|exact H].
  destruct (Qltb (distanceTraveled bot + 100) (distanceTraveled human));
    [|exact H].
  split; [|split; [|split]].
  - intros k Hne. rewrite !write_other by exact Hne. apply Hk. exact Hne.
  - rewrite write_same. rewrite <- Hu. reflexivity.
  - rewrite !write_same. cbn [targetSpeedFactor set_riskTolerance set_targetSpeedFactor].
    destruct (Qmin_spec 1 (targetSpeedFactor (s adaptive) + 0.1)) as (M1 & M2 & [M|M]);
      rewrite M in *; split; lra.
  - rewrite !write_same. cbn [riskTolerance set_riskTolerance set_targetSpeedFactor].
    destruct (Qmin_spec 1 (riskTolerance (s adaptive) + 0.1)) as (M1 & M2 & [M|M]);
      rewrite M in *; split; lra.
Qed.

Lemma update_tunedTable (s : Store) (c : t) bot players seg g :
  tunedTable s -> tunedTable (snd (fst (update s c bot players seg g))).
Proof.
  intro H. unfold update, Rng.bind.
  match goal with
  | |- context [updateState s ?c0 bot players seg g] =>
      assert (Hu : tunedTable (snd (fst (updateState s c0 bot players seg g))));
      [|destruct (updateState s c0 bot players seg g) as [[c1 s1] g1]]
  end.
  { unfold updateState. destruct (Qltb 0 (stunTimer bot)); [exact H|].
    cbv zeta. unfold Rng.bind, Rng.ret. branches; cbn [fst snd];
      apply adapt_tunedTable; exact H. }
  cbn [fst snd] in Hu.
  destruct (generateInput s1 c1 bot players seg g1) as [[raw c2] g2].
  destruct (reactionBuffer c2 ++ [raw]) as [|d rest]; [exact Hu|].
  destruct (humanize _ d g2) as [out g3]. exact Hu.
Qed.

Lemma driveStore_tunedTable (scenes : list Scene) :
  forall (s : Store) (c : t) (g : Rng.SeededRNG),
    tunedTable s -> tunedTable (driveStore s c scenes g).
Proof.
  induction scenes as [|sc scenes IH]; intros s c g H; [exact H|].
  cbn [driveStore].
  pose proof (update_tunedTable s c (scene_bot sc) (scene_players sc) (scene_segment sc)
                g H) as Hu.
  destruct (update s c (scene_bot sc) (scene_players sc) (scene_segment sc) g)
    as [[[input c'] s'] g'].
  apply IH. exact Hu.
Qed.

(** Of the table [BOT_PROFILES], only the entry [adaptive] is ever
    adjusted, whatever controllers are driven with it: the other four
    entries stay as they are written, and the two tuned fields of
    [adaptive] go from 0.8 and 0.5 up to 1 at most, its other fields
    staying. *)
Theorem only_the_adaptive_profile_is_tuned (c : t) (scenes : list Scene)
    (g : Rng.SeededRNG) :
  let table := driveStore BOT_PROFILES c scenes g in
  (forall k, k <> adaptive -> table k = BOT_PROFILES k)
  /\ untuned (table adaptive) = untuned (BOT_PROFILES adaptive)
  /\ (0.8 <= targetSpeedFactor (table adaptive)
      /\ targetSpeedFactor (table adaptive) <= 1)
  /\ (0.5 <= riskTolerance (table adaptive) /\ riskTolerance (table adaptive) <= 1).
Proof.
  cbv zeta. apply (driveStore_tunedTable scenes BOT_PROFILES c g).
  split; [reflexivity|]. split; [reflexivity|].
  split; split; vm_compute; discriminate.
Qed.

(** *** createRandomProfile *)

(** The index that [mix] computes is one of the first four. *)
Lemma mix_index (seed : Z) :
  let idx :=
    Qfloor (inject_Z (bit_and (seed * 1664525 + 1013904223) 0xFFFFFFFF)
            / inject_Z 0xFFFFFFFF * inject_Z 5) in
  (0 <= Z.rem (Z.abs idx) 5 <= 3)%Z.
Proof.
  cbv zeta. unfold bit_and.
  generalize (Z.land (ToInt32 (seed * 1664525 + 1013904223)) (ToInt32 4294967295)).
  intro z.
  assert (Hr : (- 2147483648 <= ToInt32 z < 2147483648)%Z).
  { unfold ToInt32. cbv zeta.
    pose proof (Z.mod_pos_bound z (2 ^ 32) ltac:(lia)) as Hm.
    change (2 ^ 32)%Z with 4294967296%Z in *. change (2 ^ 31)%Z with 2147483648%Z.
    destruct (z mod 4294967296 <? 2147483648)%Z eqn:T;
      [apply Z.ltb_lt in T|apply Z.ltb_ge in T]; lia. }
  generalize dependent (ToInt32 z). clear z. intros r Hr.
  assert (H1 : inject_Z (-2147483648) <= inject_Z r) by (rewrite <- Zle_Qle; lia).
  assert (H2 : inject_Z r <= inject_Z 2147483647) by (rewrite <- Zle_Qle; lia).
  change (inject_Z (-2147483648)) with (-2147483648) in H1.
  change (inject_Z 2147483647) with 2147483647 in H2.
  set (v := inject_Z r / inject_Z 4294967295 * inject_Z 5).
  assert (Hv : inject_Z (-3) <= v /\ v < inject_Z 3).
  { unfold v, Qdiv. change (/ inject_Z 4294967295) with (1 # 4294967295).
    change (inject_Z 5) with 5. change (inject_Z (-3)) with (-3).
    change (inject_Z 3) with 3. split; lra. }
  destruct Hv as (Hlo & Hhi).
  assert (F1 : (-3 <= Qfloor v)%Z).
  { rewrite <- (Qfloor_Z (-3)). apply Qfloor_resp_le. exact Hlo. }
  assert (F2 : (Qfloor v < 3)%Z).
  { rewrite Zlt_Qlt. apply (Qle_lt_trans _ v); [apply Qfloor_le|exact Hhi]. }
  assert (A : (0 <= Z.abs (Qfloor v) <= 3)%Z) by lia.
  rewrite Z.rem_small by lia. exact A.
Qed.

(** [createRandomProfile] mixes nothing: whatever the seed, the profile
    it returns is one of the first four of the table [casual],
    [aggressive], [speedster] and [trickster], every member taken from
    that one profile and none of them undefined, under the type
    [adaptive] and the name "Random".  The profile [adaptive] is never
    the one taken. *)
Theorem random_profile_is_one_of_four (s : Store) (seed : Z) :
  exists k,
    In k [casual; aggressive; speedster; trickster]
    /\ RandomProfile.createRandomProfile s seed = RandomProfile.defined (asRandom (s k)).
Proof.
  pose proof (mix_index seed) as H. cbv zeta in H.
  unfold RandomProfile.createRandomProfile, RandomProfile.mix.
  cbn [List.length List.map RandomProfile.values].
  change (Z.of_nat 5) with 5%Z.
  set (i := Z.rem (Z.abs (Qfloor (inject_Z (bit_and (seed * 1664525 + 1013904223)
                                              4294967295)
                                  / inject_Z 4294967295 * inject_Z 5))) 5) in *.
  assert (Hi : i = 0%Z \/ i = 1%Z \/ i = 2%Z \/ i = 3%Z) by lia.
  clearbody i.
  destruct Hi as [-> | [-> | [-> | ->]]];
    [exists casual|exists aggressive|exists speedster|exists trickster];
    (split; [cbn; tauto|reflexivity]).
Qed.

End ProfileExtra.
(** ** The replay codec *)

Section CodecExtra.

Import ReplayCodec.

Lemma inject_Z_value_inj (a b : Z) : VNum (inject_Z a) = VNum (inject_Z b) -> a = b.
Proof. intro H. injection H as H. exact H. Qed.

Lemma mode_string_inj (a b : GameMode) : mode_string a = mode_string b -> a = b.
Proof. destruct a, b; intro H; try reflexivity; discriminate H. Qed.

Lemma decoded_frames_inj (a b : list ReplayFrame) :
  List.map decoded_frame a = List.map decoded_frame b -> a = b.
Proof.
  revert b. induction a as [|[t i] a IH]; intros [|[t' i'] b] H; try discriminate H;
    [reflexivity|].
  cbn [List.map] in H. injection H as Ht Hi Hrest. subst. f_equal. apply IH, Hrest.
Qed.

(** Two replays have the same link exactly when they have the same
    version, seed, mode and frames: the link holds those four, and
    nothing of the settings, the start time and the player's name. *)
Theorem link_identifies_the_replay (r1 r2 : ReplayData) :
  encodeReplayToUrl r1 = encodeReplayToUrl r2
  <-> version r1 = version r2 /\ seed r1 = seed r2 /\ mode r1 = mode r2
      /\ frames r1 = frames r2.
Proof.
  split.
  - intro H.
    destruct (decode_encode (fun _ => Throw) r1) as (e1 & E1 & D1).
    destruct (decode_encode (fun _ => Throw) r2) as (e2 & E2 & D2).
    rewrite H, E2 in E1. injection E1 as <-. rewrite D2 in D1.
    injection D1 as Hv Hs Hm Hf.
    split; [exact (eq_sym Hv)|]. split; [exact (eq_sym Hs)|].
    split; [symmetry; apply mode_string_inj, Hm|].
    symmetry. apply decoded_frames_inj, Hf.
  - intros (Hv & Hs & Hm & Hf). unfold encodeReplayToUrl, stringify_compact.
    rewrite Hv, Hs, Hm, Hf. reflexivity.
Qed.

Local Open Scope N_scope.

Lemma char_of_base64 (v : N) : v < 64 -> base64_char (Base64.char_of v) = true.
Proof.
  intro Hv. exact (below_64 (fun v => base64_char (Base64.char_of v)) eq_refl v Hv).
Qed.

(** The link of a replay is base64 text: letters, digits, [+], [/] and
    [=] only, in a length that is a multiple of four, and encoding never
    throws. *)
Theorem link_is_base64_text (r : ReplayData) :
  exists encoded,
    encodeReplayToUrl r = Ok encoded
    /\ forallb base64_char encoded = true
    /\ N.of_nat (List.length encoded) mod 4 = 0.
Proof.
  assert (Hbytes : Forall (fun c => c <= 255) (stringify_compact r)).
  { pose proof (stringify_compact_bytes r) as H. rewrite forallb_forall in H.
    rewrite Forall_forall. intros c Hc. apply N.leb_le, H, Hc. }
  unfold encodeReplayToUrl. generalize dependent (stringify_compact r).
  intros data Hbytes. unfold Base64.btoa.
  assert (E : forallb (fun c => c <=? 255) data = true).
  { apply forallb_forall. intros c Hc. apply N.leb_le.
    rewrite Forall_forall in Hbytes. apply Hbytes, Hc. }
  rewrite E. eexists. split; [reflexivity|].
  pose proof (sextets_below_64 data Hbytes) as Hs.
  pose proof (padding_shape data) as Hp. split.
  - rewrite forallb_app. apply andb_true_iff. split.
    + apply forallb_forall. intros c Hc. apply in_map_iff in Hc.
      destruct Hc as (v & <- & Hv). rewrite Forall_forall in Hs.
      apply char_of_base64, Hs, Hv.
    + destruct Hp as [[-> _] | [[-> _] | [-> _]]]; reflexivity.
  - rewrite length_app, length_map.
    destruct Hp as [[-> Hm] | [[-> Hm] | [-> Hm]]]; cbn [List.length];
      revert Hm; generalize (List.length (Base64.sextets data)); intros n Hm; div_mod_lia.
Qed.

Local Open Scope Z_scope.

(** [ToInt32] keeps the low 32 bits. *)
Lemma ToInt32_testbit (z k : Z) :
  0 <= k < 32 -> Z.testbit (ToInt32 z) k = Z.testbit z k.
Proof.
  intro Hk. rewrite <- (Z.mod_pow2_bits_low z 32 k) by lia.
  rewrite <- (Z.mod_pow2_bits_low (ToInt32 z) 32 k) by lia.
  f_equal. unfold ToInt32. cbv zeta.
  destruct (z mod 2 ^ 32 <? 2 ^ 31).
  - apply Z.mod_mod. lia.
  - replace (z mod 2 ^ 32 - 2 ^ 32) with (z mod 2 ^ 32 + (-1) * 2 ^ 32) by lia.
    rewrite Z.mod_add by lia. apply Z.mod_mod. lia.
Qed.

Lemma land_bit (x k : Z) :
  0 <= k -> Z.land x (2 ^ k) = if Z.testbit x k then 2 ^ k else 0.
Proof.
  intro Hk. apply Z.bits_inj'. intros m Hm. rewrite Z.land_spec, Z.pow2_bits_eqb by lia.
  destruct (Z.eqb_spec k m) as [<- | Hne].
  - rewrite andb_true_r. destruct (Z.testbit x k) eqn:E.
    + rewrite Z.pow2_bits_true by lia. reflexivity.
    + rewrite Z.bits_0. reflexivity.
  - rewrite andb_false_r. destruct (Z.testbit x k).
    + rewrite Z.pow2_bits_false by lia. reflexivity.
    + rewrite Z.bits_0. reflexivity.
Qed.

(** [!!(i & mask)] for an integer [i] and the mask of bit [k]. *)
Lemma has_bit_testbit (ToInt32_of_other : value -> result Z) (i k : Z) :
  0 <= k < 31 ->
  has_bit ToInt32_of_other (VNum (inject_Z i)) (2 ^ k) = Ok (Z.testbit i k).
Proof.
  intro Hk. unfold has_bit, ToInt32_of. cbn [and_then]. f_equal.
  assert (Et : Qtruncate (inject_Z i) = i).
  { unfold Qtruncate. destruct (Qltb (inject_Z i) 0);
      [apply Qceiling_Z|apply Qfloor_Z]. }
  rewrite Et. unfold bit_and.
  assert (Ep : ToInt32 (2 ^ k) = 2 ^ k).
  { unfold ToInt32. cbv zeta.
    assert (0 < 2 ^ k) by (apply Z.pow_pos_nonneg; lia).
    assert (2 ^ k <= 2 ^ 30) by (apply Z.pow_le_mono_r; lia).
    change (2 ^ 30) with 1073741824 in *. change (2 ^ 32) with 4294967296.
    change (2 ^ 31) with 2147483648.
    rewrite Z.mod_small by lia.
    destruct (2 ^ k <? 2147483648) eqn:E; [reflexivity|apply Z.ltb_ge in E; lia]. }
  rewrite Ep, land_bit by lia.
  rewrite !ToInt32_testbit by lia.
  destruct (Z.testbit i k); [rewrite Ep|reflexivity].
  assert (0 < 2 ^ k) by (apply Z.pow_pos_nonneg; lia).
  destruct (Z.eqb_spec (2 ^ k) 0); [lia|reflexivity].
Qed.

(** Decoding a frame reads the three low bits of its input code and
    nothing else of it: for every integer code, also one outside 0 to 7,
    left, right and jump are its bits 0, 1 and 2. *)
Theorem decoding_reads_three_bits (ToInt32_of_other : value -> result Z) (t i : Z) :
  decode_frame ToInt32_of_other (frame_with_code t i)
  = Ok (mkDecodedFrame (VNum (inject_Z t))
          (mkInput (Z.testbit i 0) (Z.testbit i 1) (Z.testbit i 2))).
Proof.
  unfold decode_frame.
  change (get (frame_with_code t i) (lit "t")) with (Ok (VNum (inject_Z t))).
  change (get (frame_with_code t i) (lit "i")) with (Ok (VNum (inject_Z i))).
  cbn [and_then].
  pose proof (has_bit_testbit ToInt32_of_other i 0 ltac:(lia)) as H0.
  pose proof (has_bit_testbit ToInt32_of_other i 1 ltac:(lia)) as H1.
  pose proof (has_bit_testbit ToInt32_of_other i 2 ltac:(lia)) as H2.
  change (2 ^ 0) with 1 in H0. change (2 ^ 1) with 2 in H1. change (2 ^ 2) with 4 in H2.
  rewrite H0. cbn [and_then]. rewrite H1. cbn [and_then]. rewrite H2. reflexivity.
Qed.

End CodecExtra.
